(** * Hops sensory analysis: the two notebooks as Rocq functions

    [1_clean_data.ipynb] expands acronyms in the [Comments] column, projects
    the frame to [{sample, text}] records and writes them as JSON;
    [2_keywords_phrases.ipynb] reloads that document and computes n-gram
    counts, part-of-speech counts and keyword-category prevalence per
    sample type.

    Conventions of the embedding.
    - A Python [str] is a [string] (a byte string).  Character classes are
      the ASCII ones: [\w] is [[A-Za-z0-9_]], case folding touches [A-Z]
      only, a byte above 127 is neither a word character nor a letter.
    - A cell of the frame, and a field of a record, is a [cell]: a string
      or the float NaN that pandas uses for a missing value.
    - A Python exception is a value [Raise e] of [result]; the cells of a
      notebook are functions into [result] wherever the code can raise.
    - [n / total] on Python ints is modelled by the exact quotient in [Q];
      Python rounds it to a double, which no statement below depends on.
    - NLTK and spaCy are collaborators behind the interfaces [NLTK] and
      [SpaCy]. *)

From Stdlib Require Import String Ascii List NArith ZArith QArith Lia Permutation.
From stdpp Require Import gmap strings list fin_maps sorting.

Open Scope string_scope.
Open Scope list_scope.
Set Warnings "-register-all".

(** ** Python values and exceptions *)

Inductive exn :=
  | AttributeError
  | TypeError
  | IndexError
  | ValueError
  | ZeroDivisionError.

Inductive result (A : Type) :=
  | Ok (a : A)
  | Raise (e : exn).
Arguments Ok {A} a.
Arguments Raise {A} e.

Global Instance result_ret : MRet result := λ A a, Ok a.

Global Instance result_bind : MBind result := λ A B k r,
  match r with
  | Ok a => k a
  | Raise e => Raise e
  end.

(** [[f(x) for x in l]] where [f] may raise: left to right, the first
    exception aborts the comprehension. *)
Fixpoint for_each {A B} (f : A → result B) (l : list A) : result (list B) :=
  match l with
  | [] => Ok []
  | x :: l' => y ← f x; ys ← for_each f l'; Ok (y :: ys)
  end.

(** A frame cell or record field: [str] or NaN. *)
Inductive cell :=
  | Str (s : string)
  | NaN.

Definition cell_eqb_str (c : cell) (s : string) : bool :=
  match c with
  | Str s' => bool_decide (s' = s)
  | NaN => false
  end.

(** ** Characters

    A character is a byte; the classes and the case folding below are those
    of Python on ASCII characters, and the theorems that depend on them are
    stated for ASCII text. *)

Definition code (c : ascii) : N := N_of_ascii c.

Definition in_range (lo hi : N) (c : ascii) : bool :=
  ((lo <=? code c) && (code c <=? hi))%N.

Definition is_upper (c : ascii) : bool := in_range 65 90 c.
Definition is_lower (c : ascii) : bool := in_range 97 122 c.
Definition is_digit (c : ascii) : bool := in_range 48 57 c.

(** [\w] *)
Definition is_word (c : ascii) : bool :=
  is_upper c || is_lower c || is_digit c || (code c =? 95)%N.

(** [\s]: tab, LF, VT, FF, CR, the separators 0x1c-0x1f and space. *)
Definition is_space (c : ascii) : bool :=
  in_range 9 13 c || in_range 28 31 c || (code c =? 32)%N.

Definition lower_char (c : ascii) : ascii :=
  if is_upper c then ascii_of_N (code c + 32) else c.

(** [str.lower()] *)
Fixpoint lower (s : string) : string :=
  match s with
  | "" => ""
  | String c s' => String (lower_char c) (lower s')
  end.

Fixpoint filter_chars (keep : ascii → bool) (s : string) : string :=
  match s with
  | "" => ""
  | String c s' =>
      if keep c then String c (filter_chars keep s') else filter_chars keep s'
  end.

Definition head_char (s : string) : option ascii :=
  match s with
  | "" => None
  | String c _ => Some c
  end.

(** ** Regular expressions of the notebooks

    Every pattern that the notebooks match against a comment has the shape
    [\b(a1|a2|...|an)\b] (a bare literal is the case [n = 1]) and is
    compiled case-insensitively.  A pattern is the list of its
    alternatives. *)

Definition pattern := list string.

Definition word_opt (c : option ascii) : bool :=
  match c with
  | Some c => is_word c
  | None => false
  end.

(** [\b] between the character before the position and the one after. *)
Definition boundary (prev next : option ascii) : bool :=
  xorb (word_opt prev) (word_opt next).

(** Match the literal at the head of [s], ignoring case.  Returns the last
    character consumed (or [prev] for the empty literal) and the rest. *)
Fixpoint match_literal (lit : string) (prev : option ascii) (s : string)
  : option (option ascii * string) :=
  match lit with
  | "" => Some (prev, s)
  | String a lit' =>
      match s with
      | "" => None
      | String c s' =>
          if bool_decide (lower_char a = lower_char c)
          then match_literal lit' (Some c) s'
          else None
      end
  end.

(** One alternative between the two [\b]: the length of the match. *)
Definition match_alt (prev : option ascii) (s : string) (lit : string)
  : option nat :=
  if boundary prev (head_char s) then
    match match_literal lit prev s with
    | Some (last, rest) =>
        if boundary last (head_char rest) then Some (String.length lit)
        else None
    | None => None
    end
  else None.

(** Alternatives are tried in order; the first that matches together with
    the closing [\b] wins. *)
Fixpoint match_here (p : pattern) (prev : option ascii) (s : string)
  : option nat :=
  match p with
  | [] => None
  | lit :: p' =>
      match match_alt prev s lit with
      | Some n => Some n
      | None => match_here p' prev s
      end
  end.

(** [re.search(p, s, flags=re.I)] as a truth value. *)
Fixpoint search_from (p : pattern) (prev : option ascii) (s : string) : bool :=
  match match_here p prev s with
  | Some _ => true
  | None =>
      match s with
      | "" => false
      | String c s' => search_from p (Some c) s'
      end
  end.

Definition re_search (p : pattern) (s : string) : bool :=
  search_from p None s.

(** [re.sub(p, repl, s, flags=re.I)]: leftmost non-overlapping matches,
    scanned left to right.  [skip] counts the characters of the current
    match still to be dropped.  (No alternative of the notebooks is empty;
    for an empty match the replacement is inserted and the scan moves on.) *)
Fixpoint sub_from (p : pattern) (repl : string) (prev : option ascii)
    (skip : nat) (s : string) : string :=
  match s with
  | "" =>
      match skip, match_here p prev "" with
      | O, Some _ => repl
      | _, _ => ""
      end
  | String c s' =>
      match skip with
      | S k => sub_from p repl (Some c) k s'
      | O =>
          match match_here p prev s with
          | Some (S k) => repl +:+ sub_from p repl (Some c) k s'
          | Some O => repl +:+ String c (sub_from p repl (Some c) O s')
          | None => String c (sub_from p repl (Some c) O s')
          end
      end
  end.

Definition re_sub (p : pattern) (repl : string) (s : string) : string :=
  sub_from p repl None 0 s.

(** [len(re.findall(p, s, flags=re.I))], which is what [Series.str.count]
    computes for a string cell. *)
Fixpoint count_from (p : pattern) (prev : option ascii) (skip : nat)
    (s : string) : nat :=
  match s with
  | "" =>
      match skip, match_here p prev "" with
      | O, Some _ => 1
      | _, _ => 0
      end
  | String c s' =>
      match skip with
      | S k => count_from p (Some c) k s'
      | O =>
          match match_here p prev s with
          | Some (S k) => S (count_from p (Some c) k s')
          | Some O => S (count_from p (Some c) O s')
          | None => count_from p (Some c) O s'
          end
      end
  end.

Definition re_count (p : pattern) (s : string) : nat := count_from p None 0 s.

(** ** Records of the interchange document

    One dict [{"sample": ..., "text": ...}] of [records] (notebook 1) and of
    [data] (notebook 2). *)

Record item := { sample : cell; text : cell }.

(** ** Collaborators

    What the notebooks use of NLTK: the English stopword list, the word
    tokenizer and the WordNet lemmatizer. *)
Class NLTK := {
  stopwords_english : gset string;
  word_tokenize : string → list string;
  lemmatize : string → string
}.

(** What notebook 2 uses of a spaCy token. *)
Record token := {
  tok_text : string;
  pos_ : string;
  lemma_ : string;
  dep_ : string
}.

Class SpaCy := { nlp : string → list token }.

(** ** Notebook 1: [1_clean_data.ipynb] *)

Module Clean.

(** A row of [Vera Sensory Comments.csv]. *)
Record row := { Event : cell; Sample : cell; Comments : cell }.

(** [Series.str.replace(pat, repl, regex=True, case=False)] on one cell of
    a column that the [.str] accessor accepts: a NaN cell passes through.
    (The accessor itself, which refuses a column without any string, is
    [Run.str_accessor].) *)
Definition str_replace (p : pattern) (repl : string) (c : cell) : cell :=
  match c with
  | Str s => Str (re_sub p repl s)
  | NaN => NaN
  end.

(** [Series.str.count(pat, flags=re.IGNORECASE).sum()]: NaN cells count as
    NaN, which [sum] skips. *)
Definition str_count_sum (p : pattern) (col : list cell) : nat :=
  foldr (λ c acc, match c with Str s => re_count p s + acc | NaN => acc end)
        0 col.

(** The dict keeps insertion order; [re.escape] leaves every key as it is
    (the only non-alphanumeric character is [/]). *)
Definition acronym_map : list (string * string) :=
  [ ("GO", "onion garlic");
    ("O/G", "onion garlic");
    ("ONG", "onion garlic");
    ("DMTS", "dimethyl trisulfide");
    ("T2N", "trans-2-nonenal");
    ("H2S", "hydrogen sulfide");
    ("IPA", "india pale ale");
    ("IPL", "india pale lager") ].

(** [for abbr, full in acronym_map.items(): ...] *)
Definition apply_acronym_map (col : list cell) : list cell :=
  foldl (λ col '(abbr, full), map (str_replace [abbr] full) col)
        col acronym_map.

(** [ipa_pattern] is assigned and never read; [plural_count] is computed
    and never read. *)
Definition plural_count (col : list cell) : nat :=
  str_count_sum ["india pale ales"] col.

Definition ohai_count (col : list cell) : nat := str_count_sum ["ohai"] col.

(** What the "Expand acronyms" cell does to the cells of a [Comments]
    column that the accessor accepts.  ([Run.expand_acronyms] is the cell
    as it runs, accessor included.) *)
Definition expand_acronyms (col : list cell) : list cell :=
  let col := apply_acronym_map col in
  let _ := plural_count col in
  if (0 <? ohai_count col)%nat
  then map (str_replace ["ohai"] "overall hop aroma intensity") col
  else col.

(** The cell on the frame: only [Comments] is rewritten.  ([Run.clean] is
    the cell as it runs.) *)
Definition set_comments (r : row) (c : cell) : row :=
  {| Event := Event r; Sample := Sample r; Comments := c |}.

Definition clean (data : list row) : list row :=
  zip_with set_comments data (expand_acronyms (map Comments data)).

(** The normalizer on one comment: the frame with that single row. *)
Definition normalize (text : string) : list cell := expand_acronyms [Str text].

(** [data[["Sample", "Comments"]].rename(...).to_dict(orient="records")] *)
Definition records (data : list row) : list item :=
  map (λ r, {| sample := Sample r; text := Comments r |}) data.

(** [hops_texts] and [beer_texts]: [[item["text"] for item in records if
    item["sample"] == label]]. *)
Definition texts_of (label : string) (records : list item) : list cell :=
  text <$> filter (λ it, cell_eqb_str (sample it) label = true) records.

(** [word_count]: [pd.isna] guards the tokenizer ([str(text)] is [text] for
    a string). *)
Definition word_count `{NLTK} (text : cell) : nat :=
  match text with
  | NaN => 0
  | Str s => length (word_tokenize s)
  end.

(** [hops_word_counts] and [beer_word_counts] *)
Definition word_counts `{NLTK} (label : string) (records : list item)
  : list nat :=
  word_count <$> texts_of label records.

End Clean.

(** ** The interchange document: [json.dump] and [json.load]

    The fragment of JSON that the exporter can emit (strings, NaN, arrays,
    objects) together with the three keyword literals.  Number literals
    other than [NaN] are outside the fragment: the decoder rejects them. *)

Module Json.

Inductive value :=
  | JNull
  | JTrue
  | JFalse
  | JNaN
  | JStr (s : string)
  | JArr (items : list value)
  | JObj (members : list (string * value)).

Definition dquote : ascii := "034"%char.
Definition backslash : ascii := "092"%char.
Definition LF : ascii := "010"%char.

Definition hex_digit (n : N) : ascii :=
  if (n <? 10)%N then ascii_of_N (48 + n) else ascii_of_N (87 + n).

(** [ESCAPE_DCT] of [json.encoder] (with [ensure_ascii=False] only the
    quote, the backslash and the control characters are escaped). *)
Definition escape_char (c : ascii) : string :=
  if bool_decide (c = dquote) then String backslash (String dquote "")
  else if bool_decide (c = backslash) then String backslash (String backslash "")
  else if (code c =? 10)%N then String backslash "n"
  else if (code c =? 13)%N then String backslash "r"
  else if (code c =? 9)%N then String backslash "t"
  else if (code c =? 8)%N then String backslash "b"
  else if (code c =? 12)%N then String backslash "f"
  else if (code c <? 32)%N then
    String backslash
      ("u00" +:+ String (hex_digit (code c / 16))
                   (String (hex_digit (code c mod 16)) ""))
  else String c "".

Fixpoint escape (s : string) : string :=
  match s with
  | "" => ""
  | String c s' => escape_char c +:+ escape s'
  end.

(** [py_encode_basestring] *)
Definition encode_basestring (s : string) : string :=
  String dquote (escape s +:+ String dquote "").

Fixpoint spaces (n : nat) : string :=
  match n with
  | O => ""
  | S n' => String " " (spaces n')
  end.

(** [newline_indent] of [_make_iterencode] for [indent=4]. *)
Definition newline_indent (level : nat) : string :=
  String LF (spaces (4 * level)).

(** [_iterencode] with [indent=4], item separator [","] and key separator
    [": "], joined into one string. *)
Fixpoint encode (level : nat) (v : value) : string :=
  match v with
  | JNull => "null"
  | JTrue => "true"
  | JFalse => "false"
  | JNaN => "NaN"
  | JStr s => encode_basestring s
  | JArr [] => "[]"
  | JArr (x :: xs) =>
      "[" +:+ newline_indent (S level) +:+ encode (S level) x +:+
      (fix items (xs : list value) : string :=
         match xs with
         | [] => newline_indent level +:+ "]"
         | y :: ys =>
             "," +:+ newline_indent (S level) +:+ encode (S level) y
             +:+ items ys
         end) xs
  | JObj [] => "{}"
  | JObj ((k, x) :: ms) =>
      "{" +:+ newline_indent (S level) +:+ encode_basestring k +:+ ": "
      +:+ encode (S level) x +:+
      (fix members (ms : list (string * value)) : string :=
         match ms with
         | [] => newline_indent level +:+ "}"
         | (k', y) :: ms' =>
             "," +:+ newline_indent (S level) +:+ encode_basestring k'
             +:+ ": " +:+ encode (S level) y +:+ members ms'
         end) ms
  end.

(** [json.dump(obj, f, indent=4, ensure_ascii=False)]: the text written. *)
Definition dumps (v : value) : string := encode 0 v.

(** Decoder.  [WHITESPACE] is [[ \t\n\r]*]. *)
Definition is_ws (c : ascii) : bool :=
  (code c =? 32)%N || (code c =? 9)%N || (code c =? 10)%N || (code c =? 13)%N.

Fixpoint skip_ws (s : string) : string :=
  match s with
  | "" => ""
  | String c s' => if is_ws c then skip_ws s' else s
  end.

Definition hex_value (c : ascii) : option N :=
  if is_digit c then Some (code c - 48)%N
  else if in_range 97 102 c then Some (code c - 87)%N
  else if in_range 65 70 c then Some (code c - 55)%N
  else None.

Definition hex4 (a b c d : ascii) : option N :=
  match hex_value a, hex_value b, hex_value c, hex_value d with
  | Some x, Some y, Some z, Some w => Some (((x * 16 + y) * 16 + z) * 16 + w)%N
  | _, _, _, _ => None
  end.

(** A [\uXXXX] escape denotes a code point; in the byte-string model it is
    its UTF-8 encoding.  Surrogates have none and are rejected. *)
Definition utf8 (n : N) : option string :=
  if (n <? 128)%N then Some (String (ascii_of_N n) "")
  else if (n <? 2048)%N then
    Some (String (ascii_of_N (192 + n / 64))
            (String (ascii_of_N (128 + n mod 64)) ""))
  else if ((55296 <=? n) && (n <=? 57343))%N then None
  else
    Some (String (ascii_of_N (224 + n / 4096))
            (String (ascii_of_N (128 + (n / 64) mod 64))
               (String (ascii_of_N (128 + n mod 64)) ""))).

(** [BACKSLASH] of [json.decoder]. *)
Definition unescape (e : ascii) : option ascii :=
  if bool_decide (e = dquote) then Some dquote
  else if bool_decide (e = backslash) then Some backslash
  else if bool_decide (e = "/"%char) then Some "/"%char
  else if bool_decide (e = "b"%char) then Some "008"%char
  else if bool_decide (e = "f"%char) then Some "012"%char
  else if bool_decide (e = "n"%char) then Some "010"%char
  else if bool_decide (e = "r"%char) then Some "013"%char
  else if bool_decide (e = "t"%char) then Some "009"%char
  else None.

(** [py_scanstring] with [strict=True], called just after the opening
    quote: the decoded string and the text after the closing quote. *)
Fixpoint scan_string (s : string) : option (string * string) :=
  match s with
  | "" => None
  | String c s' =>
      if bool_decide (c = dquote) then Some ("", s')
      else if bool_decide (c = backslash) then
        match s' with
        | "" => None
        | String e s'' =>
            if bool_decide (e = "u"%char) then
              match s'' with
              | String h1 (String h2 (String h3 (String h4 s3))) =>
                  match hex4 h1 h2 h3 h4 with
                  | Some n =>
                      match utf8 n, scan_string s3 with
                      | Some u, Some (r, rest) => Some (u +:+ r, rest)
                      | _, _ => None
                      end
                  | None => None
                  end
              | _ => None
              end
            else
              match unescape e, scan_string s'' with
              | Some ch, Some (r, rest) => Some (String ch r, rest)
              | _, _ => None
              end
        end
      else if (code c <? 32)%N then None
      else
        match scan_string s' with
        | Some (r, rest) => Some (String c r, rest)
        | None => None
        end
  end.

(** Strip a keyword literal from the head of the text. *)
Fixpoint strip_prefix (lit s : string) : option string :=
  match lit with
  | "" => Some s
  | String a lit' =>
      match s with
      | "" => None
      | String c s' =>
          if bool_decide (a = c) then strip_prefix lit' s' else None
      end
  end.

(** [scan_once], [JSONArray] and [JSONObject].  [fuel] bounds the number of
    nested calls; the length of the document is always enough. *)
Fixpoint parse_value (fuel : nat) (s : string) : option (value * string) :=
  match fuel with
  | O => None
  | S fuel =>
      match s with
      | "" => None
      | String c s' =>
          if bool_decide (c = dquote) then
            match scan_string s' with
            | Some (str, rest) => Some (JStr str, rest)
            | None => None
            end
          else if bool_decide (c = "["%char) then
            match skip_ws s' with
            | String "]" rest => Some (JArr [], rest)
            | s1 =>
                match parse_items fuel s1 with
                | Some (vs, rest) => Some (JArr vs, rest)
                | None => None
                end
            end
          else if bool_decide (c = "{"%char) then
            match skip_ws s' with
            | String "}" rest => Some (JObj [], rest)
            | s1 =>
                match parse_members fuel s1 with
                | Some (ms, rest) => Some (JObj ms, rest)
                | None => None
                end
            end
          else
            match strip_prefix "NaN" s, strip_prefix "null" s,
                  strip_prefix "true" s, strip_prefix "false" s with
            | Some rest, _, _, _ => Some (JNaN, rest)
            | _, Some rest, _, _ => Some (JNull, rest)
            | _, _, Some rest, _ => Some (JTrue, rest)
            | _, _, _, Some rest => Some (JFalse, rest)
            | _, _, _, _ => None
            end
      end
  end

with parse_items (fuel : nat) (s : string) : option (list value * string) :=
  match fuel with
  | O => None
  | S fuel =>
      match parse_value fuel s with
      | Some (v, rest) =>
          match skip_ws rest with
          | String "]" rest' => Some ([v], rest')
          | String "," rest' =>
              match parse_items fuel (skip_ws rest') with
              | Some (vs, rest'') => Some (v :: vs, rest'')
              | None => None
              end
          | _ => None
          end
      | None => None
      end
  end

with parse_members (fuel : nat) (s : string)
  : option (list (string * value) * string) :=
  match fuel with
  | O => None
  | S fuel =>
      match s with
      | String c s' =>
          if bool_decide (c = dquote) then
            match scan_string s' with
            | Some (key, rest) =>
                match skip_ws rest with
                | String ":" rest1 =>
                    match parse_value fuel (skip_ws rest1) with
                    | Some (v, rest2) =>
                        match skip_ws rest2 with
                        | String "}" rest3 => Some ([(key, v)], rest3)
                        | String "," rest3 =>
                            match parse_members fuel (skip_ws rest3) with
                            | Some (ms, rest4) => Some ((key, v) :: ms, rest4)
                            | None => None
                            end
                        | _ => None
                        end
                    | None => None
                    end
                | _ => None
                end
            | None => None
            end
          else None
      | "" => None
      end
  end.

(** [json.load(f)]: one value, surrounded by whitespace only. *)
Definition loads (s : string) : option value :=
  let s := skip_ws s in
  match parse_value (S (String.length s)) s with
  | Some (v, rest) =>
      match skip_ws rest with
      | "" => Some v
      | _ => None
      end
  | None => None
  end.

(** [d[key]] on a decoded object: of two members with one key the later
    one is the dict's. *)
Fixpoint getitem (ms : list (string * value)) (key : string) : option value :=
  match ms with
  | [] => None
  | (k, v) :: ms' =>
      match getitem ms' key with
      | Some v' => Some v'
      | None => if bool_decide (k = key) then Some v else None
      end
  end.

End Json.

(** The Python value of [records], as [json.dump] receives it. *)
Definition cell_to_json (c : cell) : Json.value :=
  match c with
  | Str s => Json.JStr s
  | NaN => Json.JNaN
  end.

Definition item_to_json (it : item) : Json.value :=
  Json.JObj [("sample", cell_to_json (sample it));
             ("text", cell_to_json (text it))].

Definition records_to_json (records : list item) : Json.value :=
  Json.JArr (item_to_json <$> records).

(** "Save cleaned data": the contents of [comments_cleaned.json]. *)
Definition save (records : list item) : string :=
  Json.dumps (records_to_json records).

(** The decoded document as notebook 2 reads it: a list whose elements are
    subscripted with ["sample"] and ["text"] only. *)
Definition cell_of_json (v : Json.value) : option cell :=
  match v with
  | Json.JStr s => Some (Str s)
  | Json.JNaN => Some NaN
  | _ => None
  end.

Definition item_of_json (v : Json.value) : option item :=
  match v with
  | Json.JObj ms =>
      match Json.getitem ms "sample", Json.getitem ms "text" with
      | Some s, Some t =>
          match cell_of_json s, cell_of_json t with
          | Some s, Some t => Some {| sample := s; text := t |}
          | _, _ => None
          end
      | _, _ => None
      end
  | _ => None
  end.

Fixpoint items_of_json (vs : list Json.value) : option (list item) :=
  match vs with
  | [] => Some []
  | v :: vs' =>
      match item_of_json v, items_of_json vs' with
      | Some it, Some its => Some (it :: its)
      | _, _ => None
      end
  end.

(** "Load cleaned comments data": [data = json.load(f)]. *)
Definition load (doc : string) : option (list item) :=
  match Json.loads doc with
  | Some (Json.JArr vs) => items_of_json vs
  | _ => None
  end.

(** ** Notebook 2: [2_keywords_phrases.ipynb] *)

(** [Counter(iterable)]: each element increments its own count. *)
Definition Counter (l : list string) : gmap string nat :=
  foldl (λ m x, <[x := S (default 0 (m !! x))]> m) ∅ l.

(** [for x in l: body] with a loop-carried state; an exception leaves the
    loop. *)
Fixpoint for_loop {S A} (body : S → A → result S) (st : S) (l : list A)
  : result S :=
  match l with
  | [] => Ok st
  | x :: l' => st' ← body st x; for_loop body st' l'
  end.

(** [l[i]] *)
Definition py_index (l : list string) (i : nat) : result string :=
  match l !! i with
  | Some x => Ok x
  | None => Raise IndexError
  end.

(** [n / total] on ints: the exception, and the quotient as a rational.
    Python returns the double nearest to it; bounds that rounding keeps are
    stated on the rational, sums of percentages are not. *)
Definition py_truediv (n total : nat) : result Q :=
  match total with
  | O => Raise ZeroDivisionError
  | S _ => Ok (Z.of_nat n # Pos.of_nat total)
  end.

(** [text.lower()]: a float has no such attribute. *)
Definition py_lower (c : cell) : result string :=
  match c with
  | Str s => Ok (lower s)
  | NaN => Raise AttributeError
  end.

(** [re.search(pattern, text, flags=re.I)]: "expected string or bytes-like
    object" on a float. *)
Definition py_re_search (p : pattern) (c : cell) : result bool :=
  match c with
  | Str s => Ok (re_search p s)
  | NaN => Raise TypeError
  end.

(** ** Notebook 1 as it runs: the [.str] accessor

    [read_csv] gives a column in which every cell is missing the dtype
    float64, and [.str] on such a column raises [AttributeError] ("Can only
    use .str accessor with string values"); a column with a string cell, or
    without any row, has dtype object.  [Clean] says what the methods do to
    the cells of a column that the accessor accepts; here are the
    statements of the "Expand acronyms" cell with the accessor in front of
    each method, as the cell runs them. *)

Module Run.

Definition all_missing (col : list cell) : bool :=
  forallb (λ c, match c with NaN => true | Str _ => false end) col.

(** [data["Comments"].str] *)
Definition str_accessor (col : list cell) : result (list cell) :=
  match col with
  | [] => Ok col
  | _ :: _ => if all_missing col then Raise AttributeError else Ok col
  end.

(** [data["Comments"].str.replace(pat, repl, regex=True, case=False)] *)
Definition str_replace (p : pattern) (repl : string) (col : list cell)
  : result (list cell) :=
  col ← str_accessor col; Ok (map (Clean.str_replace p repl) col).

(** [data["Comments"].str.count(pat, flags=re.IGNORECASE).sum()] *)
Definition str_count_sum (p : pattern) (col : list cell) : result nat :=
  col ← str_accessor col; Ok (Clean.str_count_sum p col).

(** [for abbr, full in acronym_map.items(): data["Comments"] = ...] *)
Definition apply_acronym_map (col : list cell) : result (list cell) :=
  for_loop (λ col '(abbr, full), str_replace [abbr] full col)
           col Clean.acronym_map.

(** The whole "Expand acronyms" cell, on the [Comments] column. *)
Definition expand_acronyms (col : list cell) : result (list cell) :=
  col ← apply_acronym_map col;
  plural_count ← str_count_sum ["india pale ales"] col;
  ohai_count ← str_count_sum ["ohai"] col;
  if (0 <? ohai_count)%nat
  then str_replace ["ohai"] "overall hop aroma intensity" col
  else Ok col.

(** The cell on the frame. *)
Definition clean (data : list Clean.row) : result (list Clean.row) :=
  col ← expand_acronyms (map Clean.Comments data);
  Ok (zip_with Clean.set_comments data col).


End Run.

Module Keywords.

(** [hops_texts] and [beer_texts] *)
Definition texts_of (label : string) (data : list item) : list cell :=
  text <$> filter (λ it, cell_eqb_str (sample it) label = true) data.

Section Ngrams.
Context `{NLTK}.

Definition important_words : gset string :=
  {[ "not"; "no"; "very"; "never" ]}.

(** [stop_words -= important_words] *)
Definition stop_words : gset string := stopwords_english ∖ important_words.

(** The body of the loop up to [cleaned_tokens], for one comment. *)
Definition preprocess (text : string) : string :=
  let text := filter_chars (λ c, is_word c || is_space c) text in
  filter_chars (λ c, negb (is_digit c)) text.

Definition keep_token (tok : string) : Prop :=
  (tok ∉ stop_words) ∧ (2 < String.length tok).

Global Instance keep_token_dec tok : Decision (keep_token tok).
Proof. unfold keep_token. apply _. Defined.

Definition cleaned_tokens (text : cell) : result (list string) :=
  text ← py_lower text;
  Ok (let tokens := word_tokenize (preprocess text) in
      lemmatize <$> filter keep_token tokens).

(** [for i in range(len(c) - 1): ....append(f"{c[i]} {c[i+1]}")]; for an
    empty [c] the range is [range(-1)], which is empty like [range(0)]. *)
Definition bigrams_of (c : list string) : result (list string) :=
  for_each (λ i, a ← py_index c i; b ← py_index c (i + 1);
                 Ok (a +:+ " " +:+ b))
           (seq 0 (length c - 1)).

Definition trigrams_of (c : list string) : result (list string) :=
  for_each (λ i, a ← py_index c i; b ← py_index c (i + 1);
                 d ← py_index c (i + 2);
                 Ok (a +:+ " " +:+ b +:+ " " +:+ d))
           (seq 0 (length c - 2)).

(** The three accumulators [*_words], [*_bigrams], [*_trigrams]. *)
Record ngrams := {
  words : list string;
  bigrams : list string;
  trigrams : list string
}.

Definition ngram_step (acc : ngrams) (text : cell) : result ngrams :=
  c ← cleaned_tokens text;
  bs ← bigrams_of c;
  ts ← trigrams_of c;
  Ok {| words := words acc ++ c;
        bigrams := bigrams acc ++ bs;
        trigrams := trigrams acc ++ ts |}.

Definition collect_ngrams (texts : list cell) : result ngrams :=
  for_loop ngram_step {| words := []; bigrams := []; trigrams := [] |} texts.

Record ngram_counts := {
  unigram_counts : gmap string nat;
  bigram_counts : gmap string nat;
  trigram_counts : gmap string nat
}.

(** The n-gram cell of one sample type, up to the three counters. *)
Definition ngram_analysis (label : string) (data : list item)
  : result ngram_counts :=
  g ← collect_ngrams (texts_of label data);
  Ok {| unigram_counts := Counter (words g);
        bigram_counts := Counter (bigrams g);
        trigram_counts := Counter (trigrams g) |}.

Definition hops_ngram_counts := ngram_analysis "Dried Hops".
Definition beer_ngram_counts := ngram_analysis "Beer".

End Ngrams.

Section Pos.
Context `{SpaCy}.

(** [nlp(text)]: spaCy refuses a non-string ("Expected a string, Doc, or
    bytes as input"). *)
Definition py_nlp (c : cell) : result (list token) :=
  match c with
  | Str s => Ok (nlp s)
  | NaN => Raise ValueError
  end.

(** The adjectives and adverbs (lower-cased lemmas) of one partition. *)
Definition pos_step (acc : list string * list string) (text : cell)
  : result (list string * list string) :=
  doc ← py_nlp text;
  Ok (foldl (λ '(adjs, advs) tok,
               if bool_decide (pos_ tok = "ADJ")
               then (adjs ++ [lower (lemma_ tok)], advs)
               else if bool_decide (pos_ tok = "ADV")
               then (adjs, advs ++ [lower (lemma_ tok)])
               else (adjs, advs))
            acc doc).

Definition pos_analysis (label : string) (data : list item)
  : result (gmap string nat * gmap string nat) :=
  '(adjs, advs) ← for_loop pos_step ([], []) (texts_of label data);
  Ok (Counter adjs, Counter advs).

End Pos.

(** "Onion garlic descriptor analysis" *)
Definition onion_garlic_pattern : pattern := ["onion"; "garlic"].

(** [sum(1 for txt in texts if re.search(onion_garlic_pattern, txt, flags=re.I))] *)
Definition count_onion_garlic (texts : list cell) : result nat :=
  for_loop (λ acc txt, m ← py_re_search onion_garlic_pattern txt;
                       Ok (if m : bool then acc + 1 else acc))
           0 texts.

(** The count and the percentage that the cell prints,
    [n / len(texts) * 100]. *)
Definition onion_garlic_report (texts : list cell) : result (nat * Q) :=
  n ← count_onion_garlic texts;
  pct ← py_truediv n (length texts);
  Ok (n, (pct * 100)%Q).

(** "Categorical descriptor analysis" *)
Definition descriptor_categories : list (string * pattern) :=
  [ ("tropical fruits",
     ["tropical"; "pineapple"; "mango"; "passion"; "papaya"; "guava"; "lychee"]);
    ("citrus fruits",
     ["citrus"; "orange"; "grapefruit"; "lemon"; "lime"; "tangerine";
      "mandarin"; "yuzu"; "tangelo"]);
    ("stone fruits", ["stone fruit"; "peach"; "nectarine"; "apricot"; "plum"]);
    ("fruit (general)", ["fruit"; "fruity"]);
    ("onion garlic", ["onion"; "garlic"]);
    ("melons", ["melon"; "watermelon"; "cantaloupe"; "honeydew"]);
    ("berries", ["berry"; "strawberry"; "blackberry"; "blueberry"; "raspberry"]) ].

Record prevalence_row := {
  category : string;
  n_comments : nat;
  pct_comments : Q;
  n_total : nat
}.

(** [sum(bool(re.search(pattern, text, flags=re.I)) for text in texts)] *)
Definition count_matching (p : pattern) (texts : list cell) : result nat :=
  for_loop (λ acc text, m ← py_re_search p text;
                        Ok (acc + (if m : bool then 1 else 0)))
           0 texts.

(** [hops_rows] and [beer_rows]: one row per category, in dict order.
    ([sort_values] then reorders the rows for display.) *)
Definition prevalence_rows (texts : list cell) : result (list prevalence_row) :=
  let total := length texts in
  for_each (λ '(label, pattern),
              n ← count_matching pattern texts;
              pct ← py_truediv n total;
              Ok {| category := label; n_comments := n;
                    pct_comments := pct; n_total := total |})
           descriptor_categories.

Definition prevalence (label : string) (data : list item)
  : result (list prevalence_row) :=
  prevalence_rows (texts_of label data).

Definition hops_prevalence := prevalence "Dried Hops".
Definition beer_prevalence := prevalence "Beer".

(** The row of one category. *)
Definition row_of (label : string) (rows : list prevalence_row)
  : option prevalence_row :=
  head (filter (λ r, category r = label) rows).

End Keywords.

(** ** Notebook 2: what the cells print

    The rankings of the n-gram cell, the "Sample distribution" cell and the
    example of the part-of-speech cell. *)

Module Report.

(** A [Counter] is a dict: its items come in insertion order, and a key is
    inserted when it is first counted. *)
Fixpoint bump (x : string) (items : list (string * nat))
  : list (string * nat) :=
  match items with
  | [] => [(x, 1)]
  | (k, n) :: items' =>
      if bool_decide (k = x) then (k, S n) :: items'
      else (k, n) :: bump x items'
  end.

(** [Counter(l).items()] *)
Definition Counter_items (l : list string) : list (string * nat) :=
  foldl (λ items x, bump x items) [] l.

(** [sorted(items, key=itemgetter(1), reverse=True)] and
    [items.sort(key=lambda x: x[1], reverse=True)]: Python's sort is stable,
    also with [reverse=True], so items of equal count keep their order.  The
    result of a stable sort is determined by its input; it is computed here
    by insertion. *)
Fixpoint insert_desc (x : string * nat) (l : list (string * nat))
  : list (string * nat) :=
  match l with
  | [] => [x]
  | y :: l' =>
      if (y.2 <=? x.2)%nat then x :: y :: l' else y :: insert_desc x l'
  end.

Definition sort_desc (l : list (string * nat)) : list (string * nat) :=
  foldr insert_desc [] l.

(** [Counter(l).most_common(k)], which is
    [heapq.nlargest(k, items, key=itemgetter(1))], documented as
    [sorted(items, key=itemgetter(1), reverse=True)[:k]]. *)
Definition most_common (k : nat) (l : list string) : list (string * nat) :=
  take k (sort_desc (Counter_items l)).

(** [frequent_trigrams]: the trigrams counted more than once, sorted, and
    the ten that the cell prints. *)
Definition frequent_trigrams (trigrams : list string) : list (string * nat) :=
  sort_desc (filter (λ it, 1 < it.2) (Counter_items trigrams)).

Definition top_trigrams (trigrams : list string) : list (string * nat) :=
  take 10 (frequent_trigrams trigrams).

(** The three rankings that the n-gram cell of one sample type prints. *)
Record ranking := {
  top_unigrams : list (string * nat);
  top_bigrams : list (string * nat);
  top_trigram_list : list (string * nat)
}.

Definition ngram_report `{NLTK} (label : string) (data : list item)
  : result ranking :=
  g ← Keywords.collect_ngrams (Keywords.texts_of label data);
  Ok {| top_unigrams := most_common 10 (Keywords.words g);
        top_bigrams := most_common 10 (Keywords.bigrams g);
        top_trigram_list := top_trigrams (Keywords.trigrams g) |}.

(** "Sample distribution": the two partition sizes with their percentages
    of the whole document, [len(hops_texts)/len(data)*100], and the total.
    The percentages are kept as rationals; the cell prints the doubles
    nearest to them, to one decimal. *)
Record distribution := {
  n_hops : nat;
  pct_hops : Q;
  n_beer : nat;
  pct_beer : Q;
  n_all : nat
}.

Definition sample_distribution (data : list item) : result distribution :=
  let hops_texts := Keywords.texts_of "Dried Hops" data in
  let beer_texts := Keywords.texts_of "Beer" data in
  ph ← py_truediv (length hops_texts) (length data);
  pb ← py_truediv (length beer_texts) (length data);
  Ok {| n_hops := length hops_texts; pct_hops := (ph * 100)%Q;
        n_beer := length beer_texts; pct_beer := (pb * 100)%Q;
        n_all := length data |}.

(** The example of the part-of-speech cell: [data[example_idx]], its
    adjectives and its adverbs as [(text, pos_, dep_)]. *)
Definition example_idx : nat := 90.

Definition tagged (tag : string) (doc : list token)
  : list (string * string * string) :=
  (λ t, (tok_text t, pos_ t, dep_ t)) <$> filter (λ t, pos_ t = tag) doc.

Definition pos_example `{SpaCy} (data : list item)
  : result (list (string * string * string)
            * list (string * string * string)) :=
  match data !! example_idx with
  | None => Raise IndexError
  | Some it =>
      Keywords.py_nlp (text it)
      ≫= λ doc : list token, Ok (tagged "ADJ" doc, tagged "ADV" doc)
  end.

End Report.

(** ** Notebook 1: the acronym detection cell

    The cell searches the comments for a run of capitals, optionally
    continued by groups of a slash and capitals, or for capitals, digits and
    optional capitals, between two [\b] and case-sensitively.  The pattern
    has repetition inside alternation, so it is matched the way [re] matches:
    by backtracking, the first alternative and the longest repetition tried
    first. *)

Inductive regex :=
  | Cset (cls : ascii → bool)
  | Seq (r1 r2 : regex)
  | Alt (r1 r2 : regex)
  | Star (r : regex)
  | Bound.

(** [r+] *)
Definition Plus (r : regex) : regex := Seq r (Star r).

(** [rx_match fuel r prev s k]: match [r] at the head of [s], the character
    before being [prev], and hand the position reached to the continuation
    [k]; when [k] refuses, the next way of matching [r] is tried.  A
    repetition goes on only while it consumes text (an iteration that
    matches the empty string ends it), so [fuel] above the length of [s]
    is never used up. *)
Fixpoint rx_match {A} (fuel : nat)
  : regex → option ascii → string → (option ascii → string → option A)
    → option A :=
  fix go (r : regex) (prev : option ascii) (s : string)
         (k : option ascii → string → option A) {struct r} : option A :=
    match r with
    | Cset cls =>
        match s with
        | String c s' => if cls c then k (Some c) s' else None
        | "" => None
        end
    | Seq r1 r2 => go r1 prev s (λ prev' s', go r2 prev' s' k)
    | Alt r1 r2 =>
        match go r1 prev s k with
        | Some x => Some x
        | None => go r2 prev s k
        end
    | Star r1 =>
        match fuel with
        | O => None
        | S fuel' =>
            match go r1 prev s
                    (λ prev' s',
                       if (String.length s' <? String.length s)%nat
                       then rx_match fuel' (Star r1) prev' s' k
                       else None) with
            | Some x => Some x
            | None => k prev s
            end
        end
    | Bound => if boundary prev (head_char s) then k prev s else None
    end.

(** The length of the match of [r] at the head of [s]. *)
Definition rx_match_here (r : regex) (prev : option ascii) (s : string)
  : option nat :=
  rx_match (S (String.length s)) r prev s
           (λ _ rest, Some (String.length s - String.length rest)%nat).

(** [re.search(r, s)] as a truth value. *)
Fixpoint rx_search_from (r : regex) (prev : option ascii) (s : string) : bool :=
  match rx_match_here r prev s with
  | Some _ => true
  | None =>
      match s with
      | "" => false
      | String c s' => rx_search_from r (Some c) s'
      end
  end.

Definition rx_search (r : regex) (s : string) : bool := rx_search_from r None s.

(** [re.findall(r, s)] for a pattern without groups: the leftmost
    non-overlapping matches, scanned left to right.  [skip] counts the
    characters of the current match still to be passed.  (The pattern of
    the cell matches no empty string; an empty match is listed and the scan
    moves on.) *)
Fixpoint findall_from (r : regex) (prev : option ascii) (skip : nat)
    (s : string) : list string :=
  match s with
  | "" =>
      match skip, rx_match_here r prev "" with
      | O, Some _ => [""]
      | _, _ => []
      end
  | String c s' =>
      match skip with
      | S k => findall_from r (Some c) k s'
      | O =>
          match rx_match_here r prev s with
          | Some (S k) => substring 0 (S k) s :: findall_from r (Some c) k s'
          | Some O => "" :: findall_from r (Some c) O s'
          | None => findall_from r (Some c) O s'
          end
      end
  end.

Definition findall (r : regex) (s : string) : list string :=
  findall_from r None 0 s.

(** [needle in s] *)
Fixpoint str_in (needle s : string) : bool :=
  String.prefix needle s
  || match s with
     | "" => false
     | String _ s' => str_in needle s'
     end.

Module Detect.

Definition upper : regex := Cset is_upper.
Definition digit : regex := Cset is_digit.
Definition slash : regex := Cset (λ c, (code c =? 47)%N).

(** [pattern]: [\b(?: [A-Z]+ (?: / [A-Z]+ )* | [A-Z]+ \d+ [A-Z]* )\b],
    written here with spaces between its parts. *)
Definition pattern : regex :=
  Seq Bound
      (Seq (Alt (Seq (Plus upper) (Star (Seq slash (Plus upper))))
                (Seq (Plus upper) (Seq (Plus digit) (Star upper))))
           Bound).

(** [len(match) > 1 or "/" in match or re.search(r"\d", match)] *)
Definition keep (m : string) : bool :=
  (1 <? String.length m)%nat || str_in "/" m || rx_search digit m.

(** The body of the loop over the comments: [pd.notna] guards the search
    ([str(comment)] is [comment] for a string). *)
Definition add_matches (acronyms : gset string) (comment : cell) : gset string :=
  match comment with
  | NaN => acronyms
  | Str s =>
      foldl (λ acronyms m, if keep m then acronyms ∪ {[m]} else acronyms)
            acronyms (findall pattern s)
  end.

(** [acronyms] after the loop. *)
Definition acronyms (comments : list cell) : gset string :=
  foldl add_matches ∅ comments.

End Detect.

(** ** A stand-in for NLTK

    Used to run the notebook on examples.  On text that [preprocess] has
    already stripped of punctuation and digits, [word_tokenize] splits on
    whitespace (the Treebank contractions apart); the lemmatizer leaves a
    word that is already a base form as it is.  The stopword list is an
    excerpt of NLTK's English list. *)

Module Standin.

Fixpoint split_ws (cur : string) (s : string) : list string :=
  match s with
  | "" => if bool_decide (cur = "") then [] else [cur]
  | String c s' =>
      if is_space c
      then (if bool_decide (cur = "") then [] else [cur]) ++ split_ws "" s'
      else split_ws (cur +:+ String c "") s'
  end.

Definition english : gset string :=
  {[ "a"; "an"; "the"; "and"; "but"; "or"; "of"; "in"; "on"; "to"; "is";
     "it"; "this"; "that"; "with"; "as"; "for"; "not"; "no"; "nor"; "very";
     "too"; "so"; "than"; "some"; "such" ]}.

Definition nltk : NLTK := {|
  stopwords_english := english;
  word_tokenize := split_ws "";
  lemmatize := λ w, w
|}.

End Standin.

(** ** Definitions used to state and prove the properties *)

(** The texts of a partition that are strings, when all of them are. *)
Fixpoint strings_of (texts : list cell) : option (list string) :=
  match texts with
  | [] => Some []
  | Str s :: texts' =>
      match strings_of texts' with
      | Some ss => Some (s :: ss)
      | None => None
      end
  | NaN :: _ => None
  end.

(** The rows that the categorical cell builds for a partition of strings. *)
Definition expected_rows (ss : list string) : list Keywords.prevalence_row :=
  (λ '(label, p),
     let n := length (filter (λ s, re_search p s = true) ss) in
     {| Keywords.category := label;
        Keywords.n_comments := n;
        Keywords.pct_comments := Z.of_nat n # Pos.of_nat (length ss);
        Keywords.n_total := length ss |}) <$> Keywords.descriptor_categories.

(** How often [g] occurs in a list of n-grams. *)
Definition occurrences (g : string) (l : list string) : nat :=
  length (filter (λ y, y = g) l).

(** One step of [Counter]. *)
Definition count_step (m : gmap string nat) (x : string) : gmap string nat :=
  <[x := S (default 0 (m !! x))]> m.

Section Contribution.
Context `{NLTK}.

(** What one string comment contributes: its token sequence [c], and the
    n-grams [c[i] c[i+1]] and [c[i] c[i+1] c[i+2]] of the positions of
    [c]. *)
Definition tokens_of (s : string) : list string :=
  lemmatize <$> filter Keywords.keep_token
                  (word_tokenize (Keywords.preprocess (lower s))).

Definition pairs_of (c : list string) : list string :=
  (λ i, default "" (c !! i) +:+ " " +:+ default "" (c !! (i + 1)))
    <$> seq 0 (length c - 1).

Definition triples_of (c : list string) : list string :=
  (λ i, default "" (c !! i) +:+ " " +:+ default "" (c !! (i + 1))
        +:+ " " +:+ default "" (c !! (i + 2)))
    <$> seq 0 (length c - 2).

End Contribution.

(** The local loop of [encode] over the remaining items of an array. *)
Definition encode_tail (level : nat) : list Json.value → string :=
  fix items (xs : list Json.value) : string :=
    match xs with
    | [] => Json.newline_indent level +:+ "]"
    | y :: ys =>
        "," +:+ Json.newline_indent (S level) +:+ Json.encode (S level) y
        +:+ items ys
    end.

(** The rules of the cell in the order in which they are applied: the
    acronym map, then the ["ohai"] rule. *)
Definition rules : list (string * string) :=
  Clean.acronym_map ++ [("ohai", "overall hop aroma intensity")].

(** What the cell does to one string comment. *)
Definition normalize_str (s : string) : string :=
  foldl (λ s '(abbr, full), re_sub [abbr] full s) s rules.

Definition normalize_cell (c : cell) : cell :=
  match c with
  | Str s => Str (normalize_str s)
  | NaN => NaN
  end.

(** [mlb lit last s]: the literal matches at the head of [s] and a [\b]
    follows; [hit] adds the opening [\b]. *)
Definition mlb (lit : string) (last : option ascii) (s : string) : bool :=
  match match_literal lit last s with
  | Some (l, rest) => boundary l (head_char rest)
  | None => false
  end.

Definition hit (lit : string) (prev : option ascii) (s : string) : bool :=
  boundary prev (head_char s) && mlb lit prev s.

Fixpoint last_of (d : ascii) (s : string) : ascii :=
  match s with
  | "" => d
  | String c s' => last_of c s'
  end.

(** Checks on a rule [(K, F)] and a key [K'], by computation on the three
    strings.  [probe_ok lit u lastw]: the literal, started at the head of
    [u ++ t], fails whatever [t] is: it meets a different character inside
    [u], or ends strictly inside [u] where no [\b] follows. *)
Fixpoint probe_ok (lit u : string) (lastw : bool) : bool :=
  match lit with
  | "" =>
      match u with
      | "" => false
      | String c _ => negb (xorb lastw (is_word c))
      end
  | String a lit' =>
      match u with
      | "" => false
      | String c u' =>
          if bool_decide (lower_char a = lower_char c)
          then probe_ok lit' u' (is_word c)
          else true
      end
  end.

(** No match of [K'] starts inside [u]. *)
Fixpoint inside_ok (K' : string) (prevw : bool) (u : string) : bool :=
  match u with
  | "" => true
  | String c u' =>
      (negb (xorb prevw (is_word c)) || probe_ok K' u false)
      && inside_ok K' (is_word c) u'
  end.

(** No match of [K'] that started before a replacement runs into it: the
    replacement follows a non-word character, so only the suffixes of [K']
    behind a non-word character matter. *)
Fixpoint straddle_ok (F : string) (pk : ascii) (lit : string) : bool :=
  match lit with
  | "" => true
  | String a lit' =>
      (is_word pk || probe_ok lit F false) && straddle_ok F a lit'
  end.

Definition compat (K F K' : string) : bool :=
  match K, F, K' with
  | String k0 K1, String f0 F1, String k0' K1' =>
      is_word k0 && is_word (last_of k0 K1)
      && is_word f0 && is_word (last_of f0 F1)
      && inside_ok K' false F && straddle_ok F k0' K1'
  | _, _, _ => false
  end.

Definition all_compat (rs : list (string * string)) : bool :=
  forallb (λ '(k, f), forallb (λ '(k', _), compat k f k') rs) rs.

(** One rule applied to one string. *)
Definition rule_step (s : string) (r : string * string) : string :=
  re_sub [r.1] r.2 s.

(** The distinct elements of a list in the order of their first
    occurrence. *)
Fixpoint first_seen (l : list string) : list string :=
  match l with
  | [] => []
  | x :: l' => x :: filter (λ y, y ≠ x) (first_seen l')
  end.

(** [a] may stand before [b] in a ranking: its count is not smaller. *)
Definition by_count_desc (a b : string * nat) : Prop := (b.2 ≤ a.2)%nat.

(** Every character of a string satisfies [P]. *)
Fixpoint all_chars (P : ascii → bool) (s : string) : bool :=
  match s with
  | "" => true
  | String c s' => P c && all_chars P s'
  end.

(** The plural that the special case of the cell counts. *)
Definition plural : string := "india pale ales".

(** No match of the literal, or of the rest of a literal begun earlier,
    runs into the text [u], whatever follows [u]. *)
Fixpoint suffixes_ok (u : string) (lit : string) : bool :=
  match lit with
  | "" => true
  | String a lit' => probe_ok lit u false && suffixes_ok u lit'
  end.

(** A key can neither match inside [u] nor across its borders. *)
Definition untouched_by (u : string) (K : string) : bool :=
  match K with
  | "" => false
  | String _ _ =>
      suffixes_ok u K && inside_ok K true u && inside_ok K false u
  end.

(** What a rule does to the text behind an occurrence of the plural. *)
Definition after_plural (post : string) : string :=
  foldl (λ t r, sub_from [r.1] r.2 (Some "s"%char) 0 t) post rules.

(** The texts on which the model of [str] and [re] is the program: those
    of ASCII characters.  [is_word], [is_digit], [is_space], [boundary] and
    [lower_char] are the classes and the case folding of Python on ASCII
    characters; on other characters Python follows the Unicode tables. *)
Definition ascii_char (c : ascii) : bool := (code c <? 128)%N.

Definition ascii_text (s : string) : Prop := all_chars ascii_char s = true.

Definition ascii_cell (c : cell) : Prop :=
  match c with
  | Str s => ascii_text s
  | NaN => True
  end.

(** [text.lower()] on the string cells of a column. *)
Definition lower_cell (c : cell) : cell :=
  match c with
  | Str s => Str (lower s)
  | NaN => NaN
  end.

(** Each rule has a non-empty key, and its replacement is left as it is by
    the rules that come after it. *)
Fixpoint stable_after (rs : list (string * string)) : bool :=
  match rs with
  | [] => true
  | (k, f) :: rs' =>
      negb (bool_decide (k = "")) && bool_decide (foldl rule_step f rs' = f)
      && stable_after rs'
  end.

(** The first rule whose key is the given word, case ignored. *)
Definition rule_for (s : string) (rs : list (string * string))
  : option (string * string) :=
  find (λ r, bool_decide (lower r.1 = lower s)) rs.

(** The character before the position reached after [w]. *)
Definition last_opt (prev : option ascii) (w : string) : option ascii :=
  match w with
  | "" => prev
  | String c w' => Some (last_of c w')
  end.

(** [matches r prev w rest]: the expression [r] can match the text [w]
    when [prev] stands before it and [rest] follows it. *)
Inductive matches : regex → option ascii → string → string → Prop :=
  | matches_cset cls prev c rest :
      cls c = true → matches (Cset cls) prev (String c "") rest
  | matches_seq r1 r2 prev w1 w2 rest :
      matches r1 prev w1 (w2 +:+ rest) →
      matches r2 (last_opt prev w1) w2 rest →
      matches (Seq r1 r2) prev (w1 +:+ w2) rest
  | matches_alt_l r1 r2 prev w rest :
      matches r1 prev w rest → matches (Alt r1 r2) prev w rest
  | matches_alt_r r1 r2 prev w rest :
      matches r2 prev w rest → matches (Alt r1 r2) prev w rest
  | matches_star_nil r prev rest : matches (Star r) prev "" rest
  | matches_star_cons r prev w1 w2 rest :
      matches r prev w1 (w2 +:+ rest) →
      matches (Star r) (last_opt prev w1) w2 rest →
      matches (Star r) prev (w1 +:+ w2) rest
  | matches_bound prev rest :
      boundary prev (head_char rest) = true → matches Bound prev "" rest.

(** The characters that the pattern of the detection cell can consume. *)
Definition acronym_char (c : ascii) : bool :=
  is_upper c || is_digit c || (code c =? 47)%N.

(** The tokens of a document that carry a part-of-speech tag and a
    lemma, case ignored. *)
Definition tagged_as (tag g : string) (doc : list token) : list token :=
  filter (λ t, pos_ t = tag ∧ lower (lemma_ t) = g) doc.

(** * Properties *)

(** ** Loops and comprehensions *)

Lemma strings_of_Str (ss : list string) : strings_of (Str <$> ss) = Some ss.
Proof.
  induction ss as [|s ss IH]; [done|].
  rewrite fmap_cons. cbn [strings_of]. by rewrite IH.
Qed.

Lemma strings_of_Some texts ss : strings_of texts = Some ss → texts = Str <$> ss.
Proof.
  revert ss. induction texts as [|[s|] texts IH]; intros ss Hs; simpl in *.
  - by inversion Hs.
  - destruct (strings_of texts) as [ss'|]; [|done].
    inversion Hs; subst. simpl. f_equal. by apply IH.
  - done.
Qed.

Lemma strings_of_length texts ss : strings_of texts = Some ss → length ss = length texts.
Proof. intros ->%strings_of_Some. by rewrite length_fmap. Qed.

Lemma count_matching_from p texts acc :
  for_loop (λ acc text, m ← py_re_search p text;
                        Ok (acc + (if m : bool then 1 else 0))) acc texts
  = match strings_of texts with
    | Some ss => Ok (acc + length (filter (λ s, re_search p s = true) ss))
    | None => Raise TypeError
    end.
Proof.
  revert acc. induction texts as [|[s|] texts IH]; intros acc; simpl.
  - f_equal. lia.
  - rewrite IH. destruct (strings_of texts) as [ss|]; [|done].
    f_equal. rewrite filter_cons. destruct (re_search p s); simpl; lia.
  - done.
Qed.

Lemma count_matching_spec p texts :
  Keywords.count_matching p texts
  = match strings_of texts with
    | Some ss => Ok (length (filter (λ s, re_search p s = true) ss))
    | None => Raise TypeError
    end.
Proof. unfold Keywords.count_matching. by rewrite count_matching_from. Qed.

Lemma count_onion_garlic_from texts acc :
  for_loop (λ acc txt, m ← py_re_search Keywords.onion_garlic_pattern txt;
                       Ok (if m : bool then acc + 1 else acc)) acc texts
  = match strings_of texts with
    | Some ss =>
        Ok (acc + length (filter (λ s, re_search Keywords.onion_garlic_pattern s = true) ss))
    | None => Raise TypeError
    end.
Proof.
  revert acc. induction texts as [|[s|] texts IH]; intros acc; simpl.
  - f_equal. lia.
  - destruct (re_search Keywords.onion_garlic_pattern s) eqn:Hm; simpl;
      rewrite IH; destruct (strings_of texts) as [ss|]; try done;
      f_equal; rewrite filter_cons, Hm; simpl; lia.
  - done.
Qed.

Lemma count_onion_garlic_spec texts :
  Keywords.count_onion_garlic texts
  = match strings_of texts with
    | Some ss =>
        Ok (length (filter (λ s, re_search Keywords.onion_garlic_pattern s = true) ss))
    | None => Raise TypeError
    end.
Proof. unfold Keywords.count_onion_garlic. by rewrite count_onion_garlic_from. Qed.

Lemma for_each_Ok {A B} (f : A → result B) (g : A → B) (l : list A) :
  (∀ x, x ∈ l → f x = Ok (g x)) → for_each f l = Ok (g <$> l).
Proof.
  induction l as [|x l IH]; intros Hf; [done|].
  cbn [for_each]. rewrite (Hf x) by apply list_elem_of_here.
  cbn. rewrite IH; [done|]. intros y Hy. apply Hf. by apply list_elem_of_further.
Qed.

Lemma py_truediv_pos n total :
  total ≠ 0 → py_truediv n total = Ok (Z.of_nat n # Pos.of_nat total).
Proof. by destruct total. Qed.

(** ** Prevalence percentages (C1) *)

Lemma prevalence_rows_nonempty (ss : list string) :
  ss ≠ [] → Keywords.prevalence_rows (Str <$> ss) = Ok (expected_rows ss).
Proof.
  intros Hne. unfold Keywords.prevalence_rows, expected_rows.
  apply for_each_Ok. intros [label p] _.
  rewrite count_matching_spec, strings_of_Str. cbn.
  rewrite length_fmap, py_truediv_pos; [done|].
  destruct ss; [done|]. simpl. lia.
Qed.

Lemma prevalence_rows_NaN texts :
  strings_of texts = None → Keywords.prevalence_rows texts = Raise TypeError.
Proof.
  intros Hs. unfold Keywords.prevalence_rows, Keywords.descriptor_categories.
  cbn [for_each]. rewrite !count_matching_spec, Hs. reflexivity.
Qed.

(** ** Protected words (C4) *)

Lemma keep_token_length `{NLTK} tok :
  Keywords.keep_token tok → 2 < String.length tok.
Proof. by intros [_ ?]. Qed.

(** No token of two characters or fewer passes the filter, whatever the
    stopword list is. *)
Lemma short_token_dropped `{NLTK} (tokens : list string) tok :
  (String.length tok ≤ 2)%nat → tok ∉ filter Keywords.keep_token tokens.
Proof.
  intros Hlen [Hk%keep_token_length _]%list_elem_of_filter. lia.
Qed.

(** ** Counters *)

Lemma Counter_unfold l : Counter l = foldl count_step ∅ l.
Proof. reflexivity. Qed.

Lemma count_step_comm m x y :
  count_step (count_step m x) y = count_step (count_step m y) x.
Proof.
  unfold count_step. apply map_eq. intros k.
  destruct (decide (x = y)) as [->|Hxy]; [done|].
  destruct (decide (k = x)) as [Hkx|Hkx]; [subst k|];
    (destruct (decide (k = y)) as [Hky|Hky] || destruct (decide (x = y)) as [Hky|Hky]);
    try congruence; try subst k;
    repeat first [rewrite lookup_insert_eq
                 | rewrite lookup_insert_ne by congruence];
    done.
Qed.

Lemma foldl_count_step_perm l l' m :
  l ≡ₚ l' → foldl count_step m l = foldl count_step m l'.
Proof.
  intros Hp. revert m.
  induction Hp as [|x l l' _ IH|x y l|l1 l2 l3 _ IH1 _ IH2]; intros m; simpl.
  - done.
  - apply IH.
  - by rewrite count_step_comm.
  - by rewrite IH1, IH2.
Qed.

Lemma Counter_perm l l' : l ≡ₚ l' → Counter l = Counter l'.
Proof. rewrite !Counter_unfold. apply foldl_count_step_perm. Qed.

Lemma foldl_count_step_is_Some l m x :
  is_Some (foldl count_step m l !! x) ↔ is_Some (m !! x) ∨ x ∈ l.
Proof.
  revert m. induction l as [|y l IH]; intros m; simpl.
  - rewrite elem_of_nil. tauto.
  - rewrite IH, elem_of_cons. unfold count_step.
    destruct (decide (x = y)) as [->|Hxy].
    + rewrite lookup_insert_eq. split; [auto|]. intros _. left. eauto.
    + rewrite lookup_insert_ne by done. tauto.
Qed.

Lemma Counter_is_Some l x : is_Some (Counter l !! x) ↔ x ∈ l.
Proof.
  rewrite Counter_unfold, foldl_count_step_is_Some, lookup_empty, is_Some_alt.
  tauto.
Qed.

Lemma occurrences_cons g y l :
  occurrences g (y :: l)
  = (if bool_decide (y = g) then 1 else 0) + occurrences g l.
Proof.
  unfold occurrences. rewrite filter_cons.
  case_bool_decide; [rewrite decide_True by done|rewrite decide_False by done];
    reflexivity.
Qed.

Lemma occurrences_app g l l' :
  occurrences g (l ++ l') = occurrences g l + occurrences g l'.
Proof. unfold occurrences. by rewrite filter_app, length_app. Qed.

Lemma occurrences_concat g (ls : list (list string)) :
  occurrences g (concat ls) = sum_list (occurrences g <$> ls).
Proof.
  induction ls as [|l ls IH]; [done|].
  cbn [concat]. rewrite occurrences_app, IH. reflexivity.
Qed.

Lemma foldl_count_step_lookup l : ∀ m g,
  default 0 (foldl count_step m l !! g) = default 0 (m !! g) + occurrences g l.
Proof.
  induction l as [|y l IH]; intros m g; cbn [foldl].
  - unfold occurrences. simpl. lia.
  - rewrite IH, occurrences_cons. unfold count_step.
    case_bool_decide as Hy.
    + subst y. rewrite lookup_insert_eq. simpl. lia.
    + rewrite lookup_insert_ne by done. lia.
Qed.

(** A counter holds, for each n-gram, the number of its occurrences. *)
Lemma Counter_lookup l g : default 0 (Counter l !! g) = occurrences g l.
Proof.
  rewrite Counter_unfold, foldl_count_step_lookup, lookup_empty. reflexivity.
Qed.

(** ** N-gram collection *)

Section NgramFacts.
Context `{NLTK}.

Lemma cleaned_tokens_Str s : Keywords.cleaned_tokens (Str s) = Ok (tokens_of s).
Proof. reflexivity. Qed.

Lemma py_index_lt (c : list string) i :
  i < length c → py_index c i = Ok (default "" (c !! i)).
Proof.
  intros Hi. unfold py_index.
  destruct (lookup_lt_is_Some_2 c i Hi) as [x ->]. done.
Qed.

(** The index loops never leave the token list. *)
Lemma bigrams_of_Ok c : Keywords.bigrams_of c = Ok (pairs_of c).
Proof.
  unfold Keywords.bigrams_of, pairs_of. apply for_each_Ok.
  intros i [_ Hi]%elem_of_seq.
  rewrite !py_index_lt by lia. done.
Qed.

Lemma trigrams_of_Ok c : Keywords.trigrams_of c = Ok (triples_of c).
Proof.
  unfold Keywords.trigrams_of, triples_of. apply for_each_Ok.
  intros i [_ Hi]%elem_of_seq.
  rewrite !py_index_lt by lia. done.
Qed.

Lemma ngram_step_Str acc s :
  Keywords.ngram_step acc (Str s)
  = Ok {| Keywords.words := Keywords.words acc ++ tokens_of s;
          Keywords.bigrams := Keywords.bigrams acc ++ pairs_of (tokens_of s);
          Keywords.trigrams :=
            Keywords.trigrams acc ++ triples_of (tokens_of s) |}.
Proof.
  unfold Keywords.ngram_step. rewrite cleaned_tokens_Str. cbn [mbind result_bind].
  rewrite bigrams_of_Ok, trigrams_of_Ok. reflexivity.
Qed.

Lemma for_loop_cons {S A} (body : S → A → result S) st x l :
  for_loop body st (x :: l) = body st x ≫= λ st', for_loop body st' l.
Proof. reflexivity. Qed.

Lemma collect_from acc texts :
  for_loop Keywords.ngram_step acc texts
  = match strings_of texts with
    | Some ss =>
        Ok {| Keywords.words :=
                Keywords.words acc ++ concat (tokens_of <$> ss);
              Keywords.bigrams :=
                Keywords.bigrams acc
                ++ concat ((λ s, pairs_of (tokens_of s)) <$> ss);
              Keywords.trigrams :=
                Keywords.trigrams acc
                ++ concat ((λ s, triples_of (tokens_of s)) <$> ss) |}
    | None => Raise AttributeError
    end.
Proof.
  revert acc. induction texts as [|[s|] texts IH]; intros acc.
  - cbn. rewrite !app_nil_r. by destruct acc.
  - rewrite for_loop_cons, ngram_step_Str. cbn [mbind result_bind strings_of].
    rewrite IH. destruct (strings_of texts) as [ss|]; [|done].
    cbn. by rewrite !app_assoc.
  - done.
Qed.

Lemma collect_ngrams_spec texts :
  Keywords.collect_ngrams texts
  = match strings_of texts with
    | Some ss =>
        Ok {| Keywords.words := concat (tokens_of <$> ss);
              Keywords.bigrams := concat ((λ s, pairs_of (tokens_of s)) <$> ss);
              Keywords.trigrams :=
                concat ((λ s, triples_of (tokens_of s)) <$> ss) |}
    | None => Raise AttributeError
    end.
Proof. unfold Keywords.collect_ngrams. by rewrite collect_from. Qed.

End NgramFacts.

(** ** Reordering the rows (C7) *)

Lemma strings_of_None texts : strings_of texts = None ↔ NaN ∈ texts.
Proof.
  induction texts as [|[s|] texts IH]; simpl.
  - split; [done|by intros ?%elem_of_nil].
  - rewrite elem_of_cons. split.
    + destruct (strings_of texts); [done|]. intros _. right. by apply IH.
    + intros [?|Hin]; [done|]. apply IH in Hin. by rewrite Hin.
  - rewrite elem_of_cons. tauto.
Qed.

Lemma strings_of_perm texts texts' :
  texts ≡ₚ texts' →
  match strings_of texts, strings_of texts' with
  | Some ss, Some ss' => ss ≡ₚ ss'
  | None, None => True
  | _, _ => False
  end.
Proof.
  induction 1 as [|x l l' _ IH|x y l|l1 l2 l3 _ IH1 _ IH2].
  - simpl. constructor.
  - destruct x; simpl; [|done].
    destruct (strings_of l), (strings_of l'); try done. by constructor.
  - destruct x, y; simpl; try done; destruct (strings_of l); try done.
    apply perm_swap.
  - destruct (strings_of l1), (strings_of l2), (strings_of l3); try done.
    by etrans.
Qed.

Lemma concat_perm {A} (l l' : list (list A)) :
  l ≡ₚ l' → concat l ≡ₚ concat l'.
Proof.
  induction 1 as [|x l l' _ IH|x y l|l1 l2 l3 _ IH1 _ IH2]; simpl.
  - done.
  - by rewrite IH.
  - rewrite !app_assoc. by rewrite (Permutation_app_comm y x).
  - by etrans.
Qed.

Lemma elem_of_concat {A} (x : A) (ls : list (list A)) :
  x ∈ concat ls → ∃ l, l ∈ ls ∧ x ∈ l.
Proof.
  induction ls as [|l ls IH]; simpl.
  - by intros ?%elem_of_nil.
  - intros [Hx|Hx]%elem_of_app.
    + exists l. split; [apply list_elem_of_here|done].
    + destruct (IH Hx) as (l' & Hl' & Hx'). exists l'.
      split; [by apply list_elem_of_further|done].
Qed.

Lemma texts_of_perm label data data' :
  data ≡ₚ data' → Keywords.texts_of label data ≡ₚ Keywords.texts_of label data'.
Proof. intros Hp. unfold Keywords.texts_of. by rewrite Hp. Qed.

Lemma expected_rows_perm ss ss' : ss ≡ₚ ss' → expected_rows ss = expected_rows ss'.
Proof.
  intros Hp. unfold expected_rows. apply list_fmap_ext.
  intros _ [label p] _. cbn.
  assert (length (filter (λ s, re_search p s = true) ss)
          = length (filter (λ s, re_search p s = true) ss')) as ->
    by (by rewrite Hp).
  by rewrite (Permutation_length Hp).
Qed.

Lemma prevalence_rows_perm texts texts' :
  texts ≡ₚ texts' → Keywords.prevalence_rows texts = Keywords.prevalence_rows texts'.
Proof.
  intros Hp. pose proof (strings_of_perm _ _ Hp) as Hs.
  destruct (strings_of texts) as [ss|] eqn:E,
           (strings_of texts') as [ss'|] eqn:E'; try done.
  - apply strings_of_Some in E, E'. subst.
    destruct ss as [|s ss].
    + apply Permutation_nil in Hs. by subst.
    + assert (ss' ≠ []) as Hne'.
      { intros ->. by apply Permutation_sym, Permutation_nil in Hs. }
      rewrite !prevalence_rows_nonempty by done.
      f_equal. by apply expected_rows_perm.
  - by rewrite !prevalence_rows_NaN.
Qed.

(** ** The interchange document (C6) *)

Lemma append_cons (x : ascii) (a b : string) :
  String x a +:+ b = String x (a +:+ b).
Proof. reflexivity. Qed.

Lemma append_assoc (a b c : string) : (a +:+ b) +:+ c = a +:+ (b +:+ c).
Proof.
  induction a as [|x a IH]; [done|]. by rewrite !append_cons, IH.
Qed.

Lemma length_append (a b : string) :
  String.length (a +:+ b) = String.length a + String.length b.
Proof.
  induction a as [|x a IH]; [done|]. rewrite append_cons. simpl. by rewrite IH.
Qed.

Module JsonFacts.
Import Json.
#[local] Arguments String.append : simpl nomatch.

(** Decoding one escaped character gives the character back. *)
Lemma scan_escape_char c t :
  scan_string (escape_char c +:+ t)
  = match scan_string t with
    | Some (r, rest) => Some (String c r, rest)
    | None => None
    end.
Proof.
  destruct c as [[] [] [] [] [] [] [] []]; reflexivity.
Qed.

Lemma scan_escape s rest :
  scan_string (escape s +:+ String dquote rest) = Some (s, rest).
Proof.
  induction s as [|c s IH]; [reflexivity|].
  cbn [escape]. rewrite append_assoc, scan_escape_char, IH. reflexivity.
Qed.

Lemma encode_basestring_app s rest :
  encode_basestring s +:+ rest = String dquote (escape s +:+ String dquote rest).
Proof. unfold encode_basestring. cbn. by rewrite append_assoc. Qed.

Lemma encode_arr_cons level x xs :
  encode level (JArr (x :: xs))
  = "[" +:+ newline_indent (S level) +:+ encode (S level) x
    +:+ encode_tail level xs.
Proof. reflexivity. Qed.

Lemma parse_cell fuel level c rest :
  parse_value (S fuel) (encode level (cell_to_json c) +:+ rest)
  = Some (cell_to_json c, rest).
Proof.
  destruct c as [s|]; cbn [cell_to_json encode].
  - rewrite encode_basestring_app. cbn. by rewrite scan_escape.
  - reflexivity.
Qed.

Lemma skip_ws_spaces n s : skip_ws (spaces n +:+ s) = skip_ws s.
Proof. induction n as [|n IH]; [done|]. cbn. exact IH. Qed.

Lemma skip_ws_newline_indent level s :
  skip_ws (newline_indent level +:+ s) = skip_ws s.
Proof. unfold newline_indent. cbn. apply skip_ws_spaces. Qed.

Lemma skip_ws_basestring s rest :
  skip_ws (encode_basestring s +:+ rest) = encode_basestring s +:+ rest.
Proof. reflexivity. Qed.

(** One record of the document. *)
Lemma encode_item level it :
  encode level (item_to_json it)
  = "{" +:+ newline_indent (S level) +:+ encode_basestring "sample" +:+ ": "
    +:+ encode (S level) (cell_to_json (sample it)) +:+ ","
    +:+ newline_indent (S level) +:+ encode_basestring "text" +:+ ": "
    +:+ encode (S level) (cell_to_json (text it))
    +:+ newline_indent level +:+ "}".
Proof. reflexivity. Qed.

Lemma skip_ws_item level it rest :
  skip_ws (encode level (item_to_json it) +:+ rest)
  = encode level (item_to_json it) +:+ rest.
Proof. reflexivity. Qed.

(** One step of [JSONObject], [JSONArray] and [scan_once]. *)
Lemma parse_members_step fuel k body :
  parse_members (S fuel) (encode_basestring k +:+ ": " +:+ body)
  = match parse_value fuel (skip_ws body) with
    | Some (v, rest2) =>
        match skip_ws rest2 with
        | String "}" rest3 => Some ([(k, v)], rest3)
        | String "," rest3 =>
            match parse_members fuel (skip_ws rest3) with
            | Some (ms, rest4) => Some ((k, v) :: ms, rest4)
            | None => None
            end
        | _ => None
        end
    | None => None
    end.
Proof.
  rewrite encode_basestring_app. cbn [parse_members].
  rewrite bool_decide_eq_true_2 by done. rewrite scan_escape.
  reflexivity.
Qed.

Lemma parse_items_step fuel s :
  parse_items (S fuel) s
  = match parse_value fuel s with
    | Some (v, rest) =>
        match skip_ws rest with
        | String "]" rest' => Some ([v], rest')
        | String "," rest' =>
            match parse_items fuel (skip_ws rest') with
            | Some (vs, rest'') => Some (v :: vs, rest'')
            | None => None
            end
        | _ => None
        end
    | None => None
    end.
Proof. reflexivity. Qed.

Lemma parse_object_step fuel level k body :
  parse_value (S fuel)
    ("{" +:+ newline_indent level +:+ encode_basestring k +:+ body)
  = match parse_members fuel (encode_basestring k +:+ body) with
    | Some (ms, rest) => Some (JObj ms, rest)
    | None => None
    end.
Proof.
  change ("{" +:+ ?s) with (String "{" s). cbn [parse_value].
  rewrite !bool_decide_eq_false_2 by done.
  rewrite bool_decide_eq_true_2 by done.
  rewrite skip_ws_newline_indent, skip_ws_basestring, encode_basestring_app.
  reflexivity.
Qed.

Lemma parse_array_step fuel level it body :
  parse_value (S fuel)
    ("[" +:+ newline_indent level +:+ encode 1 (item_to_json it) +:+ body)
  = match parse_items fuel (encode 1 (item_to_json it) +:+ body) with
    | Some (vs, rest) => Some (JArr vs, rest)
    | None => None
    end.
Proof.
  change ("[" +:+ ?s) with (String "[" s). cbn [parse_value].
  rewrite !bool_decide_eq_false_2 by done.
  rewrite bool_decide_eq_true_2 by done.
  rewrite skip_ws_newline_indent, skip_ws_item.
  rewrite encode_item, !append_assoc.
  reflexivity.
Qed.

Lemma skip_ws_comma s : skip_ws ("," +:+ s) = String "," s.
Proof. reflexivity. Qed.

Lemma skip_ws_close_brace s : skip_ws ("}" +:+ s) = String "}" s.
Proof. reflexivity. Qed.

Lemma skip_ws_close_bracket s : skip_ws ("]" +:+ s) = String "]" s.
Proof. reflexivity. Qed.

Lemma skip_ws_cell level c rest :
  skip_ws (encode level (cell_to_json c) +:+ rest)
  = encode level (cell_to_json c) +:+ rest.
Proof. destruct c; reflexivity. Qed.

Lemma parse_item fuel level it rest :
  parse_value (S (S (S (S fuel)))) (encode level (item_to_json it) +:+ rest)
  = Some (item_to_json it, rest).
Proof.
  rewrite encode_item, !append_assoc.
  rewrite parse_object_step, parse_members_step.
  rewrite skip_ws_cell, parse_cell.
  rewrite skip_ws_comma, skip_ws_newline_indent, skip_ws_basestring.
  rewrite parse_members_step, skip_ws_cell, parse_cell.
  rewrite skip_ws_newline_indent, skip_ws_close_brace.
  reflexivity.
Qed.

Lemma parse_items_records (rs : list item) : ∀ fuel it rest,
  (length rs + 5 ≤ fuel)%nat →
  parse_items fuel
    (encode 1 (item_to_json it) +:+ encode_tail 0 (item_to_json <$> rs) +:+ rest)
  = Some (item_to_json it :: (item_to_json <$> rs), rest).
Proof.
  induction rs as [|r rs IH]; intros fuel it rest Hfuel.
  - destruct fuel as [|[|[|[|[|fuel]]]]]; try (simpl in Hfuel; lia).
    rewrite parse_items_step, parse_item.
    change (encode_tail 0 (item_to_json <$> [])) with (newline_indent 0 +:+ "]").
    rewrite append_assoc, skip_ws_newline_indent, skip_ws_close_bracket.
    reflexivity.
  - destruct fuel as [|[|[|[|[|fuel]]]]]; try (simpl in Hfuel; lia).
    rewrite parse_items_step, parse_item.
    rewrite fmap_cons.
    change (encode_tail 0 (item_to_json r :: (item_to_json <$> rs)))
      with ("," +:+ newline_indent 1 +:+ encode 1 (item_to_json r)
            +:+ encode_tail 0 (item_to_json <$> rs)).
    rewrite !append_assoc, skip_ws_comma, skip_ws_newline_indent, skip_ws_item.
    rewrite IH by (simpl in Hfuel; lia). reflexivity.
Qed.

Lemma length_encode_tail level xs :
  (length xs ≤ String.length (encode_tail level xs))%nat.
Proof.
  induction xs as [|x xs IH]; [simpl; lia|].
  change (encode_tail level (x :: xs))
    with ("," +:+ newline_indent (S level) +:+ encode (S level) x
          +:+ encode_tail level xs).
  rewrite !length_append. simpl. lia.
Qed.

Lemma append_nil_r (s : string) : s +:+ "" = s.
Proof. induction s as [|c s IH]; [done|]. by rewrite append_cons, IH. Qed.

Lemma loads_records (rs : list item) :
  loads (dumps (records_to_json rs)) = Some (records_to_json rs).
Proof.
  destruct rs as [|it rs]; [reflexivity|].
  unfold loads, dumps, records_to_json. rewrite fmap_cons, encode_arr_cons.
  set (doc := "[" +:+ newline_indent 1 +:+ encode 1 (item_to_json it)
              +:+ encode_tail 0 (item_to_json <$> rs)).
  assert (skip_ws doc = doc) as -> by reflexivity.
  assert (5 + length rs < String.length doc) as Hlen.
  { unfold doc. rewrite !length_append.
    pose proof (length_encode_tail 0 (item_to_json <$> rs)) as Hl.
    rewrite length_fmap in Hl. simpl. lia. }
  destruct (String.length doc) as [|fuel]; [lia|].
  unfold doc.
  rewrite <- (append_nil_r (encode_tail 0 (item_to_json <$> rs))).
  rewrite parse_array_step, parse_items_records by lia.
  reflexivity.
Qed.

End JsonFacts.

Lemma items_of_json_records (rs : list item) :
  items_of_json (item_to_json <$> rs) = Some rs.
Proof.
  induction rs as [|[[s|] [t|]] rs IH]; [done|..];
    rewrite fmap_cons; cbn [items_of_json]; rewrite IH; reflexivity.
Qed.

(** ** The acronym normalizer is idempotent (C5) *)

Module SubFacts.
#[local] Arguments String.append : simpl nomatch.

Lemma is_word_lower c : is_word (lower_char c) = is_word c.
Proof. destruct c as [[] [] [] [] [] [] [] []]; reflexivity. Qed.

Lemma ci_eq_word a c : lower_char a = lower_char c → is_word a = is_word c.
Proof. intros E. rewrite <- (is_word_lower a), E. apply is_word_lower. Qed.

Lemma match_here_single lit prev s :
  match_here [lit] prev s = if hit lit prev s then Some (String.length lit) else None.
Proof.
  unfold hit, mlb. cbn [match_here]. unfold match_alt.
  destruct (boundary prev (head_char s)); [|done]. cbn [andb].
  destruct (match_literal lit prev s) as [[l rest]|]; [|done].
  by destruct (boundary l (head_char rest)).
Qed.

Lemma mlb_nil last s : mlb "" last s = boundary last (head_char s).
Proof. reflexivity. Qed.

Lemma mlb_cons a lit last c s :
  mlb (String a lit) last (String c s)
  = bool_decide (lower_char a = lower_char c) && mlb lit (Some c) s.
Proof. unfold mlb. cbn [match_literal]. by case_bool_decide. Qed.

Lemma mlb_cons_nil a lit last : mlb (String a lit) last "" = false.
Proof. reflexivity. Qed.

Lemma search_nil lit prev : search_from [lit] prev "" = hit lit prev "".
Proof.
  cbn [search_from]. rewrite match_here_single. by destruct (hit lit prev "").
Qed.

Lemma search_cons lit prev c s :
  search_from [lit] prev (String c s)
  = hit lit prev (String c s) || search_from [lit] (Some c) s.
Proof.
  cbn [search_from]. rewrite match_here_single.
  by destruct (hit lit prev (String c s)).
Qed.

Lemma match_literal_length lit : ∀ prev s last rest,
  match_literal lit prev s = Some (last, rest) →
  String.length s = String.length lit + String.length rest.
Proof.
  induction lit as [|a lit IH]; intros prev s last rest Hm.
  - cbn in Hm. by inversion Hm.
  - destruct s as [|c s]; [done|]. cbn [match_literal] in Hm.
    case_bool_decide; [|done]. apply IH in Hm. cbn. lia.
Qed.

Lemma match_literal_last lit : ∀ prev s last rest,
  match_literal lit prev s = Some (last, rest) →
  word_opt last = match lit with
                  | "" => word_opt prev
                  | String a lit' => is_word (last_of a lit')
                  end.
Proof.
  induction lit as [|a lit IH]; intros prev s last rest Hm.
  - cbn in Hm. by inversion Hm.
  - destruct s as [|c s]; [done|]. cbn [match_literal] in Hm.
    case_bool_decide as Hci; [|done]. apply IH in Hm. rewrite Hm.
    destruct lit as [|b lit]; cbn; [|done]. symmetry. by apply ci_eq_word.
Qed.

Lemma search_after_match p lit : ∀ prev s last rest,
  search_from p prev s = false →
  match_literal lit prev s = Some (last, rest) →
  search_from p last rest = false.
Proof.
  induction lit as [|a lit IH]; intros prev s last rest Hs Hm.
  - cbn in Hm. by inversion Hm; subst.
  - destruct s as [|c s]; [done|]. cbn [match_literal] in Hm.
    case_bool_decide; [|done]. eapply IH; [|done].
    cbn [search_from] in Hs. by destruct (match_here p prev (String c s)).
Qed.

Lemma sub_skip_match p F lit : ∀ prev s last rest,
  match_literal lit prev s = Some (last, rest) →
  sub_from p F prev (String.length lit) s = sub_from p F last 0 rest.
Proof.
  induction lit as [|a lit IH]; intros prev s last rest Hm.
  - cbn in Hm. by inversion Hm; subst.
  - destruct s as [|c s]; [done|]. cbn [match_literal] in Hm.
    case_bool_decide; [|done]. cbn [String.length sub_from]. by apply IH.
Qed.

(** Unfolding [re.sub] for one non-empty literal. *)
Lemma sub_nil k0 K1 F prev : sub_from [String k0 K1] F prev 0 "" = "".
Proof.
  cbn [sub_from]. rewrite match_here_single. unfold hit.
  rewrite mlb_cons_nil, andb_false_r. reflexivity.
Qed.

Lemma sub_miss K F prev c s :
  hit K prev (String c s) = false →
  sub_from [K] F prev 0 (String c s) = String c (sub_from [K] F (Some c) 0 s).
Proof.
  intros Hh. cbn [sub_from]. by rewrite match_here_single, Hh.
Qed.

Lemma sub_hit k0 K1 F prev s :
  hit (String k0 K1) prev s = true →
  ∃ c s' last rest,
    s = String c s'
    ∧ lower_char k0 = lower_char c
    ∧ boundary prev (Some c) = true
    ∧ match_literal K1 (Some c) s' = Some (last, rest)
    ∧ boundary last (head_char rest) = true
    ∧ sub_from [String k0 K1] F prev 0 s
      = F +:+ sub_from [String k0 K1] F last 0 rest.
Proof.
  intros Hh. pose proof Hh as Hh'. unfold hit in Hh'.
  apply andb_true_iff in Hh' as [Hb Hm].
  destruct s as [|c s']; [done|].
  rewrite mlb_cons in Hm. apply andb_true_iff in Hm as [Hci Hm].
  apply bool_decide_eq_true in Hci.
  unfold mlb in Hm.
  destruct (match_literal K1 (Some c) s') as [[last rest]|] eqn:Hl; [|done].
  exists c, s', last, rest. repeat split; try done.
  cbn [sub_from]. rewrite match_here_single, Hh. cbn [String.length].
  by rewrite (sub_skip_match _ _ _ _ _ _ _ Hl).
Qed.

Lemma head_sub_word k0 K1 f0 F1 prev s :
  is_word k0 = true → is_word f0 = true →
  word_opt (head_char (sub_from [String k0 K1] (String f0 F1) prev 0 s))
  = word_opt (head_char s).
Proof.
  intros Hk Hf. destruct s as [|c s]; [by rewrite sub_nil|].
  destruct (hit (String k0 K1) prev (String c s)) eqn:Hh.
  - apply (sub_hit _ _ (String f0 F1)) in Hh
      as (c' & s' & last & rest & [= <- <-] & Hci & _ & _ & _ & ->).
    cbn. rewrite Hf. symmetry. rewrite <- Hk. symmetry. by apply ci_eq_word.
  - by rewrite sub_miss.
Qed.

(** Soundness of the three checks. *)
Lemma probe_sound lit : ∀ u lastw last t,
  probe_ok lit u lastw = true → (lit = "" → word_opt last = lastw) →
  mlb lit last (u +:+ t) = false.
Proof.
  induction lit as [|a lit IH]; intros u lastw last t Hp Hw.
  - destruct u as [|c u]; [done|]. cbn in Hp. rewrite mlb_nil. cbn.
    unfold boundary. rewrite Hw by done. cbn.
    by destruct (xorb lastw (is_word c)).
  - destruct u as [|c u]; [done|]. cbn [probe_ok] in Hp.
    change (String c u +:+ t) with (String c (u +:+ t)). rewrite mlb_cons.
    case_bool_decide; [|done]. cbn [andb]. by eapply IH.
Qed.

Lemma inside_sound K' : ∀ u prev t,
  K' ≠ "" →
  inside_ok K' (word_opt prev) u = true →
  search_from [K'] (match u with
                    | "" => prev
                    | String c u' => Some (last_of c u')
                    end) t = false →
  search_from [K'] prev (u +:+ t) = false.
Proof.
  induction u as [|c u IH]; intros prev t Hne Hin Hs; [done|].
  cbn [inside_ok] in Hin. apply andb_true_iff in Hin as [Hhere Hin].
  change (String c u +:+ t) with (String c (u +:+ t)). rewrite search_cons.
  apply orb_false_iff. split.
  - unfold hit. cbn [head_char]. unfold boundary at 1. cbn [word_opt].
    destruct (xorb (word_opt prev) (is_word c)) eqn:Hx; [|done].
    cbn in Hhere. cbn [andb].
    change (String c (u +:+ t)) with (String c u +:+ t).
    by eapply probe_sound.
  - apply (IH (Some c) t Hne Hin). by destruct u.
Qed.

Section Preserve.
Variables (k0 : ascii) (K1 : string) (f0 : ascii) (F1 : string).
Variables (k0' : ascii) (K1' : string).
Hypothesis Hk0 : is_word k0 = true.
Hypothesis Hklast : is_word (last_of k0 K1) = true.
Hypothesis Hf0 : is_word f0 = true.
Hypothesis Hflast : is_word (last_of f0 F1) = true.
Hypothesis Hinside : inside_ok (String k0' K1') false (String f0 F1) = true.
Hypothesis Hstraddle : straddle_ok (String f0 F1) k0' K1' = true.

Abbreviation K := (String k0 K1).
Abbreviation F := (String f0 F1).
Abbreviation K' := (String k0' K1').

(** A match of the rest of [K'] in the output is a match in the input. *)
Lemma transfer lit : ∀ s pk c0,
  lower_char pk = lower_char c0 →
  straddle_ok F pk lit = true →
  mlb lit (Some c0) s = false →
  mlb lit (Some c0) (sub_from [K] F (Some c0) 0 s) = false.
Proof.
  induction lit as [|a lit IH]; intros s pk c0 Hci Hst Hm.
  - rewrite mlb_nil in *. unfold boundary in *.
    by rewrite head_sub_word.
  - cbn [straddle_ok] in Hst. apply andb_true_iff in Hst as [Hhere Hst].
    destruct s as [|c s]; [by rewrite sub_nil|].
    destruct (hit K (Some c0) (String c s)) eqn:Hh.
    + apply (sub_hit _ _ F) in Hh
        as (c' & s' & last & rest & [= <- <-] & Hck & Hb & _ & _ & ->).
      assert (is_word c = true) as Hc.
      { rewrite <- Hk0. symmetry. by apply ci_eq_word. }
      unfold boundary in Hb. cbn in Hb. rewrite Hc in Hb.
      assert (is_word pk = false) as Hpk.
      { rewrite (ci_eq_word _ _ Hci). by destruct (is_word c0). }
      rewrite Hpk in Hhere. cbn in Hhere.
      eapply probe_sound; [exact Hhere|done].
    + rewrite sub_miss by done. rewrite mlb_cons in Hm |- *.
      case_bool_decide as Hac; [|done]. cbn [andb] in *.
      by apply (IH s a c).
Qed.

Lemma sub_preserves (n : nat) : ∀ s prev prev',
  (String.length s ≤ n)%nat →
  word_opt prev = word_opt prev' →
  search_from [K'] prev s = false ∨ K' = K →
  search_from [K'] prev' (sub_from [K] F prev 0 s) = false.
Proof.
  induction n as [|n IH]; intros s prev prev' Hlen Hw Hs.
  - destruct s; [|cbn in Hlen; lia]. rewrite sub_nil, search_nil.
    unfold hit. rewrite mlb_cons_nil. apply andb_false_r.
  - destruct s as [|c s].
    { rewrite sub_nil, search_nil.
      unfold hit. rewrite mlb_cons_nil. apply andb_false_r. }
    destruct (hit K prev (String c s)) eqn:Hh.
    + pose proof Hh as Hh2.
      apply (sub_hit _ _ F) in Hh2
        as (c' & s' & last & rest & [= <- <-] & Hck & Hb & Hl & Hb' & ->).
      assert (is_word c = true) as Hc.
      { rewrite <- Hk0. symmetry. by apply ci_eq_word. }
      assert (word_opt prev' = false) as Hp'.
      { rewrite <- Hw. unfold boundary in Hb. cbn in Hb. rewrite Hc in Hb.
        by destruct (word_opt prev). }
      assert (word_opt last = true) as Hlast.
      { rewrite (match_literal_last _ _ _ _ _ Hl).
        destruct K1 as [|b K2]; [done|exact Hklast]. }
      apply inside_sound; [done|by rewrite Hp'|].
      apply IH.
      * apply match_literal_length in Hl. cbn in Hlen. lia.
      * rewrite Hlast. cbn. symmetry. exact Hflast.
      * destruct Hs as [Hs|Hs]; [left|by right].
        rewrite search_cons in Hs. apply orb_false_iff in Hs as [_ Hs].
        by eapply search_after_match.
    + rewrite sub_miss by done. rewrite search_cons.
      apply orb_false_iff. split.
      * assert (hit K' prev (String c s) = false) as Hh'.
        { destruct Hs as [Hs|Hs].
          - rewrite search_cons in Hs. by apply orb_false_iff in Hs as [? _].
          - by rewrite Hs. }
        unfold hit in *. cbn [head_char] in *.
        unfold boundary in *. rewrite <- Hw.
        destruct (xorb (word_opt prev) (word_opt (Some c))); [|done].
        cbn [andb] in *. rewrite mlb_cons in Hh' |- *.
        case_bool_decide as Hci; [|done]. cbn [andb] in *.
        by apply (transfer K1' s k0' c).
      * apply IH; [cbn in Hlen; lia|done|].
        destruct Hs as [Hs|Hs]; [left|by right].
        rewrite search_cons in Hs. by apply orb_false_iff in Hs as [_ ?].
Qed.

End Preserve.

End SubFacts.

Lemma sub_no_match K F K' s :
  compat K F K' = true →
  re_search [K'] s = false ∨ K' = K →
  re_search [K'] (re_sub [K] F s) = false.
Proof.
  intros Hc Hs. destruct K as [|k0 K1], F as [|f0 F1], K' as [|k0' K1'];
    try done.
  cbn [compat] in Hc. repeat (apply andb_true_iff in Hc as [Hc ?]).
  unfold re_search, re_sub.
  apply (SubFacts.sub_preserves k0 K1 f0 F1 k0' K1') with (n := String.length s);
    done.
Qed.

Lemma sub_id p F : ∀ s prev,
  search_from p prev s = false → sub_from p F prev 0 s = s.
Proof.
  induction s as [|c s IH]; intros prev Hs; cbn [search_from sub_from] in *.
  - by destruct (match_here p prev "").
  - destruct (match_here p prev (String c s)); [done|]. by rewrite IH.
Qed.

Lemma count_zero p : ∀ s prev,
  count_from p prev 0 s = 0 → search_from p prev s = false.
Proof.
  induction s as [|c s IH]; intros prev Hc; cbn [search_from count_from] in *.
  - by destruct (match_here p prev "").
  - destruct (match_here p prev (String c s)) as [[|k]|]; [done..|]. by apply IH.
Qed.

Lemma normalize_str_fold s : normalize_str s = foldl rule_step s rules.
Proof. reflexivity. Qed.

Lemma fold_no_match (rs : list (string * string)) : ∀ (seen : list string) s,
  (∀ r k', r ∈ rs → k' ∈ seen ∨ k' ∈ rs.*1 → compat r.1 r.2 k' = true) →
  (∀ k', k' ∈ seen → re_search [k'] s = false) →
  ∀ k', k' ∈ seen ∨ k' ∈ rs.*1 → re_search [k'] (foldl rule_step s rs) = false.
Proof.
  induction rs as [|r rs IH]; intros seen s Hc Hseen k' Hk'.
  - destruct Hk' as [?|Hnil]; [by apply Hseen|by apply elem_of_nil in Hnil].
  - cbn [foldl]. apply (IH (r.1 :: seen)).
    + intros r2 k2 Hr2 Hk2. apply Hc; [by apply list_elem_of_further|].
      rewrite fmap_cons, elem_of_cons.
      destruct Hk2 as [Hk2|?]; [|auto].
      apply elem_of_cons in Hk2 as [->|?]; auto.
    + intros k2 Hk2. unfold rule_step. apply sub_no_match.
      * apply Hc; [apply list_elem_of_here|].
        rewrite fmap_cons, elem_of_cons.
        apply elem_of_cons in Hk2 as [->|?]; auto.
      * apply elem_of_cons in Hk2 as [->|?]; [by right|left; by apply Hseen].
    + rewrite fmap_cons, !elem_of_cons in *. tauto.
Qed.

Lemma fold_id (rs : list (string * string)) s :
  (∀ k, k ∈ rs.*1 → re_search [k] s = false) → foldl rule_step s rs = s.
Proof.
  induction rs as [|r rs IH]; intros Hs; [done|].
  cbn [foldl]. unfold rule_step at 2, re_sub.
  rewrite sub_id by (apply Hs, list_elem_of_here).
  apply IH. intros k Hk. by apply Hs, list_elem_of_further.
Qed.

Lemma all_compat_rules : all_compat rules = true.
Proof. vm_compute. reflexivity. Qed.

Lemma normalize_str_no_match s k :
  k ∈ rules.*1 → re_search [k] (normalize_str s) = false.
Proof.
  intros Hk. rewrite normalize_str_fold.
  apply (fold_no_match rules []); [| by intros ? ?%elem_of_nil | by right].
  intros [k1 f1] k' Hr [Hnil|Hk']; [by apply elem_of_nil in Hnil|].
  apply list_elem_of_fmap in Hk' as ([k2 f2] & -> & Hr2).
  pose proof all_compat_rules as Hall. unfold all_compat in Hall.
  rewrite forallb_forall in Hall.
  apply list_elem_of_In, Hall in Hr. rewrite forallb_forall in Hr.
  by apply list_elem_of_In, Hr in Hr2.
Qed.


(** The cell on a column is the per-comment normalizer on every cell: the
    test [ohai_count > 0] only skips a replacement that would change
    nothing. *)
Lemma apply_acronym_map_map col :
  Clean.apply_acronym_map col
  = (λ c, match c with
          | Str s => Str (foldl rule_step s Clean.acronym_map)
          | NaN => NaN
          end) <$> col.
Proof.
  unfold Clean.apply_acronym_map.
  generalize Clean.acronym_map as rs. intros rs. revert col.
  induction rs as [|[k f] rs IH]; intros col; cbn [foldl].
  - induction col as [|[s|] col IHc]; [done|..]; rewrite fmap_cons; by f_equal.
  - rewrite IH. rewrite <- list_fmap_compose. apply list_fmap_ext.
    intros _ [s|] _; reflexivity.
Qed.

Lemma str_count_sum_zero p col s :
  Clean.str_count_sum p col = 0 → Str s ∈ col → re_search p s = false.
Proof.
  induction col as [|c col IH]; intros Hsum Hin; [by apply elem_of_nil in Hin|].
  cbn in Hsum. apply elem_of_cons in Hin as [<-|Hin].
  - apply count_zero. unfold re_count in Hsum. lia.
  - apply IH; [|done]. unfold Clean.str_count_sum. destruct c; lia.
Qed.

Lemma expand_acronyms_map col :
  Clean.expand_acronyms col = normalize_cell <$> col.
Proof.
  unfold Clean.expand_acronyms. cbv zeta. rewrite apply_acronym_map_map.
  set (col1 := _ <$> col).
  assert ((Clean.str_replace ["ohai"] "overall hop aroma intensity" <$> col1)
          = normalize_cell <$> col) as Hmap.
  { unfold col1. rewrite <- list_fmap_compose. apply list_fmap_ext.
    intros _ [s|] _; reflexivity. }
  destruct (0 <? Clean.ohai_count col1)%nat eqn:Hc; [exact Hmap|].
  rewrite <- Hmap. apply Nat.ltb_ge in Hc.
  assert (Clean.ohai_count col1 = 0) as Hz by lia.
  clear Hmap Hc. unfold Clean.ohai_count in Hz.
  assert (∀ s, Str s ∈ col1 → re_search ["ohai"] s = false) as Hno
    by (intros s; by apply str_count_sum_zero).
  clear Hz. induction col1 as [|c col1 IH]; [done|].
  rewrite fmap_cons. f_equal.
  - destruct c as [s|]; [|done]. cbn. unfold re_sub.
    rewrite sub_id; [done|]. apply Hno, list_elem_of_here.
  - apply IH. intros s Hs. by apply Hno, list_elem_of_further.
Qed.


Lemma clean_map data :
  Clean.clean data
  = (λ r, Clean.set_comments r (normalize_cell (Clean.Comments r))) <$> data.
Proof.
  unfold Clean.clean. rewrite expand_acronyms_map.
  induction data as [|r data IH]; [done|].
  cbn [map fmap list_fmap zip_with]. f_equal. exact IH.
Qed.

Lemma records_clean_perm frame frame' :
  frame ≡ₚ frame' →
  Clean.records (Clean.clean frame) ≡ₚ Clean.records (Clean.clean frame').
Proof.
  intros Hp. unfold Clean.records. rewrite !clean_map.
  by apply Permutation_map, fmap_Permutation.
Qed.

(** ** The concrete scenarios of the specification *)

Example scenario_export :
  let frame :=
    [ {| Clean.Event := Str "Hopsource 2022 - Washington";
         Clean.Sample := Str "Dried Hops";
         Clean.Comments := Str "Complex and clean" |};
      {| Clean.Event := Str "Hopsource 2022 - Washington";
         Clean.Sample := Str "Dried Hops";
         Clean.Comments := Str "GO in this one" |};
      {| Clean.Event := Str "CBC 2022"; Clean.Sample := Str "Beer";
         Clean.Comments := Str "Good" |} ] in
  Clean.records (Clean.clean frame)
  = [ {| sample := Str "Dried Hops"; text := Str "Complex and clean" |};
      {| sample := Str "Dried Hops"; text := Str "onion garlic in this one" |};
      {| sample := Str "Beer"; text := Str "Good" |} ].
Proof. vm_compute. reflexivity. Qed.

Example scenario_tokens :
  @Keywords.cleaned_tokens Standin.nltk (Str "Dank, mango, bitter, citrus")
  = Ok ["dank"; "mango"; "bitter"; "citrus"].
Proof. vm_compute. reflexivity. Qed.

Example scenario_one_match_per_comment :
  Keywords.count_matching ["onion"; "garlic"] [Str "slight onion garlic note"]
  = Ok 1.
Proof. vm_compute. reflexivity. Qed.

(** The counts that the notebook prints for the n-gram cell on two hop
    comments. *)
Example scenario_bigram_counts :
  let data := [ {| sample := Str "Dried Hops"; text := Str "Stone fruit, mango" |};
                {| sample := Str "Dried Hops"; text := Str "ripe stone fruit" |} ] in
  match @Keywords.hops_ngram_counts Standin.nltk data with
  | Ok counts =>
      Keywords.bigram_counts counts !! "stone fruit" = Some 2
      ∧ Keywords.bigram_counts counts !! "fruit mango" = Some 1
      ∧ Keywords.bigram_counts counts !! "mango ripe" = None
      ∧ Keywords.unigram_counts counts !! "fruit" = Some 2
  | Raise _ => False
  end.
Proof. vm_compute. repeat split; reflexivity. Qed.

(** ** The cell as it runs *)

Lemma all_missing_replace p repl col :
  Run.all_missing (map (Clean.str_replace p repl) col) = Run.all_missing col.
Proof.
  induction col as [|[s|] col IH]; [done|done|]. cbn. exact IH.
Qed.

Lemma str_accessor_replace p repl col :
  Run.str_accessor (map (Clean.str_replace p repl) col)
  = (Run.str_accessor col ≫= λ col, Ok (map (Clean.str_replace p repl) col)).
Proof.
  destruct col as [|c col]; [done|]. unfold Run.str_accessor.
  cbn [map]. rewrite <- (all_missing_replace p repl (c :: col)). cbn [map].
  by destruct (Run.all_missing _).
Qed.

Lemma str_accessor_Ok col col' : Run.str_accessor col = Ok col' → col' = col.
Proof.
  unfold Run.str_accessor. destruct col; [by intros [= <-]|].
  destruct (Run.all_missing _); [done|by intros [= <-]].
Qed.

Lemma run_acronym_loop (rs : list (string * string)) : ∀ col,
  rs ≠ [] →
  for_loop (λ col '(abbr, full), Run.str_replace [abbr] full col) col rs
  = (Run.str_accessor col
     ≫= λ col, Ok (foldl (λ col '(abbr, full),
                           map (Clean.str_replace [abbr] full) col) col rs)).
Proof.
  unfold Run.str_replace.
  induction rs as [|[k f] rs IH]; intros col Hne; [done|].
  cbn [for_loop foldl].
  destruct (Run.str_accessor col) as [col'|e] eqn:Hacc; [|done].
  pose proof (str_accessor_Ok _ _ Hacc) as ->. cbn [mbind result_bind].
  destruct rs as [|r rs]; [done|].
  rewrite IH by done. by rewrite str_accessor_replace, Hacc.
Qed.

Lemma str_accessor_fmap (f : cell → cell) (col : list cell) :
  (∀ c, f c = NaN ↔ c = NaN) →
  Run.str_accessor (f <$> col)
  = (Run.str_accessor col ≫= λ col : list cell, Ok (f <$> col)).
Proof.
  intros Hf. destruct col as [|c col]; [done|]. unfold Run.str_accessor.
  rewrite fmap_cons.
  assert (∀ l, Run.all_missing (f <$> l) = Run.all_missing l) as Hall.
  { unfold Run.all_missing.
    induction l as [|d l IH]; [done|]. rewrite fmap_cons. cbn [forallb].
    rewrite IH. destruct d as [s|]; [|by rewrite (proj2 (Hf NaN) eq_refl)].
    destruct (f (Str s)) eqn:E; [done|].
    apply (proj1 (Hf _)) in E. discriminate E. }
  rewrite <- fmap_cons, Hall. by destruct (Run.all_missing _).
Qed.

(** The cell raises exactly when the accessor refuses the column;
    otherwise it does to the cells what [Clean.expand_acronyms] says. *)
Lemma run_expand_acronyms col :
  Run.expand_acronyms col
  = (Run.str_accessor col ≫= λ col, Ok (Clean.expand_acronyms col)).
Proof.
  unfold Run.expand_acronyms, Run.apply_acronym_map.
  rewrite run_acronym_loop by done.
  destruct (Run.str_accessor col) as [col'|e] eqn:Hacc; [|done].
  pose proof (str_accessor_Ok _ _ Hacc) as ->. cbn [mbind result_bind].
  unfold Clean.expand_acronyms. cbv zeta.
  fold (Clean.apply_acronym_map col). rewrite apply_acronym_map_map.
  set (col1 := _ <$> col).
  assert (Run.str_accessor col1 = Ok col1) as Hacc1.
  { unfold col1. rewrite str_accessor_fmap, Hacc; [done|].
    intros [s|]; [split; done|done]. }
  unfold Run.str_count_sum, Run.str_replace. rewrite Hacc1.
  cbn [mbind result_bind]. unfold Clean.ohai_count.
  by destruct (0 <? _)%nat.
Qed.

Lemma run_clean data :
  Run.clean data
  = (Run.str_accessor (map Clean.Comments data) ≫= λ _, Ok (Clean.clean data)).
Proof.
  unfold Run.clean. rewrite run_expand_acronyms.
  destruct (Run.str_accessor _) as [col'|e] eqn:Hacc; [|done].
  by apply str_accessor_Ok in Hacc as ->.
Qed.

(** ** ASCII text stays ASCII *)

Lemma all_chars_append P a b :
  all_chars P (a +:+ b) = all_chars P a && all_chars P b.
Proof.
  induction a as [|c a IH]; [done|]. rewrite append_cons. cbn [all_chars].
  by rewrite IH, andb_assoc.
Qed.

Lemma ascii_text_app a b : ascii_text (a +:+ b) ↔ ascii_text a ∧ ascii_text b.
Proof. unfold ascii_text. rewrite all_chars_append. apply andb_true_iff. Qed.

Lemma ascii_text_cons c s :
  ascii_text (String c s) ↔ ascii_char c = true ∧ ascii_text s.
Proof. unfold ascii_text. cbn [all_chars]. apply andb_true_iff. Qed.

Lemma sub_from_ascii p repl s : ∀ prev skip,
  ascii_text repl → ascii_text s → ascii_text (sub_from p repl prev skip s).
Proof.
  intros prev skip Hr. revert prev skip.
  induction s as [|c s IH]; intros prev skip Hs; cbn [sub_from].
  - destruct skip; [|done]. by destruct (match_here p prev "").
  - apply ascii_text_cons in Hs as [Hc Hs]. destruct skip as [|k]; [|by apply IH].
    destruct (match_here p prev (String c s)) as [[|k]|].
    + apply ascii_text_app. split; [done|]. apply ascii_text_cons. by split; [|apply IH].
    + apply ascii_text_app. split; [done|]. by apply IH.
    + apply ascii_text_cons. by split; [|apply IH].
Qed.

Lemma normalize_str_ascii s : ascii_text s → ascii_text (normalize_str s).
Proof.
  rewrite normalize_str_fold.
  assert (Forall (λ r, ascii_text r.2) rules) as Hrules
    by (repeat constructor).
  revert s. induction Hrules as [|r rs Hr _ IH]; intros s Hs; [done|].
  cbn [foldl]. apply IH. by apply sub_from_ascii.
Qed.

Lemma normalize_cell_ascii c : ascii_cell c → ascii_cell (normalize_cell c).
Proof. destruct c as [s|]; [apply normalize_str_ascii|done]. Qed.



(** ** Text that no rule touches *)

Module CutFacts.
#[local] Arguments String.append : simpl nomatch.

Lemma last_opt_String prev c w : last_opt prev (String c w) = last_opt (Some c) w.
Proof. by destruct w. Qed.

Lemma suffixes_ok_head u a lit :
  suffixes_ok u (String a lit) = true → probe_ok (String a lit) u false = true.
Proof. cbn [suffixes_ok]. by intros [? _]%andb_true_iff. Qed.

Lemma suffixes_ok_tail u a lit :
  suffixes_ok u (String a lit) = true → suffixes_ok u lit = true.
Proof. cbn [suffixes_ok]. by intros [_ ?]%andb_true_iff. Qed.

(** A literal that matches in front of [u] ends before [u]. *)
Lemma mlb_cut u lit : ∀ pre last post,
  suffixes_ok u lit = true →
  mlb lit last (pre +:+ u +:+ post) = true →
  ∃ a pre', pre = a +:+ pre' ∧ String.length a = String.length lit
            ∧ match_literal lit last (pre +:+ u +:+ post)
              = Some (last_opt last a, pre' +:+ u +:+ post).
Proof.
  induction lit as [|x lit IH]; intros pre last post Hok Hm.
  - by exists "", pre.
  - destruct pre as [|c pre].
    + apply suffixes_ok_head in Hok. cbn [String.append] in Hm.
      rewrite (SubFacts.probe_sound _ _ false last post Hok) in Hm; done.
    + rewrite append_cons, SubFacts.mlb_cons in Hm.
      apply andb_true_iff in Hm as [Hc Hm].
      apply IH in Hm as (a & pre' & -> & Hlen & Hml);
        [|by eapply suffixes_ok_tail].
      exists (String c a), pre'. split; [done|]. split; [cbn; lia|].
      rewrite !append_cons. cbn [match_literal]. rewrite Hc, Hml.
      by rewrite last_opt_String.
Qed.

(** Whether a literal matches in front of [u] does not depend on what
    follows [u]. *)
Lemma mlb_indep u lit : ∀ pre last post post',
  u ≠ "" → suffixes_ok u lit = true →
  mlb lit last (pre +:+ u +:+ post) = mlb lit last (pre +:+ u +:+ post').
Proof.
  induction lit as [|x lit IH]; intros pre last post post' Hu Hok.
  - rewrite !SubFacts.mlb_nil. destruct pre; [|done]. by destruct u.
  - destruct pre as [|c pre].
    + apply suffixes_ok_head in Hok. cbn [String.append].
      by rewrite !(SubFacts.probe_sound _ _ false last _ Hok).
    + rewrite !append_cons, !SubFacts.mlb_cons. f_equal.
      apply IH; [done|by eapply suffixes_ok_tail].
Qed.

Lemma hit_indep u lit pre prev post post' :
  u ≠ "" → suffixes_ok u lit = true →
  hit lit prev (pre +:+ u +:+ post) = hit lit prev (pre +:+ u +:+ post').
Proof.
  intros Hu Hok. unfold hit. rewrite (mlb_indep u lit pre prev post post') by done.
  f_equal. f_equal. destruct pre; [|done]. by destruct u.
Qed.

Lemma last_of_append w1 : ∀ c w2,
  last_of c (w1 +:+ w2)
  = match w2 with
    | "" => last_of c w1
    | String d w2' => last_of d w2'
    end.
Proof.
  induction w1 as [|a w1 IH]; intros c w2.
  - by destruct w2.
  - rewrite append_cons. cbn [last_of]. by rewrite IH.
Qed.

Lemma last_opt_append prev w1 w2 :
  last_opt (last_opt prev w1) w2 = last_opt prev (w1 +:+ w2).
Proof.
  destruct w1 as [|c w1]; [done|]. rewrite append_cons. cbn [last_opt].
  rewrite last_of_append. by destruct w2.
Qed.

Lemma append_inj_length a : ∀ a' b b',
  a +:+ b = a' +:+ b' → String.length a = String.length a' →
  a = a' ∧ b = b'.
Proof.
  induction a as [|x a IH]; intros [|x' a'] b b' Heq Hlen; try done.
  rewrite !append_cons in Heq. inversion Heq; subst x'.
  cbn in Hlen. destruct (IH a' b b') as [-> ->]; [done|lia|done].
Qed.

Lemma sub_inside K F : ∀ u prev t,
  K ≠ "" → inside_ok K (word_opt prev) u = true →
  sub_from [K] F prev 0 (u +:+ t)
  = u +:+ sub_from [K] F (last_opt prev u) 0 t.
Proof.
  induction u as [|c u IH]; intros prev t HK Hin; [done|].
  cbn [inside_ok] in Hin. apply andb_true_iff in Hin as [Hhere Hin].
  rewrite !append_cons.
  assert (hit K prev (String c (u +:+ t)) = false) as Hh.
  { unfold hit. apply orb_true_iff in Hhere as [Hb|Hp].
    - cbn [head_char]. unfold boundary. cbn [word_opt].
      apply negb_true_iff in Hb. by rewrite Hb.
    - rewrite <- append_cons.
      rewrite (SubFacts.probe_sound K _ false prev t Hp) by done.
      apply andb_false_r. }
  rewrite SubFacts.sub_miss by done. rewrite (IH (Some c)) by done.
  by rewrite last_opt_String.
Qed.

Lemma cut_left u k0 K1 F :
  u ≠ "" → suffixes_ok u (String k0 K1) = true →
  ∀ n pre prev, (String.length pre ≤ n)%nat →
  ∃ L, ∀ post,
    sub_from [String k0 K1] F prev 0 (pre +:+ u +:+ post)
    = L +:+ sub_from [String k0 K1] F (last_opt prev pre) 0 (u +:+ post).
Proof.
  intros Hu Hok. induction n as [|n IH]; intros pre prev Hlen.
  { destruct pre; [|cbn in Hlen; lia]. by exists "". }
  destruct pre as [|c pre]; [by exists ""|]. cbn in Hlen.
  destruct (hit (String k0 K1) prev (String c pre +:+ u +:+ "")) eqn:Hh.
  - pose proof Hh as Hh0. unfold hit in Hh0.
    apply andb_true_iff in Hh0 as [_ Hm0].
    apply mlb_cut in Hm0 as (a & pre' & Heq & Hla & _); [|done].
    destruct a as [|c' a]; [done|]. rewrite append_cons in Heq.
    inversion Heq; subst c' pre. cbn in Hla.
    destruct (IH pre' (last_opt prev (String c a))) as [L' HL'].
    { rewrite length_append in Hlen. lia. }
    exists (F +:+ L'). intros post.
    assert (hit (String k0 K1) prev (String c (a +:+ pre') +:+ u +:+ post)
            = true) as Hhp by (by rewrite (hit_indep u _ _ prev post "")).
    pose proof Hhp as Hm. unfold hit in Hm.
    apply andb_true_iff in Hm as [_ Hm].
    apply mlb_cut in Hm as (a2 & pre2 & Heq2 & Hla2 & Hml); [|done].
    destruct (append_inj_length a2 (String c a) pre2 pre') as [-> ->];
      [rewrite append_cons; symmetry; exact Heq2|cbn in *; lia|].
    rewrite !append_cons in *. cbn [match_literal] in Hml.
    case_bool_decide; [|done].
    cbn [sub_from]. rewrite SubFacts.match_here_single, Hhp.
    cbn [String.length].
    rewrite (SubFacts.sub_skip_match _ _ _ _ _ _ _ Hml).
    rewrite HL', append_assoc. by rewrite last_opt_append, append_cons.
  - destruct (IH pre (Some c)) as [L' HL']; [lia|].
    exists (String c L'). intros post.
    assert (hit (String k0 K1) prev (String c pre +:+ u +:+ post) = false)
      as Hhp by (by rewrite (hit_indep u _ _ prev post "")).
    rewrite !append_cons in *. rewrite SubFacts.sub_miss by done.
    by rewrite HL', last_opt_String.
Qed.

Lemma rule_cut K F pre :
  untouched_by plural K = true →
  ∃ L, ∀ post,
    re_sub [K] F (pre +:+ plural +:+ post)
    = L +:+ plural +:+ sub_from [K] F (Some "s"%char) 0 post.
Proof.
  intros Hun. destruct K as [|k0 K1]; [done|]. cbn [untouched_by] in Hun.
  apply andb_true_iff in Hun as [Hun Hfalse].
  apply andb_true_iff in Hun as [Hsuf Htrue].
  destruct (cut_left plural k0 K1 F ltac:(done) Hsuf
              (String.length pre) pre None ltac:(lia)) as [L HL].
  exists L. intros post. unfold re_sub. rewrite HL.
  rewrite sub_inside; [done|done|].
  by destruct (word_opt (last_opt None pre)).
Qed.

Lemma fold_cut (rs : list (string * string)) :
  Forall (λ r, untouched_by plural r.1 = true) rs →
  ∀ pre, ∃ L, ∀ post,
    foldl rule_step (pre +:+ plural +:+ post) rs
    = L +:+ plural
      +:+ foldl (λ t r, sub_from [r.1] r.2 (Some "s"%char) 0 t) post rs.
Proof.
  induction 1 as [|r rs Hr _ IH]; intros pre; [by exists pre|].
  destruct (rule_cut r.1 r.2 pre Hr) as [L1 HL1].
  destruct (IH L1) as [L HL]. exists L. intros post.
  cbn [foldl]. unfold rule_step at 2. by rewrite HL1, HL.
Qed.

Lemma rules_leave_plural : Forall (λ r, untouched_by plural r.1 = true) rules.
Proof. repeat (constructor; [vm_compute; reflexivity|]). constructor. Qed.

(** Every occurrence of the plural comes out of the nine rules as it went
    in: the text before it and the text behind it are rewritten on their
    own. *)
Lemma normalize_str_plural pre :
  ∃ before, ∀ post,
    normalize_str (pre +:+ plural +:+ post)
    = before +:+ plural +:+ after_plural post.
Proof.
  destruct (fold_cut rules rules_leave_plural pre) as [L HL].
  exists L. intros post. by rewrite normalize_str_fold, HL.
Qed.

End CutFacts.

(** * The claims *)

(** C1, as the claim states it, fails: on a partition with zero comments
    the categorical cell raises [ZeroDivisionError]; no row, and no 0%, is
    produced.  Here the document holds one beer comment and no hop
    comment. *)
Lemma C1_empty_partition_raises :
  Keywords.hops_prevalence [ {| sample := Str "Beer"; text := Str "Good" |} ]
    = Raise ZeroDivisionError
  ∧ ¬ ∃ rows,
      Keywords.hops_prevalence [ {| sample := Str "Beer"; text := Str "Good" |} ]
        = Ok rows.
Proof.
  assert (Keywords.hops_prevalence [ {| sample := Str "Beer"; text := Str "Good" |} ]
            = Raise ZeroDivisionError) as E by (vm_compute; reflexivity).
  split; [exact E|]. intros [rows Hrows]. rewrite E in Hrows. discriminate.
Qed.

(** C1 (amended): for every non-empty partition of string comments the
    percentage computation returns, for each category in dict order, the
    row with [pct_comments = n_comments / n_total]; on the empty partition
    both the categorical cell and the onion/garlic cell raise
    [ZeroDivisionError]. *)
Theorem C1_percentages_of_nonempty_partition (ss : list string) :
  (ss ≠ [] → Keywords.prevalence_rows (Str <$> ss) = Ok (expected_rows ss))
  ∧ Keywords.prevalence_rows [] = Raise ZeroDivisionError
  ∧ Keywords.onion_garlic_report [] = Raise ZeroDivisionError.
Proof.
  split; [apply prevalence_rows_nonempty|split; reflexivity].
Qed.

(** The amended C1 on a partition of two comments. *)
Lemma C1_percentages_of_nonempty_partition_witness :
  ["slight onion garlic note"; "Stone fruit"] ≠ []
  ∧ Keywords.prevalence_rows (Str <$> ["slight onion garlic note"; "Stone fruit"])
    = Ok (expected_rows ["slight onion garlic note"; "Stone fruit"]).
Proof.
  split; [discriminate|].
  apply (proj1 (C1_percentages_of_nonempty_partition
                  ["slight onion garlic note"; "Stone fruit"])).
  discriminate.
Defined.

(** C2 fails on the code: [word_count] of notebook 1 returns 0 for a
    missing text, but every analysis of notebook 2 raises on a record whose
    text is NaN, whatever the NLTK and spaCy collaborators are. *)
Theorem C2_missing_text_raises `{NLTK} `{SpaCy} :
  let data := [ {| sample := Str "Dried Hops"; text := NaN |} ] in
  Clean.word_count NaN = 0
  ∧ Clean.word_counts "Dried Hops" data = [0]
  ∧ Keywords.hops_ngram_counts data = Raise AttributeError
  ∧ Keywords.pos_analysis "Dried Hops" data = Raise ValueError
  ∧ Keywords.count_onion_garlic (Keywords.texts_of "Dried Hops" data)
    = Raise TypeError
  ∧ Keywords.hops_prevalence data = Raise TypeError.
Proof. repeat split; reflexivity. Qed.

(** C3 fails on the code, for every text: the cell counts the occurrences
    of ["india pale ales"] ([plural_count], never read) and rewrites none.
    Wherever the plural stands in an ASCII comment, it comes out of the cell
    at that place and unchanged; the text before it and the text behind it
    are rewritten each on its own.  On ["two india pale ales"] the plural is
    counted once and the comment comes out as it is, whereas the sibling
    rule for ["ohai"] counts and rewrites. *)
Theorem C3_plural_counted_not_rewritten (pre : string) :
  ascii_text pre →
  (∃ before, ∀ post,
      ascii_text post →
      Run.expand_acronyms [Str (pre +:+ plural +:+ post)]
      = Ok [Str (before +:+ plural +:+ after_plural post)])
  ∧ Clean.plural_count [Str "two india pale ales"] = 1
  ∧ Run.expand_acronyms [Str "two india pale ales"]
    = Ok [Str "two india pale ales"]
  ∧ Run.expand_acronyms [Str "high OHAI"]
    = Ok [Str "high overall hop aroma intensity"].
Proof.
  intros _. split; [|repeat split; vm_compute; reflexivity].
  destruct (CutFacts.normalize_str_plural pre) as [before Hb].
  exists before. intros post _. rewrite run_expand_acronyms.
  cbn [Run.str_accessor Run.all_missing forallb andb mbind result_bind].
  rewrite expand_acronyms_map. cbn [fmap list_fmap normalize_cell].
  by rewrite Hb.
Qed.

Lemma C3_plural_counted_not_rewritten_witness :
  ∃ before,
    Run.expand_acronyms [Str ("a GO, two " +:+ plural +:+ " and an IPA")]
    = Ok [Str (before +:+ plural +:+ after_plural " and an IPA")].
Proof.
  destruct (C3_plural_counted_not_rewritten "a GO, two ") as [[before Hb] _].
  - reflexivity.
  - exists before. apply Hb. reflexivity.
Defined.

(** C4 fails on the code for ["no"]: it is taken out of the stopword set
    and then dropped by [len(tok) > 2], with every tokenizer and stopword
    list.  On ["no hop aroma"] the tokens are [no], [hop], [aroma]; [no] is
    protected and is not a stopword, and the result is [hop], [aroma].  The
    three longer protected words do survive. *)
Theorem C4_no_is_dropped :
  ("no" ∈ Keywords.important_words)
  ∧ (∀ (N : NLTK) (tokens : list string),
       "no" ∉ filter Keywords.keep_token tokens)
  ∧ ("no" ∉ @Keywords.stop_words Standin.nltk)
  ∧ @word_tokenize Standin.nltk (Keywords.preprocess (lower "no hop aroma"))
    = ["no"; "hop"; "aroma"]
  ∧ @Keywords.cleaned_tokens Standin.nltk (Str "no hop aroma")
    = Ok ["hop"; "aroma"]
  ∧ @Keywords.cleaned_tokens Standin.nltk (Str "not very hoppy, never dank")
    = Ok ["not"; "very"; "hoppy"; "never"; "dank"].
Proof.
  split; [apply (bool_decide_unpack _); vm_compute; exact I|].
  split; [intros N tokens; apply short_token_dropped; simpl; lia|].
  split; [apply (bool_decide_unpack _); vm_compute; exact I|].
  repeat split; vm_compute; reflexivity.
Qed.



(** C6: the document written by notebook 1 decodes, in notebook 2, to the
    Python value that was dumped, and read through the subscripts
    ["sample"] and ["text"] it is the list of records itself: same order,
    same length, duplicates included.  A missing text (NaN) is written as
    the literal [NaN] and read back as NaN.  This holds for every list of
    records, in particular for the records of a cleaned frame. *)
Theorem C6_export_then_reload (rs : list item) (data : list Clean.row) :
  Json.loads (save rs) = Some (records_to_json rs)
  ∧ load (save rs) = Some rs
  ∧ load (save (Clean.records (Clean.clean data)))
    = Some (Clean.records (Clean.clean data)).
Proof.
  assert (∀ rs, load (save rs) = Some rs) as Hload.
  { intros rs'. unfold load, save.
    rewrite JsonFacts.loads_records. apply items_of_json_records. }
  split; [apply JsonFacts.loads_records|]. split; apply Hload.
Qed.

(** C7: shuffling the rows changes none of the tables of a partition: the
    three n-gram counters are the same maps and the prevalence rows (count,
    percentage, total per category) are the same, and a run that raises on
    one order raises the same exception on the other.  This holds for the
    rows of the document that notebook 2 loads and for the rows of the
    frame that notebook 1 cleans and exports. *)
Theorem C7_tables_invariant_under_reordering `{NLTK}
    (label : string) (data data' : list item) (frame frame' : list Clean.row) :
  (data ≡ₚ data' →
   Keywords.ngram_analysis label data = Keywords.ngram_analysis label data'
   ∧ Keywords.prevalence label data = Keywords.prevalence label data')
  ∧ (frame ≡ₚ frame' →
     Keywords.ngram_analysis label (Clean.records (Clean.clean frame))
     = Keywords.ngram_analysis label (Clean.records (Clean.clean frame'))
     ∧ Keywords.prevalence label (Clean.records (Clean.clean frame))
       = Keywords.prevalence label (Clean.records (Clean.clean frame'))).
Proof.
  assert (∀ d d' : list item, d ≡ₚ d' →
            Keywords.ngram_analysis label d = Keywords.ngram_analysis label d'
            ∧ Keywords.prevalence label d = Keywords.prevalence label d') as Hd.
  { intros d d' Hp. pose proof (texts_of_perm label _ _ Hp) as Ht. split.
    - unfold Keywords.ngram_analysis. rewrite !collect_ngrams_spec.
      pose proof (strings_of_perm _ _ Ht) as Hs.
      destruct (strings_of (Keywords.texts_of label d)) as [ss|],
               (strings_of (Keywords.texts_of label d')) as [ss'|]; try done.
      cbn. f_equal. f_equal; apply Counter_perm, concat_perm;
        by apply fmap_Permutation.
    - by apply prevalence_rows_perm. }
  split; [apply Hd|]. intros Hp. by apply Hd, records_clean_perm.
Qed.

(** C7 on two beer comments in both orders. *)
Lemma C7_tables_invariant_under_reordering_witness :
  let d1 := {| sample := Str "Beer"; text := Str "stone fruit and mango" |} in
  let d2 := {| sample := Str "Beer"; text := Str "slight onion garlic note" |} in
  [d1; d2] ≡ₚ [d2; d1]
  ∧ @Keywords.ngram_analysis Standin.nltk "Beer" [d1; d2]
    = @Keywords.ngram_analysis Standin.nltk "Beer" [d2; d1]
  ∧ Keywords.prevalence "Beer" [d1; d2] = Keywords.prevalence "Beer" [d2; d1].
Proof.
  intros d1 d2. split; [apply perm_swap|].
  apply (proj1 (@C7_tables_invariant_under_reordering Standin.nltk "Beer"
                  [d1; d2] [d2; d1] [] [])).
  apply perm_swap.
Defined.


(** C9: whenever the n-gram cell of a partition returns, the count of
    every bigram is the sum, over the comments of the partition, of the
    number of positions [i] of that comment's own token sequence [c] with
    [c[i] c[i+1]] equal to it (and likewise for trigrams with
    [c[i] c[i+1] c[i+2]]).  So every counted n-gram is made of adjacent
    tokens of one single comment, and no window spans two comments.  The
    cell raises only on a text that is not a string. *)
Theorem C9_ngrams_within_one_comment `{NLTK} (label : string) (data : list item) :
  match Keywords.ngram_analysis label data with
  | Ok counts =>
      (∃ cs : list (list string),
         Forall2 (λ txt c, Keywords.cleaned_tokens txt = Ok c)
                 (Keywords.texts_of label data) cs
         ∧ (∀ g, default 0 (Keywords.bigram_counts counts !! g)
                 = sum_list ((λ c, occurrences g (pairs_of c)) <$> cs))
         ∧ (∀ g, default 0 (Keywords.trigram_counts counts !! g)
                 = sum_list ((λ c, occurrences g (triples_of c)) <$> cs)))
      ∧ (∀ g, is_Some (Keywords.bigram_counts counts !! g) →
         ∃ txt c i a b,
           txt ∈ Keywords.texts_of label data
           ∧ Keywords.cleaned_tokens txt = Ok c
           ∧ c !! i = Some a ∧ c !! (i + 1) = Some b
           ∧ g = a +:+ " " +:+ b)
      ∧ (∀ g, is_Some (Keywords.trigram_counts counts !! g) →
         ∃ txt c i a b d,
           txt ∈ Keywords.texts_of label data
           ∧ Keywords.cleaned_tokens txt = Ok c
           ∧ c !! i = Some a ∧ c !! (i + 1) = Some b ∧ c !! (i + 2) = Some d
           ∧ g = a +:+ " " +:+ b +:+ " " +:+ d)
  | Raise e => e = AttributeError ∧ NaN ∈ Keywords.texts_of label data
  end.
Proof.
  unfold Keywords.ngram_analysis. rewrite collect_ngrams_spec.
  destruct (strings_of (Keywords.texts_of label data)) as [ss|] eqn:E.
  - apply strings_of_Some in E. cbn. split; [|split].
    + exists (tokens_of <$> ss). rewrite E. split; [|split].
      * clear E. induction ss as [|s ss IH]; [constructor|].
        rewrite !fmap_cons. by constructor.
      * intros g. rewrite Counter_lookup, occurrences_concat.
        by rewrite <- !list_fmap_compose.
      * intros g. rewrite Counter_lookup, occurrences_concat.
        by rewrite <- !list_fmap_compose.
    + intros g Hg%Counter_is_Some.
      apply elem_of_concat in Hg as (l & Hl & Hg).
      apply list_elem_of_fmap in Hl as (s & -> & Hs).
      apply list_elem_of_fmap in Hg as (i & -> & [_ Hi]%elem_of_seq).
      destruct (lookup_lt_is_Some_2 (tokens_of s) i) as [a Ha]; [lia|].
      destruct (lookup_lt_is_Some_2 (tokens_of s) (i + 1)) as [b Hb]; [lia|].
      exists (Str s), (tokens_of s), i, a, b. rewrite E, Ha, Hb.
      split; [by apply list_elem_of_fmap_2|done].
    + intros g Hg%Counter_is_Some.
      apply elem_of_concat in Hg as (l & Hl & Hg).
      apply list_elem_of_fmap in Hl as (s & -> & Hs).
      apply list_elem_of_fmap in Hg as (i & -> & [_ Hi]%elem_of_seq).
      destruct (lookup_lt_is_Some_2 (tokens_of s) i) as [a Ha]; [lia|].
      destruct (lookup_lt_is_Some_2 (tokens_of s) (i + 1)) as [b Hb]; [lia|].
      destruct (lookup_lt_is_Some_2 (tokens_of s) (i + 2)) as [d Hd]; [lia|].
      exists (Str s), (tokens_of s), i, a, b, d. rewrite E, Ha, Hb, Hd.
      split; [by apply list_elem_of_fmap_2|done].
  - split; [done|]. by apply strings_of_None.
Qed.

(** C9 on two beer comments: the counted bigram [stone fruit] comes from
    two adjacent tokens of one of them. *)
Lemma C9_ngrams_within_one_comment_witness :
  let data := [ {| sample := Str "Beer"; text := Str "Stone fruit, mango" |};
                {| sample := Str "Beer"; text := Str "hop aroma" |} ] in
  ∃ txt c i a b,
    txt ∈ Keywords.texts_of "Beer" data
    ∧ @Keywords.cleaned_tokens Standin.nltk txt = Ok c
    ∧ c !! i = Some a ∧ c !! (i + 1) = Some b
    ∧ "stone fruit" = a +:+ " " +:+ b.
Proof.
  intros data.
  pose proof (@C9_ngrams_within_one_comment Standin.nltk "Beer" data) as Hw.
  unfold Keywords.ngram_analysis in Hw. rewrite collect_ngrams_spec in Hw.
  cbn [data Keywords.texts_of] in Hw.
  apply (proj1 (proj2 Hw) "stone fruit"). apply Counter_is_Some.
  apply (bool_decide_unpack _). vm_compute. exact I.
Defined.

(** C10: the onion/garlic cell counts the comments that contain a
    case-insensitive whole-word match of [onion] or [garlic], and for every
    partition it reports the same count and the same percentage as the
    "onion garlic" row of the categorical cell; when one of the two cells
    raises (a text that is not a string, or an empty partition), the other
    raises the same exception. *)
Theorem C10_onion_garlic_counts_agree (texts : list cell) (ss : list string) :
  Keywords.count_onion_garlic (Str <$> ss)
  = Ok (length (filter (λ s, re_search ["onion"; "garlic"] s = true) ss))
  ∧
  match Keywords.prevalence_rows texts with
  | Ok rows =>
      ∃ r, Keywords.row_of "onion garlic" rows = Some r
           ∧ Keywords.count_onion_garlic texts = Ok (Keywords.n_comments r)
           ∧ Keywords.onion_garlic_report texts
             = Ok (Keywords.n_comments r, (Keywords.pct_comments r * 100)%Q)
  | Raise e => Keywords.onion_garlic_report texts = Raise e
  end.
Proof.
  split; [by rewrite count_onion_garlic_spec, strings_of_Str|]. clear ss.
  destruct (strings_of texts) as [ss|] eqn:Hs.
  - apply strings_of_Some in Hs as ->.
    destruct ss as [|s ss]; [reflexivity|].
    rewrite prevalence_rows_nonempty by done.
    eexists. split; [reflexivity|].
    unfold Keywords.onion_garlic_report.
    rewrite count_onion_garlic_spec, strings_of_Str. cbn.
    split; [reflexivity|].
    rewrite length_fmap. reflexivity.
  - rewrite prevalence_rows_NaN by done.
    unfold Keywords.onion_garlic_report.
    rewrite count_onion_garlic_spec, Hs. reflexivity.
Qed.

(** * Further properties of the notebooks *)

(** ** Matching *)

Lemma lower_char_idem c : lower_char (lower_char c) = lower_char c.
Proof. destruct c as [[] [] [] [] [] [] [] []]; reflexivity. Qed.

Lemma match_here_app p1 p2 prev s :
  match_here (p1 ++ p2) prev s
  = match match_here p1 prev s with
    | Some n => Some n
    | None => match_here p2 prev s
    end.
Proof.
  induction p1 as [|lit p1 IH]; [done|]. cbn [app match_here].
  by destruct (match_alt prev s lit).
Qed.

Lemma search_from_app p1 p2 : ∀ s prev,
  search_from (p1 ++ p2) prev s
  = search_from p1 prev s || search_from p2 prev s.
Proof.
  induction s as [|c s IH]; intros prev; cbn [search_from];
    rewrite match_here_app.
  - destruct (match_here p1 prev ""), (match_here p2 prev ""); done.
  - rewrite IH.
    destruct (match_here p1 prev (String c s)),
             (match_here p2 prev (String c s)); cbn;
      try done; by rewrite ?orb_true_r.
Qed.

Lemma search_from_perm p p' : p ≡ₚ p' → ∀ s prev,
  search_from p prev s = search_from p' prev s.
Proof.
  induction 1 as [|x l l' _ IH|x y l|l1 l2 l3 _ IH1 _ IH2]; intros s prev.
  - done.
  - change (x :: l) with ([x] ++ l). change (x :: l') with ([x] ++ l').
    by rewrite !search_from_app, IH.
  - change (y :: x :: l) with ([y] ++ [x] ++ l).
    change (x :: y :: l) with ([x] ++ [y] ++ l).
    rewrite !search_from_app.
    destruct (search_from [y] prev s), (search_from [x] prev s); done.
  - by rewrite IH1, IH2.
Qed.

(** X1: A comment matches a category exactly when it matches one of its
    keywords on its own: [re.search] over [\b(a1|...|an)\b] is the
    disjunction of the searches for the single alternatives, so the order
    of the keywords is immaterial and adding a keyword never loses a
    match. *)
Theorem search_is_disjunction_of_keywords (p p' : pattern) (s : string) :
  re_search (p ++ p') s = re_search p s || re_search p' s
  ∧ re_search p s = existsb (λ lit, re_search [lit] s) p
  ∧ (p ≡ₚ p' → re_search p s = re_search p' s).
Proof.
  unfold re_search. split; [apply search_from_app|]. split.
  - clear p'. induction p as [|lit p IH].
    + cbn [existsb]. generalize (@None ascii).
      induction s as [|c s IHs]; intros prev; cbn; [done|apply IHs].
    + change (lit :: p) with ([lit] ++ p).
      rewrite search_from_app, IH. reflexivity.
  - intros Hp. by apply search_from_perm.
Qed.

Lemma search_is_disjunction_of_keywords_witness :
  ["garlic"; "onion"] ≡ₚ ["onion"; "garlic"]
  ∧ re_search ["garlic"; "onion"] "Slight Onion note"
    = re_search ["onion"; "garlic"] "Slight Onion note".
Proof.
  split; [apply perm_swap|].
  apply (search_is_disjunction_of_keywords
           ["garlic"; "onion"] ["onion"; "garlic"] "Slight Onion note").
  apply perm_swap.
Defined.

Lemma match_literal_lower_text lit : ∀ (prev : option ascii) s,
  match_literal lit (lower_char <$> prev) (lower s)
  = (λ lr : option ascii * string, (lower_char <$> lr.1, lower lr.2))
      <$> match_literal lit prev s.
Proof.
  induction lit as [|a lit IH]; intros prev s; [done|].
  destruct s as [|c s]; [done|]. cbn [lower match_literal].
  rewrite lower_char_idem. case_bool_decide; [|done].
  apply (IH (Some c)).
Qed.

Lemma match_literal_lower_lit lit : ∀ prev s,
  match_literal (lower lit) prev s = match_literal lit prev s.
Proof.
  induction lit as [|a lit IH]; intros prev s; [done|].
  destruct s as [|c s]; [done|]. cbn [lower match_literal].
  rewrite lower_char_idem. case_bool_decide; [|done]. apply IH.
Qed.

Lemma length_lower s : String.length (lower s) = String.length s.
Proof. induction s as [|c s IH]; [done|]. cbn. by rewrite IH. Qed.

Lemma word_opt_lower (o : option ascii) : word_opt (lower_char <$> o) = word_opt o.
Proof. destruct o; [apply SubFacts.is_word_lower|done]. Qed.

Lemma head_char_lower s : head_char (lower s) = lower_char <$> head_char s.
Proof. by destruct s. Qed.

Lemma match_alt_lower (prev : option ascii) s lit :
  match_alt (lower_char <$> prev) (lower s) lit = match_alt prev s lit
  ∧ match_alt prev s (lower lit) = match_alt prev s lit.
Proof.
  unfold match_alt. split.
  - rewrite match_literal_lower_text, head_char_lower.
    unfold boundary. rewrite !word_opt_lower.
    destruct (xorb _ _); [|done].
    destruct (match_literal lit prev s) as [[l r]|]; [|done]. cbn.
    by rewrite head_char_lower, !word_opt_lower.
  - by rewrite match_literal_lower_lit, length_lower.
Qed.

Lemma match_here_lower p (prev : option ascii) s :
  match_here p (lower_char <$> prev) (lower s) = match_here p prev s
  ∧ match_here (lower <$> p) prev s = match_here p prev s.
Proof.
  induction p as [|lit p [IH1 IH2]]; [done|]. rewrite fmap_cons.
  cbn [match_here].
  by rewrite (proj1 (match_alt_lower _ _ _)), (proj2 (match_alt_lower _ _ _)),
    IH1, IH2.
Qed.

Lemma search_from_lower p : ∀ s (prev : option ascii),
  search_from p (lower_char <$> prev) (lower s) = search_from p prev s
  ∧ search_from (lower <$> p) prev s = search_from p prev s.
Proof.
  induction s as [|c s IH]; intros prev; cbn [lower search_from].
  - change "" with (lower "") at 1.
    by rewrite (proj1 (match_here_lower _ _ _)), (proj2 (match_here_lower _ _ _)).
  - change (String (lower_char c) (lower s)) with (lower (String c s)).
    rewrite (proj1 (match_here_lower _ _ _)), (proj2 (match_here_lower _ _ _)).
    destruct (IH (Some c)) as [IH1 IH2]. cbn in IH1. by rewrite IH1, IH2.
Qed.

Lemma strings_of_lower (texts : list cell) :
  strings_of (lower_cell <$> texts)
  = (λ ss : list string, lower <$> ss) <$> strings_of texts.
Proof.
  induction texts as [|[s|] texts IH]; [done| |done].
  rewrite fmap_cons. cbn [lower_cell strings_of]. rewrite IH.
  by destruct (strings_of texts).
Qed.

Lemma filter_search_lower p (ss : list string) :
  length (filter (λ s, re_search p s = true) (lower <$> ss))
  = length (filter (λ s, re_search p s = true) ss).
Proof.
  induction ss as [|s ss IH]; [done|]. rewrite fmap_cons, !filter_cons.
  assert (re_search p (lower s) = re_search p s) as ->
    by apply (proj1 (search_from_lower p s None)).
  destruct (decide (re_search p s = true)); cbn [length]; by rewrite IH.
Qed.

(** X2: On ASCII text and keywords, matching ignores case on both sides:
    lower-casing the comment, or the keywords of the pattern, changes no
    search result, hence no category count. *)
Theorem search_ignores_case (p : pattern) (s : string) (texts : list cell) :
  Forall ascii_text p → ascii_text s → Forall ascii_cell texts →
  re_search p (lower s) = re_search p s
  ∧ re_search (lower <$> p) s = re_search p s
  ∧ Keywords.count_matching p (lower_cell <$> texts)
    = Keywords.count_matching p texts.
Proof.
  intros _ _ _.
  split; [apply (proj1 (search_from_lower p s None))|].
  split; [apply (proj2 (search_from_lower p s None))|].
  rewrite !count_matching_spec, strings_of_lower.
  destruct (strings_of texts) as [ss|]; [|done]. cbn.
  by rewrite filter_search_lower.
Qed.

Lemma search_ignores_case_witness :
  re_search ["onion"; "Garlic"] (lower "GARLIC note")
  = re_search ["onion"; "Garlic"] "GARLIC note"
  ∧ Keywords.count_matching ["onion"; "Garlic"]
      (lower_cell <$> [Str "Onion"; Str "hop"])
    = Keywords.count_matching ["onion"; "Garlic"] [Str "Onion"; Str "hop"].
Proof.
  destruct (search_ignores_case ["onion"; "Garlic"] "GARLIC note"
              [Str "Onion"; Str "hop"]) as (H1 & _ & H3).
  - repeat constructor.
  - reflexivity.
  - repeat constructor.
  - by split.
Defined.

(** ** The acronym cell *)

Lemma search_false_count p : ∀ s prev,
  search_from p prev s = false → count_from p prev 0 s = 0.
Proof.
  induction s as [|c s IH]; intros prev Hs; cbn [search_from count_from] in *.
  - by destruct (match_here p prev "").
  - destruct (match_here p prev (String c s)); [done|]. by apply IH.
Qed.

(** X3: [str.count] and [str.replace] agree with [re.search]: a string cell
    counts zero matches exactly when the pattern is not found in it, and
    then the replacement returns the cell as it is. *)
Theorem count_zero_iff_not_found (p : pattern) (repl s : string) :
  (re_count p s = 0 ↔ re_search p s = false)
  ∧ (re_count p s = 0 → re_sub p repl s = s).
Proof.
  split; [split|].
  - apply count_zero.
  - apply search_false_count.
  - intros Hc. apply sub_id, count_zero, Hc.
Qed.

Lemma count_zero_iff_not_found_witness :
  re_count ["ohai"] "Ohaio hops" = 0
  ∧ re_sub ["ohai"] "overall hop aroma intensity" "Ohaio hops" = "Ohaio hops".
Proof.
  split; [vm_compute; reflexivity|].
  apply (proj2 (count_zero_iff_not_found ["ohai"] _ "Ohaio hops")).
  vm_compute. reflexivity.
Defined.

Lemma all_missing_true col :
  Run.all_missing col = true ↔ Forall (λ c, c = NaN) col.
Proof.
  induction col as [|c col IH]; [by split|].
  rewrite Forall_cons, <- IH. unfold Run.all_missing. cbn [forallb].
  rewrite andb_true_iff. destruct c as [s|]; [|tauto].
  split; [by intros [? _]|by intros [? _]].
Qed.

Lemma all_missing_false col :
  Run.all_missing col = false → ∃ s, Str s ∈ col.
Proof.
  induction col as [|[s|] col IH]; [done| |].
  - intros _. exists s. apply list_elem_of_here.
  - cbn. intros [s Hs]%IH. exists s. by apply list_elem_of_further.
Qed.

(** The accessor refuses exactly the columns that have rows and no
    string. *)
Lemma str_accessor_outcome col :
  match Run.str_accessor col with
  | Ok out => out = col ∧ (col = [] ∨ ∃ s, Str s ∈ col)
  | Raise e => e = AttributeError ∧ col ≠ [] ∧ Forall (λ c, c = NaN) col
  end.
Proof.
  unfold Run.str_accessor. destruct col as [|c col]; [by split; [|left]|].
  destruct (Run.all_missing (c :: col)) eqn:Hall.
  - split; [done|]. split; [done|]. by apply all_missing_true.
  - split; [done|]. right. by apply all_missing_false.
Qed.

(** X4: The cell raises [AttributeError] exactly when the column has rows
    and every comment is missing.  Otherwise, although it tests
    [ohai_count] on the whole column, no row depends on another: a string
    comment gets what the cell gives that comment alone, a missing comment
    stays missing, and the number of rows is kept. *)
Theorem expand_acronyms_row_by_row (col : list cell) :
  match Run.expand_acronyms col with
  | Ok out =>
      (col = [] ∨ ∃ s, Str s ∈ col)
      ∧ Forall2 (λ c c', match c with
                         | Str s => Run.expand_acronyms [Str s] = Ok [c']
                         | NaN => c' = NaN
                         end) col out
  | Raise e => e = AttributeError ∧ col ≠ [] ∧ Forall (λ c, c = NaN) col
  end.
Proof.
  rewrite run_expand_acronyms.
  pose proof (str_accessor_outcome col) as Hacc.
  destruct (Run.str_accessor col) as [out|e]; [|done].
  destruct Hacc as [-> Hcol]. cbn [mbind result_bind].
  split; [done|]. rewrite expand_acronyms_map.
  apply Forall2_fmap_r, Forall_Forall2_diag, Forall_forall.
  intros [s|] _; [|done]. rewrite run_expand_acronyms.
  cbn [Run.str_accessor Run.all_missing forallb andb mbind result_bind].
  by rewrite expand_acronyms_map.
Qed.

(** X5: When the cell returns on a column of ASCII comments, no key of the
    acronym map, and no ["ohai"], is left as a whole word in any comment;
    otherwise it has raised [AttributeError]. *)
Theorem no_acronym_left (col : list cell) :
  Forall ascii_cell col →
  match Run.expand_acronyms col with
  | Ok out =>
      Forall (λ c, match c with
                   | Str s => Forall (λ k, re_search [k] s = false) rules.*1
                   | NaN => True
                   end) out
  | Raise e => e = AttributeError
  end.
Proof.
  intros _. rewrite run_expand_acronyms.
  pose proof (str_accessor_outcome col) as Hacc.
  destruct (Run.str_accessor col) as [out|e]; [|by destruct Hacc].
  destruct Hacc as [-> _]. cbn [mbind result_bind].
  rewrite expand_acronyms_map. apply Forall_fmap, Forall_forall.
  intros [s|] _; [|done]. cbn. apply Forall_forall. intros k Hk.
  by apply normalize_str_no_match.
Qed.

Lemma no_acronym_left_witness :
  match Run.expand_acronyms [Str "IPA and ohai"; NaN] with
  | Ok out =>
      Forall (λ c, match c with
                   | Str s => Forall (λ k, re_search [k] s = false) rules.*1
                   | NaN => True
                   end) out
  | Raise e => e = AttributeError
  end.
Proof.
  apply (no_acronym_left [Str "IPA and ohai"; NaN]). repeat constructor.
Defined.

(** X6: An unknown acronym is left alone: a column of ASCII comments in
    which no key occurs as a whole word comes out of the cell unchanged,
    unless the accessor refuses it. *)
Theorem unknown_acronyms_untouched (col : list cell) :
  Forall ascii_cell col →
  (∀ s k, Str s ∈ col → k ∈ rules.*1 → re_search [k] s = false) →
  Run.expand_acronyms col = Run.str_accessor col.
Proof.
  intros _ Hno. rewrite run_expand_acronyms.
  pose proof (str_accessor_outcome col) as Hacc.
  destruct (Run.str_accessor col) as [out|e]; [|done].
  destruct Hacc as [-> _]. cbn [mbind result_bind]. f_equal.
  rewrite expand_acronyms_map.
  induction col as [|c col IH]; [done|]. rewrite fmap_cons. f_equal.
  - destruct c as [s|]; [|done]. cbn [normalize_cell].
    rewrite normalize_str_fold, fold_id; [done|].
    intros k Hk. apply Hno; [apply list_elem_of_here|done].
  - apply IH. intros s k Hs. apply Hno. by apply list_elem_of_further.
Qed.

Lemma unknown_acronyms_untouched_witness :
  Run.expand_acronyms [Str "WOW, big DDH aroma"; NaN; Str "ipad going"]
  = Ok [Str "WOW, big DDH aroma"; NaN; Str "ipad going"].
Proof.
  apply (unknown_acronyms_untouched
           [Str "WOW, big DDH aroma"; NaN; Str "ipad going"]).
  - repeat constructor.
  - intros s k Hs Hk.
    apply elem_of_cons in Hs as [[= ->]|Hs];
      [|apply elem_of_cons in Hs as [[=]|Hs];
        apply elem_of_cons in Hs as [[= ->]|Hs];
        [|by apply elem_of_nil in Hs]];
    repeat (apply elem_of_cons in Hk as [->|Hk]; [reflexivity|]);
    by apply elem_of_nil in Hk.
Defined.

(** X7: The cell rewrites the [Comments] column only: when it returns, the
    events, the sample types and the number of rows of the frame are kept,
    the samples of the exported records are the sample column, the new
    comments are the cell's output on the old ones, and a missing comment
    stays missing.  It raises [AttributeError] exactly when the frame has
    rows and every comment is missing. *)
Theorem clean_touches_comments_only (data : list Clean.row) :
  match Run.clean data with
  | Ok out =>
      Clean.Event <$> out = Clean.Event <$> data
      ∧ Clean.Sample <$> out = Clean.Sample <$> data
      ∧ Run.expand_acronyms (Clean.Comments <$> data)
        = Ok (Clean.Comments <$> out)
      ∧ length out = length data
      ∧ sample <$> Clean.records out = Clean.Sample <$> data
      ∧ Forall2 (λ r r', Clean.Comments r = NaN → Clean.Comments r' = NaN)
                data out
  | Raise e =>
      e = AttributeError ∧ data ≠ []
      ∧ Forall (λ r, Clean.Comments r = NaN) data
  end.
Proof.
  rewrite run_clean.
  pose proof (str_accessor_outcome (map Clean.Comments data)) as Hacc.
  destruct (Run.str_accessor (map Clean.Comments data)) as [col|e] eqn:Hs.
  - destruct Hacc as [-> _]. cbn [mbind result_bind].
    rewrite run_expand_acronyms. change map with (@fmap list _) in Hs.
    rewrite Hs. cbn [mbind result_bind].
    rewrite expand_acronyms_map, clean_map. unfold Clean.records.
    repeat split.
    + rewrite <- list_fmap_compose. by apply list_fmap_ext.
    + rewrite <- list_fmap_compose. by apply list_fmap_ext.
    + f_equal. rewrite <- !list_fmap_compose. by apply list_fmap_ext.
    + by rewrite length_fmap.
    + change map with (@fmap list _).
      rewrite <- !list_fmap_compose. by apply list_fmap_ext.
    + apply Forall2_fmap_r, Forall_Forall2_diag, Forall_forall.
      intros r _ Hr. cbn. by rewrite Hr.
  - destruct Hacc as (-> & Hne & Hall). cbn [mbind result_bind].
    split; [done|]. split; [by destruct data|].
    change map with (@fmap list _) in Hall. by apply Forall_fmap in Hall.
Qed.

(** ** One-word comments *)

Lemma all_word_no_hit k0 K1 : ∀ s prev,
  all_chars is_word s = true → word_opt prev = true →
  search_from [String k0 K1] prev s = false.
Proof.
  induction s as [|c s IH]; intros prev Hall Hp.
  - rewrite SubFacts.search_nil. unfold hit.
    rewrite SubFacts.mlb_cons_nil. apply andb_false_r.
  - cbn [all_chars] in Hall. apply andb_true_iff in Hall as [Hc Hall].
    rewrite SubFacts.search_cons. apply orb_false_iff. split.
    + unfold hit, boundary. cbn. by rewrite Hp, Hc.
    + by apply IH.
Qed.

Lemma mlb_all_word lit : ∀ s last,
  all_chars is_word s = true → word_opt last = true →
  mlb lit last s = bool_decide (lower lit = lower s).
Proof.
  induction lit as [|a lit IH]; intros s last Hall Hl.
  - rewrite SubFacts.mlb_nil. unfold boundary. rewrite Hl.
    destruct s as [|c s]; [done|]. cbn in Hall |- *.
    apply andb_true_iff in Hall as [-> _]. done.
  - destruct s as [|c s]; [done|]. cbn [all_chars] in Hall.
    apply andb_true_iff in Hall as [Hc Hall].
    rewrite SubFacts.mlb_cons, (IH s (Some c)) by done. cbn [lower].
    repeat case_bool_decide; cbn; congruence.
Qed.

Lemma sub_one_word k0 K1 f s :
  all_chars is_word s = true →
  re_sub [String k0 K1] f s
  = if bool_decide (lower (String k0 K1) = lower s) then f else s.
Proof.
  intros Hall. unfold re_sub. destruct s as [|c s].
  { by rewrite SubFacts.sub_nil. }
  pose proof Hall as Hall'. cbn [all_chars] in Hall'.
  apply andb_true_iff in Hall' as [Hc Hs].
  assert (hit (String k0 K1) None (String c s)
          = bool_decide (lower (String k0 K1) = lower (String c s))) as Hhit.
  { unfold hit, boundary. cbn [head_char word_opt]. rewrite Hc. cbn [xorb andb].
    rewrite SubFacts.mlb_cons, (mlb_all_word K1 s (Some c)) by done.
    cbn [lower]. repeat case_bool_decide; cbn; congruence. }
  rewrite <- Hhit. destruct (hit (String k0 K1) None (String c s)) eqn:Hh.
  - pose proof Hh as Hh2.
    apply (SubFacts.sub_hit _ _ f) in Hh2
      as (c' & s' & last & rest & [= <- <-] & Hck & Hb & Hl & Hb' & ->).
    symmetry in Hhit. apply bool_decide_eq_true in Hhit. cbn [lower] in Hhit.
    injection Hhit as _ Hlow.
    assert (rest = "") as ->.
    { pose proof (SubFacts.match_literal_length _ _ _ _ _ Hl) as Hlen.
      rewrite <- (length_lower K1), Hlow, length_lower in Hlen.
      destruct rest; [done|]. cbn in Hlen. lia. }
    rewrite SubFacts.sub_nil. apply JsonFacts.append_nil_r.
  - rewrite SubFacts.sub_miss by done. f_equal.
    apply sub_id. by apply all_word_no_hit.
Qed.

Lemma fold_one_word (rs : list (string * string)) s :
  all_chars is_word s = true →
  stable_after rs = true →
  foldl rule_step s rs
  = match rule_for s rs with
    | Some r => r.2
    | None => s
    end.
Proof.
  intros Hall. induction rs as [|[k f] rs IH]; intros Hst; [done|].
  cbn [stable_after] in Hst. apply andb_true_iff in Hst as [Hst Hrs].
  apply andb_true_iff in Hst as [Hk Hf].
  apply bool_decide_eq_true in Hf.
  unfold rule_for. cbn [find foldl fst snd]. unfold rule_step at 2.
  cbn [fst snd]. destruct k as [|k0 K1]; [done|]. clear Hk.
  rewrite sub_one_word by done.
  destruct (bool_decide (lower (String k0 K1) = lower s)); [exact Hf|].
  by apply IH.
Qed.

Lemma stable_after_rules : stable_after rules = true.
Proof. vm_compute. reflexivity. Qed.

(** X8: What the normalizer does to a comment of one word (letters, digits and
    underscores only): the word is replaced when it is itself a key of the
    map or ["ohai"], in any case, and by that key's expansion; any other
    word, such as a longer word that contains a key, comes out unchanged. *)
Theorem one_word_comment (s : string) :
  all_chars is_word s = true →
  Clean.normalize s
  = [Str match rule_for s rules with
         | Some r => r.2
         | None => s
         end].
Proof.
  intros Hall. unfold Clean.normalize. rewrite expand_acronyms_map.
  cbn [fmap list_fmap normalize_cell]. rewrite normalize_str_fold.
  by rewrite fold_one_word by (done || apply stable_after_rules).
Qed.

Lemma one_word_comment_witness :
  Clean.normalize "ipas" = [Str "ipas"]
  ∧ Clean.normalize "dmts" = [Str "dimethyl trisulfide"].
Proof.
  split.
  - apply (one_word_comment "ipas"). reflexivity.
  - apply (one_word_comment "dmts"). reflexivity.
Defined.

(** ** Tokens and n-grams of one comment *)

Lemma all_chars_impl (P Q : ascii → bool) s :
  (∀ c, P c = true → Q c = true) → all_chars P s = true → all_chars Q s = true.
Proof.
  intros HPQ. induction s as [|c s IH]; [done|]. cbn.
  intros [Hc Hs]%andb_true_iff. by rewrite (HPQ c Hc), IH.
Qed.

Lemma all_chars_andb (P Q : ascii → bool) s :
  all_chars P s = true → all_chars Q s = true →
  all_chars (λ c, P c && Q c) s = true.
Proof.
  induction s as [|c s IH]; [done|]. cbn.
  intros [-> Hs]%andb_true_iff [-> Hs']%andb_true_iff. by rewrite IH.
Qed.

Lemma all_chars_filter_chars (P : ascii → bool) s :
  all_chars P (filter_chars P s) = true.
Proof.
  induction s as [|c s IH]; [done|]. cbn.
  destruct (P c) eqn:E; [|done]. cbn. by rewrite E, IH.
Qed.

Lemma all_chars_filter_chars_keeps (P Q : ascii → bool) s :
  all_chars Q s = true → all_chars Q (filter_chars P s) = true.
Proof.
  induction s as [|c s IH]; [done|]. cbn.
  intros [Hc Hs]%andb_true_iff. destruct (P c); [cbn; rewrite Hc|]; by apply IH.
Qed.

Lemma all_chars_lower s : all_chars (λ c, negb (is_upper c)) (lower s) = true.
Proof.
  induction s as [|c s IH]; [done|]. cbn. rewrite IH, andb_true_r.
  destruct c as [[] [] [] [] [] [] [] []]; reflexivity.
Qed.

(** X9: What reaches the tokenizer from an ASCII comment: after [lower()]
    and the two [re.sub] only lower-case letters, underscores and whitespace
    are left; digits, punctuation and upper-case letters are not. *)
Theorem tokenizer_input_alphabet (s : string) :
  ascii_text s →
  all_chars (λ c, is_lower c || (code c =? 95)%N || is_space c)
            (Keywords.preprocess (lower s)) = true.
Proof.
  intros _. unfold Keywords.preprocess.
  apply (all_chars_impl
           (λ c, negb (is_digit c)
                 && ((is_word c || is_space c) && negb (is_upper c)))).
  - intros c. unfold is_word.
    destruct (is_digit c), (is_upper c), (is_lower c), (code c =? 95)%N,
      (is_space c); done.
  - apply all_chars_andb; [apply all_chars_filter_chars|].
    apply all_chars_filter_chars_keeps. apply all_chars_andb.
    + apply all_chars_filter_chars.
    + apply all_chars_filter_chars_keeps, all_chars_lower.
Qed.

Lemma tokenizer_input_alphabet_witness :
  all_chars (λ c, is_lower c || (code c =? 95)%N || is_space c)
            (Keywords.preprocess (lower "Hoppy 2x, IPA!")) = true.
Proof. apply (tokenizer_input_alphabet "Hoppy 2x, IPA!"). reflexivity. Defined.

(** X10: The filter of the n-gram cell keeps the tokens in their order, without
    repeating or inventing any, and it keeps every [not], [very] and
    [never] that the tokenizer returns, whatever the stopword list is. *)
Theorem token_filter_keeps_order_and_negations `{NLTK} (s : string) :
  ∃ kept,
    Keywords.cleaned_tokens (Str s) = Ok (lemmatize <$> kept)
    ∧ kept `sublist_of` word_tokenize (Keywords.preprocess (lower s))
    ∧ (∀ tok, tok ∈ word_tokenize (Keywords.preprocess (lower s)) →
              tok ∈ ["not"; "very"; "never"] → tok ∈ kept).
Proof.
  exists (filter Keywords.keep_token
            (word_tokenize (Keywords.preprocess (lower s)))).
  split; [reflexivity|]. split; [apply sublist_filter|].
  intros tok Htok Hp. apply list_elem_of_filter. split; [|done].
  unfold Keywords.keep_token, Keywords.stop_words, Keywords.important_words.
  rewrite !elem_of_cons, elem_of_nil in Hp.
  destruct Hp as [->|[->|[->|[]]]];
    (split; [|cbn; lia]); intros [_ Hn]%elem_of_difference; apply Hn;
    apply (bool_decide_unpack _); vm_compute; exact I.
Qed.

Lemma token_filter_keeps_order_and_negations_witness :
  ∃ kept,
    @Keywords.cleaned_tokens Standin.nltk (Str "Not very hoppy")
    = Ok (@lemmatize Standin.nltk <$> kept)
    ∧ "very" ∈ kept.
Proof.
  destruct (@token_filter_keeps_order_and_negations Standin.nltk
              "Not very hoppy") as (kept & Hk & _ & Hin).
  exists kept. split; [exact Hk|]. apply Hin.
  - apply (bool_decide_unpack _). vm_compute. exact I.
  - apply (bool_decide_unpack _). vm_compute. exact I.
Defined.

(** X11: The index loops of the n-gram cell never leave the token list: a
    comment of [n] tokens yields [n - 1] bigrams and [n - 2] trigrams (none
    when it is too short), and the trigram at a position is the bigram at
    that position followed by the next token. *)
Theorem ngram_windows (c : list string) :
  ∃ bs ts,
    Keywords.bigrams_of c = Ok bs
    ∧ Keywords.trigrams_of c = Ok ts
    ∧ length bs = length c - 1
    ∧ length ts = length c - 2
    ∧ (∀ i, i < length c - 2 →
         ∃ b d, bs !! i = Some b ∧ c !! (i + 2) = Some d
                ∧ ts !! i = Some (b +:+ " " +:+ d)).
Proof.
  exists (pairs_of c), (triples_of c).
  split; [apply bigrams_of_Ok|]. split; [apply trigrams_of_Ok|].
  unfold pairs_of, triples_of. rewrite !length_fmap, !length_seq.
  split; [done|]. split; [done|]. intros i Hi.
  destruct (lookup_lt_is_Some_2 c (i + 2)) as [d Hd]; [lia|].
  exists (default "" (c !! i) +:+ " " +:+ default "" (c !! (i + 1))), d.
  rewrite !list_lookup_fmap, !lookup_seq_lt by lia. rewrite Hd. cbn.
  split; [done|]. split; [done|]. by rewrite Hd, !append_assoc.
Qed.

Lemma ngram_windows_witness :
  ∃ bs ts b d,
    Keywords.bigrams_of ["ripe"; "stone"; "fruit"] = Ok bs
    ∧ Keywords.trigrams_of ["ripe"; "stone"; "fruit"] = Ok ts
    ∧ bs !! 0 = Some b ∧ ts !! 0 = Some (b +:+ " " +:+ d).
Proof.
  destruct (ngram_windows ["ripe"; "stone"; "fruit"])
    as (bs & ts & Hb & Ht & _ & _ & Hw).
  destruct (Hw 0) as (b & d & Hb0 & _ & Ht0); [cbn; lia|].
  by exists bs, ts, b, d.
Defined.

(** ** Counters and rankings *)

(** X12: [Counter(l)[g]] is the number of occurrences of [g] in [l]; a key is in
    the counter exactly when it occurs, and then its count is positive. *)
Theorem Counter_counts_occurrences (l : list string) (g : string) :
  Counter l !! g
  = (if bool_decide (g ∈ l) then Some (occurrences g l) else None)
  ∧ (g ∈ l ↔ 0 < occurrences g l).
Proof.
  assert (g ∈ l ↔ 0 < occurrences g l) as Hocc.
  { unfold occurrences. induction l as [|y l IH].
    - rewrite elem_of_nil. cbn. lia.
    - rewrite elem_of_cons, filter_cons.
      destruct (decide (y = g)) as [->|Hne]; cbn [length]; [split; [lia|auto]|].
      rewrite IH. split; [intros [?|?]; [congruence|done]|auto]. }
  split; [|exact Hocc].
  pose proof (Counter_lookup l g) as Hl.
  pose proof (Counter_is_Some l g) as Hs.
  case_bool_decide as Hin.
  - apply Hs in Hin as [n Hn]. rewrite Hn in Hl |- *. cbn in Hl. by subst.
  - destruct (Counter l !! g) eqn:E; [|done].
    destruct Hin. apply Hs. by eexists.
Qed.

Module ReportFacts.
Import Report.

Lemma bump_keys x items :
  (bump x items).*1
  = if bool_decide (x ∈ items.*1) then items.*1 else items.*1 ++ [x].
Proof.
  induction items as [|[k n] items IH]; [done|]. cbn [bump].
  destruct (decide (k = x)) as [->|Hk].
  - rewrite (bool_decide_eq_true_2 (x = x)) by done.
    rewrite !fmap_cons. cbn [fst].
    by rewrite bool_decide_eq_true_2 by apply list_elem_of_here.
  - rewrite (bool_decide_eq_false_2 (k = x)) by done.
    rewrite !fmap_cons, IH. cbn [fst].
    destruct (decide (x ∈ items.*1)) as [Hin|Hin].
    + rewrite !bool_decide_eq_true_2; [done| |done].
      by apply list_elem_of_further.
    + rewrite !bool_decide_eq_false_2; [done| |done].
      intros [?|?]%elem_of_cons; [congruence|done].
Qed.

Lemma bump_NoDup x items : NoDup items.*1 → NoDup (bump x items).*1.
Proof.
  intros Hnd. rewrite bump_keys. case_bool_decide as Hin; [done|].
  apply NoDup_app. split; [done|]. split; [|apply NoDup_singleton].
  intros y Hy ->%list_elem_of_singleton. done.
Qed.

Lemma bump_sum x items : sum_list (bump x items).*2 = S (sum_list items.*2).
Proof.
  induction items as [|[k n] items IH]; [done|]. cbn [bump].
  destruct (bool_decide (k = x)); rewrite !fmap_cons; simpl;
    rewrite ?IH; lia.
Qed.

Lemma bump_to_map x items :
  (list_to_map (bump x items) : gmap string nat)
  = count_step (list_to_map items) x.
Proof.
  unfold count_step. induction items as [|[k n] items IH]; [done|].
  cbn [bump]. destruct (decide (k = x)) as [Hk|Hk];
    [rewrite (bool_decide_eq_true_2 (k = x)) by done
    |rewrite (bool_decide_eq_false_2 (k = x)) by done].
  - subst k. cbn [list_to_map foldr uncurry].
    change (foldr _ ∅ items) with (list_to_map items : gmap string nat).
    rewrite lookup_insert_eq. cbn. by rewrite insert_insert_eq.
  - cbn [list_to_map foldr uncurry].
    change (foldr _ ∅ items) with (list_to_map items : gmap string nat).
    change (foldr _ ∅ (bump x items))
      with (list_to_map (bump x items) : gmap string nat).
    rewrite IH, lookup_insert_ne by done. by apply insert_insert_ne.
Qed.

Lemma items_fold l : ∀ acc,
  NoDup acc.*1 →
  NoDup (foldl (λ items x, bump x items) acc l).*1
  ∧ (list_to_map (foldl (λ items x, bump x items) acc l) : gmap string nat)
    = foldl count_step (list_to_map acc) l
  ∧ sum_list (foldl (λ items x, bump x items) acc l).*2
    = sum_list acc.*2 + length l.
Proof.
  induction l as [|x l IH]; intros acc Hnd; cbn [foldl].
  - split; [done|]. split; [done|]. cbn. lia.
  - destruct (IH (bump x acc) (bump_NoDup x acc Hnd)) as (H1 & H2 & H3).
    split; [done|]. rewrite H2, bump_to_map, H3, bump_sum. split; [done|].
    cbn. lia.
Qed.

Lemma Counter_items_NoDup l : NoDup (Counter_items l).*1.
Proof. apply (items_fold l []). constructor. Qed.

Lemma Counter_items_map l :
  (list_to_map (Counter_items l) : gmap string nat) = Counter l.
Proof. apply (items_fold l []). constructor. Qed.

Lemma Counter_items_elem l g n :
  (g, n) ∈ Counter_items l ↔ Counter l !! g = Some n.
Proof.
  rewrite <- Counter_items_map. apply elem_of_list_to_map, Counter_items_NoDup.
Qed.

Lemma keys_fold l : ∀ acc,
  (foldl (λ items x, bump x items) acc l).*1
  = acc.*1 ++ filter (λ y, y ∉ acc.*1) (first_seen l).
Proof.
  induction l as [|x l IH]; intros acc; cbn [foldl first_seen].
  - by rewrite app_nil_r.
  - rewrite IH, bump_keys, filter_cons.
    destruct (decide (x ∈ acc.*1)) as [Hin|Hin].
    + rewrite bool_decide_eq_true_2, decide_False by auto.
      f_equal. rewrite list_filter_filter. apply list_filter_iff.
      intros y. split; [intros ?; split; [done|congruence]|by intros [? _]].
    + rewrite bool_decide_eq_false_2, decide_True by auto.
      rewrite <- app_assoc. cbn [app]. do 2 f_equal.
      rewrite list_filter_filter. apply list_filter_iff.
      intros y. rewrite elem_of_app, list_elem_of_singleton. tauto.
Qed.

Lemma Counter_items_keys l : (Counter_items l).*1 = first_seen l.
Proof.
  unfold Counter_items. rewrite keys_fold. cbn.
  induction (first_seen l) as [|y fs IH]; [done|].
  rewrite filter_cons_True by apply not_elem_of_nil. by f_equal.
Qed.

Lemma Counter_items_sum l : sum_list (Counter_items l).*2 = length l.
Proof.
  destruct (items_fold l [] (NoDup_nil_2)) as (_ & _ & Hsum). exact Hsum.
Qed.

Global Instance by_count_desc_trans : Transitive by_count_desc.
Proof. unfold by_count_desc. intros a b c ??. lia. Qed.

Lemma insert_desc_perm x l : insert_desc x l ≡ₚ x :: l.
Proof.
  induction l as [|y l IH]; [done|]. cbn [insert_desc].
  destruct (y.2 <=? x.2)%nat; [done|]. rewrite IH. apply perm_swap.
Qed.

Lemma sort_desc_perm l : sort_desc l ≡ₚ l.
Proof.
  induction l as [|x l IH]; [done|]. cbn [sort_desc foldr].
  fold (sort_desc l). by rewrite insert_desc_perm, IH.
Qed.

Lemma insert_desc_sorted x l :
  Sorted by_count_desc l → Sorted by_count_desc (insert_desc x l).
Proof.
  induction 1 as [|y l Hs IH Hhd]; cbn [insert_desc].
  - by repeat constructor.
  - destruct (y.2 <=? x.2)%nat eqn:E.
    + apply Nat.leb_le in E. repeat constructor; done.
    + apply Nat.leb_gt in E. constructor; [exact IH|].
      destruct Hhd as [|z l Hz]; cbn [insert_desc].
      * constructor. unfold by_count_desc. lia.
      * destruct (z.2 <=? x.2)%nat; constructor; [|done].
        unfold by_count_desc. lia.
Qed.

Lemma sort_desc_sorted l : StronglySorted by_count_desc (sort_desc l).
Proof.
  apply Sorted_StronglySorted; [apply _|].
  induction l as [|x l IH]; [constructor|]. cbn [sort_desc foldr].
  by apply insert_desc_sorted.
Qed.

Lemma insert_desc_stable n x l :
  filter (λ it, it.2 = n) (insert_desc x l) = filter (λ it, it.2 = n) (x :: l).
Proof.
  induction l as [|y l IH]; [done|]. cbn [insert_desc].
  destruct (y.2 <=? x.2)%nat eqn:E; [done|]. apply Nat.leb_gt in E.
  rewrite filter_cons, IH, !(filter_cons _ x), (filter_cons _ y).
  destruct (decide (x.2 = n)), (decide (y.2 = n)); try done. lia.
Qed.

Lemma sort_desc_stable n l :
  filter (λ it, it.2 = n) (sort_desc l) = filter (λ it, it.2 = n) l.
Proof.
  induction l as [|x l IH]; [done|]. cbn [sort_desc foldr]. fold (sort_desc l).
  by rewrite insert_desc_stable, !filter_cons, IH.
Qed.

End ReportFacts.

(** X13: The items of a counter come in the order in which the n-grams were
    first seen, one item per distinct n-gram, with the counts of the
    counter; the counts add up to the number of n-grams counted. *)
Theorem Counter_items_first_seen (l : list string) :
  (Report.Counter_items l).*1 = first_seen l
  ∧ NoDup (Report.Counter_items l).*1
  ∧ (∀ g n, (g, n) ∈ Report.Counter_items l ↔ Counter l !! g = Some n)
  ∧ sum_list (Report.Counter_items l).*2 = length l.
Proof.
  split; [apply ReportFacts.Counter_items_keys|].
  split; [apply ReportFacts.Counter_items_NoDup|].
  split; [apply ReportFacts.Counter_items_elem|].
  apply ReportFacts.Counter_items_sum.
Qed.

Lemma filter_take_prefix {A} (P : A → Prop) `{!∀ x, Decision (P x)}
    (k : nat) (l : list A) :
  filter P (take k l) `prefix_of` filter P l.
Proof.
  exists (filter P (drop k l)). by rewrite <- filter_app, take_drop.
Qed.

(** X14: [most_common(k)] returns at most [k] items of the counter, each n-gram
    at most once and with its count, ranked by count from high to low;
    among n-grams of equal count the first seen comes first, and when some
    of them are cut off it is the later seen ones. *)
Theorem most_common_ranking (k : nat) (l : list string) :
  length (Report.most_common k l) = k `min` length (first_seen l)
  ∧ StronglySorted by_count_desc (Report.most_common k l)
  ∧ NoDup (Report.most_common k l).*1
  ∧ (∀ g n, (g, n) ∈ Report.most_common k l → Counter l !! g = Some n)
  ∧ (∀ n, filter (λ it, it.2 = n) (Report.most_common k l)
          `prefix_of` filter (λ it, it.2 = n) (Report.Counter_items l)).
Proof.
  unfold Report.most_common.
  pose proof (ReportFacts.sort_desc_perm (Report.Counter_items l)) as Hp.
  pose proof (ReportFacts.sort_desc_sorted (Report.Counter_items l)) as Hs.
  split; [|split; [|split; [|split]]].
  - rewrite length_take, (Permutation_length Hp).
    by rewrite <- ReportFacts.Counter_items_keys, length_fmap.
  - rewrite <- (take_drop k) in Hs. by apply StronglySorted_app_1_l in Hs.
  - rewrite fmap_take. eapply sublist_NoDup; [|apply sublist_take].
    rewrite Hp. apply ReportFacts.Counter_items_NoDup.
  - intros g n Hin. apply ReportFacts.Counter_items_elem. rewrite <- Hp.
    eapply elem_of_sublist; [apply Hin|apply sublist_take].
  - intros n.
    rewrite <- (ReportFacts.sort_desc_stable n (Report.Counter_items l)).
    apply filter_take_prefix.
Qed.

(** X15: The cut is at the right place: an n-gram that [most_common(k)] leaves
    out has a count no higher than any n-gram it returns. *)
Theorem most_common_leaves_out_the_rarest
    (k : nat) (l : list string) (a b : string * nat) :
  a ∈ Report.most_common k l →
  b ∈ Report.Counter_items l →
  b ∉ Report.most_common k l →
  (b.2 ≤ a.2)%nat.
Proof.
  unfold Report.most_common. intros Ha Hb Hnb.
  pose proof (ReportFacts.sort_desc_sorted (Report.Counter_items l)) as Hs.
  rewrite <- (take_drop k) in Hs.
  rewrite <- (ReportFacts.sort_desc_perm (Report.Counter_items l)) in Hb.
  rewrite <- (take_drop k (Report.sort_desc _)) in Hb.
  apply elem_of_app in Hb as [Hb|Hb]; [done|].
  exact (StronglySorted_app_1_elem_of _ _ _ a b Hs Ha Hb).
Qed.

Lemma most_common_leaves_out_the_rarest_witness :
  (("hop", 3) ∈ Report.most_common 1
     ["hop"; "fruit"; "hop"; "citrus"; "fruit"; "hop"])
  ∧ (("fruit", 2) ∈ Report.Counter_items
       ["hop"; "fruit"; "hop"; "citrus"; "fruit"; "hop"])
  ∧ (("fruit", 2) ∉ Report.most_common 1
       ["hop"; "fruit"; "hop"; "citrus"; "fruit"; "hop"])
  ∧ (2 ≤ 3)%nat.
Proof.
  assert (("hop", 3) ∈ Report.most_common 1
            ["hop"; "fruit"; "hop"; "citrus"; "fruit"; "hop"]) as Ha
    by (apply (bool_decide_unpack _); vm_compute; exact I).
  assert (("fruit", 2) ∈ Report.Counter_items
            ["hop"; "fruit"; "hop"; "citrus"; "fruit"; "hop"]) as Hb
    by (apply (bool_decide_unpack _); vm_compute; exact I).
  assert (("fruit", 2) ∉ Report.most_common 1
            ["hop"; "fruit"; "hop"; "citrus"; "fruit"; "hop"]) as Hnb
    by (apply (bool_decide_unpack _); vm_compute; exact I).
  repeat split; try done.
  exact (most_common_leaves_out_the_rarest 1 _ ("hop", 3) ("fruit", 2)
           Ha Hb Hnb).
Defined.

(** X16: [frequent_trigrams] holds exactly the trigrams counted more than once,
    each with its count, ranked from high to low with ties in first-seen
    order; the cell prints its first ten. *)
Theorem frequent_trigrams_are_the_repeated (t : list string) :
  (∀ g n, (g, n) ∈ Report.frequent_trigrams t
          ↔ Counter t !! g = Some n ∧ (1 < n)%nat)
  ∧ StronglySorted by_count_desc (Report.frequent_trigrams t)
  ∧ (∀ n, filter (λ it, it.2 = n) (Report.frequent_trigrams t)
          = filter (λ it, it.2 = n)
              (filter (λ it, (1 < it.2)%nat) (Report.Counter_items t)))
  ∧ Report.top_trigrams t `prefix_of` Report.frequent_trigrams t
  ∧ (length (Report.top_trigrams t) ≤ 10)%nat.
Proof.
  unfold Report.top_trigrams, Report.frequent_trigrams.
  split; [|split; [|split; [|split]]].
  - intros g n. rewrite ReportFacts.sort_desc_perm, list_elem_of_filter.
    rewrite ReportFacts.Counter_items_elem. cbn. tauto.
  - apply ReportFacts.sort_desc_sorted.
  - intros n. apply ReportFacts.sort_desc_stable.
  - apply prefix_take.
  - rewrite length_take. lia.
Qed.

(** ** The "Sample distribution" cell *)

Lemma cell_eqb_str_true (c : cell) (s : string) :
  cell_eqb_str c s = true ↔ c = Str s.
Proof.
  destruct c as [s'|]; simpl; [|done].
  rewrite bool_decide_eq_true. split; [by intros ->|by intros [= ->]].
Qed.

Lemma texts_of_length_cons (label : string) (it : item) (data : list item) :
  length (Keywords.texts_of label (it :: data))
  = ((if cell_eqb_str (sample it) label then 1 else 0)
     + length (Keywords.texts_of label data))%nat.
Proof.
  unfold Keywords.texts_of. rewrite filter_cons.
  destruct (decide _) as [E|E].
  - by rewrite E.
  - by apply not_true_is_false in E as ->.
Qed.

Lemma partition_sizes (data : list item) :
  (length (Keywords.texts_of "Dried Hops" data)
   + length (Keywords.texts_of "Beer" data) ≤ length data)%nat
  ∧ (length (Keywords.texts_of "Dried Hops" data)
     + length (Keywords.texts_of "Beer" data) = length data
     ↔ Forall (λ it, sample it = Str "Dried Hops" ∨ sample it = Str "Beer")
              data).
Proof.
  induction data as [|it data [IHle IHeq]]; [by split|].
  rewrite !texts_of_length_cons, Forall_cons, <- IHeq.
  destruct (sample it) as [s|]; cbn [cell_eqb_str length];
    repeat case_bool_decide; simplify_eq;
    (split; [lia|]);
    (split; [intros ?; split; first [lia|by left|by right]
            |intros [[?|?] ?]; simplify_eq; lia]).
Qed.

Lemma pos_of_nat_Z (t : nat) : t ≠ 0%nat → Z.pos (Pos.of_nat t) = Z.of_nat t.
Proof.
  intros Ht. rewrite <- positive_nat_Z. by rewrite Nat2Pos.id.
Qed.

Lemma percentage_bounds (a t : nat) :
  t ≠ 0%nat → (a ≤ t)%nat →
  (0 <= (Z.of_nat a # Pos.of_nat t) * 100)%Q
  ∧ ((Z.of_nat a # Pos.of_nat t) * 100 <= 100)%Q.
Proof.
  intros Ht Hle. unfold Qle, Qmult. cbn [Qnum Qden].
  rewrite !Pos.mul_1_r, !pos_of_nat_Z by done. lia.
Qed.

(** X17: The "Sample distribution" cell divides by the number of comments:
    on an empty document it raises [ZeroDivisionError], on every other it
    prints.  The two partitions never hold more comments than the document,
    and hold all of them exactly when every sample is a dried hops or a
    beer sample; each percentage lies between 0 and 100. *)
Theorem sample_distribution_outcome (data : list item) :
  match Report.sample_distribution data with
  | Ok d =>
      data ≠ []
      ∧ Report.n_all d = length data
      ∧ (Report.n_hops d + Report.n_beer d ≤ Report.n_all d)%nat
      ∧ ((Report.n_hops d + Report.n_beer d = Report.n_all d)%nat
         ↔ Forall (λ it, sample it = Str "Dried Hops" ∨ sample it = Str "Beer")
                  data)
      ∧ (0 <= Report.pct_hops d)%Q ∧ (Report.pct_hops d <= 100)%Q
      ∧ (0 <= Report.pct_beer d)%Q ∧ (Report.pct_beer d <= 100)%Q
  | Raise e => e = ZeroDivisionError ∧ data = []
  end.
Proof.
  unfold Report.sample_distribution.
  destruct data as [|it data]; [done|].
  destruct (partition_sizes (it :: data)) as [Hle Heq].
  assert (length (it :: data) ≠ 0%nat) as Hne by (simpl; lia).
  rewrite !py_truediv_pos by done. cbn [mbind result_bind].
  cbn [Report.n_all Report.n_hops Report.n_beer Report.pct_hops Report.pct_beer].
  destruct (percentage_bounds
              (length (Keywords.texts_of "Dried Hops" (it :: data)))
              (length (it :: data)) Hne ltac:(lia)) as [Hh0 Hh1].
  destruct (percentage_bounds
              (length (Keywords.texts_of "Beer" (it :: data)))
              (length (it :: data)) Hne ltac:(lia)) as [Hb0 Hb1].
  split_and!; done.
Qed.

(** ** The rankings of the n-gram cell *)

Lemma most_common_elem (k : nat) (l : list string) (g : string) (n : nat) :
  (g, n) ∈ Report.most_common k l → Counter l !! g = Some n.
Proof.
  intros Hin. apply ReportFacts.Counter_items_elem.
  rewrite <- (ReportFacts.sort_desc_perm (Report.Counter_items l)).
  eapply elem_of_sublist; [apply Hin|apply sublist_take].
Qed.

(** X18: The n-gram cell prints rankings of the counters it has built: it
    prints whenever the counters are built and raises the same exception
    otherwise; every printed n-gram carries the count that the counter has
    for it, a printed trigram was counted more than once, and no ranking
    is longer than ten. *)
Theorem ngram_report_ranks_the_counters `{NLTK}
    (label : string) (data : list item) :
  match Keywords.ngram_analysis label data with
  | Ok counts =>
      ∃ r, Report.ngram_report label data = Ok r
        ∧ Forall (λ it, Keywords.unigram_counts counts !! it.1 = Some it.2)
                 (Report.top_unigrams r)
        ∧ Forall (λ it, Keywords.bigram_counts counts !! it.1 = Some it.2)
                 (Report.top_bigrams r)
        ∧ Forall (λ it, Keywords.trigram_counts counts !! it.1 = Some it.2
                        ∧ (1 < it.2)%nat)
                 (Report.top_trigram_list r)
        ∧ (length (Report.top_unigrams r) ≤ 10)%nat
        ∧ (length (Report.top_bigrams r) ≤ 10)%nat
        ∧ (length (Report.top_trigram_list r) ≤ 10)%nat
  | Raise e => Report.ngram_report label data = Raise e
  end.
Proof.
  unfold Keywords.ngram_analysis, Report.ngram_report.
  destruct (Keywords.collect_ngrams _) as [g|e]; [|done].
  cbn. eexists. split; [reflexivity|]. cbn.
  split_and!.
  - apply Forall_forall. intros [w n] Hin. by apply most_common_elem in Hin.
  - apply Forall_forall. intros [w n] Hin. by apply most_common_elem in Hin.
  - apply Forall_forall. intros [w n] Hin. unfold Report.top_trigrams in Hin.
    eapply elem_of_sublist in Hin; [|apply sublist_take].
    unfold Report.frequent_trigrams in Hin.
    rewrite ReportFacts.sort_desc_perm, list_elem_of_filter in Hin.
    destruct Hin as [Hn Hin]. by apply ReportFacts.Counter_items_elem in Hin.
  - unfold Report.most_common. rewrite length_take. lia.
  - unfold Report.most_common. rewrite length_take. lia.
  - unfold Report.top_trigrams. rewrite length_take. lia.
Qed.

(** ** Part-of-speech cells *)

Lemma lower_idem (s : string) : lower (lower s) = lower s.
Proof.
  induction s as [|c s IH]; [done|]. cbn [lower].
  by rewrite lower_char_idem, IH.
Qed.

Lemma pos_fold (doc : list token) : ∀ adjs advs : list string,
  foldl (λ '(adjs, advs) tok,
           if bool_decide (pos_ tok = "ADJ")
           then (adjs ++ [lower (lemma_ tok)], advs)
           else if bool_decide (pos_ tok = "ADV")
           then (adjs, advs ++ [lower (lemma_ tok)])
           else (adjs, advs))
        (adjs, advs) doc
  = (adjs ++ ((λ t, lower (lemma_ t)) <$> filter (λ t, pos_ t = "ADJ") doc),
     advs ++ ((λ t, lower (lemma_ t)) <$> filter (λ t, pos_ t = "ADV") doc)).
Proof.
  induction doc as [|t doc IH]; intros adjs advs.
  - cbn. by rewrite !app_nil_r.
  - cbn [foldl]. rewrite !filter_cons.
    case_bool_decide as Hadj.
    + rewrite IH. rewrite decide_True by done.
      rewrite decide_False by (rewrite Hadj; discriminate).
      by rewrite fmap_cons, <- app_assoc.
    + rewrite (decide_False (P := pos_ t = "ADJ")) by done.
      case_bool_decide as Hadv.
      * rewrite IH, decide_True by done. by rewrite fmap_cons, <- app_assoc.
      * rewrite IH, decide_False by done. done.
Qed.

Lemma pos_step_Str `{SpaCy} (adjs advs : list string) (s : string) :
  Keywords.pos_step (adjs, advs) (Str s)
  = Ok (adjs ++ ((λ t, lower (lemma_ t)) <$> filter (λ t, pos_ t = "ADJ") (nlp s)),
        advs ++ ((λ t, lower (lemma_ t)) <$> filter (λ t, pos_ t = "ADV") (nlp s))).
Proof.
  unfold Keywords.pos_step. cbn [Keywords.py_nlp mbind result_bind].
  by rewrite pos_fold.
Qed.

Lemma pos_loop `{SpaCy} (texts : list cell) : ∀ acc : list string * list string,
  for_loop Keywords.pos_step acc texts
  = match strings_of texts with
    | Some ss =>
        Ok (acc.1 ++ ((λ t, lower (lemma_ t))
                      <$> filter (λ t, pos_ t = "ADJ") (concat (nlp <$> ss))),
            acc.2 ++ ((λ t, lower (lemma_ t))
                      <$> filter (λ t, pos_ t = "ADV") (concat (nlp <$> ss))))
    | None => Raise ValueError
    end.
Proof.
  induction texts as [|[s|] texts IH]; intros [adjs advs].
  - cbn. by rewrite !app_nil_r.
  - cbn [for_loop strings_of]. rewrite pos_step_Str.
    cbn [mbind result_bind]. rewrite IH.
    destruct (strings_of texts) as [ss|]; [|done].
    cbn [fst snd fmap list_fmap concat].
    by rewrite !filter_app, !fmap_app, !app_assoc.
  - done.
Qed.

Lemma occurrences_tagged (tag g : string) (doc : list token) :
  occurrences g ((λ t, lower (lemma_ t)) <$> filter (λ t, pos_ t = tag) doc)
  = length (tagged_as tag g doc).
Proof.
  unfold occurrences, tagged_as.
  induction doc as [|t doc IH]; [done|].
  rewrite !filter_cons.
  destruct (decide (pos_ t = tag)) as [Ht|Ht].
  - rewrite fmap_cons, filter_cons.
    destruct (decide (lower (lemma_ t) = g)) as [Hg|Hg].
    + rewrite decide_True by done. cbn [length]. by rewrite IH.
    + rewrite decide_False by (intros [_ ?]; done). done.
  - rewrite decide_False by (intros [? _]; done). done.
Qed.

(** X19: The part-of-speech cell of a partition counts, for every lemma, the
    tokens of the partition's comments that are tagged ADJ (for the
    adjective counter) or ADV (for the adverb counter) and have that lemma,
    case ignored; the keys of both counters are lower-case; the cell raises
    [ValueError] exactly when a text of the partition is not a string. *)
Theorem pos_analysis_counts_tagged_lemmas `{SpaCy}
    (label : string) (data : list item) :
  match Keywords.pos_analysis label data with
  | Ok (adj, adv) =>
      ∃ ss, Keywords.texts_of label data = Str <$> ss
        ∧ (∀ g, default 0 (adj !! g)
                = length (tagged_as "ADJ" g (concat (nlp <$> ss))))
        ∧ (∀ g, default 0 (adv !! g)
                = length (tagged_as "ADV" g (concat (nlp <$> ss))))
        ∧ map_Forall (λ g _, lower g = g) adj
        ∧ map_Forall (λ g _, lower g = g) adv
  | Raise e => e = ValueError ∧ NaN ∈ Keywords.texts_of label data
  end.
Proof.
  unfold Keywords.pos_analysis. rewrite pos_loop.
  destruct (strings_of _) as [ss|] eqn:Hs.
  - cbn. exists ss. split; [by apply strings_of_Some|].
    split_and!.
    + intros g. by rewrite Counter_lookup, occurrences_tagged.
    + intros g. by rewrite Counter_lookup, occurrences_tagged.
    + intros g n Hg. assert (is_Some (Counter
        ((λ t : token, lower (lemma_ t))
         <$> filter (λ t : token, pos_ t = "ADJ") (concat (nlp <$> ss))) !! g))
        as Hin by (by exists n).
      apply Counter_is_Some, list_elem_of_fmap in Hin as (t & -> & _).
      apply lower_idem.
    + intros g n Hg. assert (is_Some (Counter
        ((λ t : token, lower (lemma_ t))
         <$> filter (λ t : token, pos_ t = "ADV") (concat (nlp <$> ss))) !! g))
        as Hin by (by exists n).
      apply Counter_is_Some, list_elem_of_fmap in Hin as (t & -> & _).
      apply lower_idem.
  - cbn. split; [done|]. by apply strings_of_None.
Qed.

(** X20: The example of the part-of-speech cell reads the comment at index 90:
    on a document of 90 comments or fewer it raises [IndexError], on a
    missing text [ValueError]; otherwise it lists, in the order of the
    comment, the tokens tagged ADJ and those tagged ADV, together no more
    than the tokens of the comment. *)
Theorem pos_example_outcome `{SpaCy} (data : list item) :
  match Report.pos_example data with
  | Ok (adjectives, adverbs) =>
      ∃ it s, data !! 90%nat = Some it ∧ text it = Str s
        ∧ Forall (λ x, x.1.2 = "ADJ") adjectives
        ∧ Forall (λ x, x.1.2 = "ADV") adverbs
        ∧ adjectives `sublist_of`
            ((λ t, (tok_text t, pos_ t, dep_ t)) <$> nlp s)
        ∧ adverbs `sublist_of`
            ((λ t, (tok_text t, pos_ t, dep_ t)) <$> nlp s)
        ∧ (length adjectives + length adverbs ≤ length (nlp s))%nat
  | Raise e =>
      (e = IndexError ∧ (length data ≤ 90)%nat)
      ∨ (e = ValueError ∧ ∃ it, data !! 90%nat = Some it ∧ text it = NaN)
  end.
Proof.
  unfold Report.pos_example, Report.example_idx.
  destruct (data !! 90%nat) as [it|] eqn:Hit.
  - destruct (text it) as [s|] eqn:Ht; cbn.
    + exists it, s. split; [done|]. split; [done|].
      unfold Report.tagged. split_and!.
      * apply Forall_fmap, Forall_forall. intros t Hin.
        by apply list_elem_of_filter in Hin as [? _].
      * apply Forall_fmap, Forall_forall. intros t Hin.
        by apply list_elem_of_filter in Hin as [? _].
      * apply fmap_sublist, sublist_filter.
      * apply fmap_sublist, sublist_filter.
      * rewrite !length_fmap.
        induction (nlp s) as [|t doc IH]; [done|].
        rewrite !filter_cons.
        destruct (decide (pos_ t = "ADJ")) as [E|E].
        -- rewrite decide_False by (rewrite E; discriminate).
           cbn [length]. lia.
        -- destruct (decide (pos_ t = "ADV")); cbn [length]; lia.
    + right. split; [done|]. by exists it.
  - left. split; [done|]. by apply lookup_ge_None in Hit.
Qed.

(** ** Outcome of the categorical cell *)

Lemma filter_length_le {A} (P : A → Prop) `{!∀ x, Decision (P x)} (l : list A) :
  (length (filter P l) ≤ length l)%nat.
Proof. apply sublist_length, sublist_filter. Qed.

(** X21: The categorical cell has three outcomes, told apart by its partition:
    [TypeError] exactly when a text is not a string, [ZeroDivisionError]
    exactly when the partition is empty, and otherwise the seven rows in
    the order of the dict, each with the size of the partition as
    [n_total], a count that does not exceed it and a fraction between 0
    and 1 ([pct_comments] is a fraction, not a percentage). *)
Theorem prevalence_rows_outcome (texts : list cell) :
  match Keywords.prevalence_rows texts with
  | Ok rows =>
      (texts ≠ []) ∧ (NaN ∉ texts)
      ∧ Keywords.category <$> rows = Keywords.descriptor_categories.*1
      ∧ Forall (λ r, Keywords.n_total r = length texts
                     ∧ (Keywords.n_comments r ≤ Keywords.n_total r)%nat
                     ∧ (0 <= Keywords.pct_comments r)%Q
                     ∧ (Keywords.pct_comments r <= 1)%Q) rows
  | Raise e =>
      (e = TypeError ∧ NaN ∈ texts) ∨ (e = ZeroDivisionError ∧ texts = [])
  end.
Proof.
  destruct (strings_of texts) as [ss|] eqn:Hs.
  - assert (NaN ∉ texts) as Hnan.
    { intros Hin. apply strings_of_None in Hin. congruence. }
    apply strings_of_Some in Hs as ->.
    destruct ss as [|s ss]; [right; by split|].
    rewrite prevalence_rows_nonempty by done.
    split; [done|]. split; [done|]. split; [reflexivity|].
    unfold expected_rows. apply Forall_fmap, Forall_forall.
    intros [label p] _. rewrite length_fmap. unfold compose. cbv beta iota zeta.
    pose proof (filter_length_le (λ s0, re_search p s0 = true) (s :: ss)) as Hle.
    assert (length (s :: ss) ≠ 0%nat) as Hne by done.
    revert Hle Hne.
    generalize (length (filter (λ s0, re_search p s0 = true) (s :: ss))).
    generalize (length (s :: ss)). intros t n Hle Hne. cbn.
    split; [done|]. split; [done|].
    unfold Qle. cbn [Qnum Qden].
    rewrite pos_of_nat_Z by done. lia.
  - rewrite prevalence_rows_NaN by done. left.
    split; [done|]. by apply strings_of_None.
Qed.

(** ** The acronym detection cell *)

Module RxFacts.
#[local] Arguments String.append : simpl nomatch.

Lemma rx_match_Cset {A} fuel cls prev s (k : option ascii → string → option A) :
  rx_match fuel (Cset cls) prev s k
  = match s with
    | String c s' => if cls c then k (Some c) s' else None
    | "" => None
    end.
Proof. by destruct fuel. Qed.

Lemma rx_match_Seq {A} fuel r1 r2 prev s (k : option ascii → string → option A) :
  rx_match fuel (Seq r1 r2) prev s k
  = rx_match fuel r1 prev s (λ prev' s', rx_match fuel r2 prev' s' k).
Proof. by destruct fuel. Qed.

Lemma rx_match_Alt {A} fuel r1 r2 prev s (k : option ascii → string → option A) :
  rx_match fuel (Alt r1 r2) prev s k
  = match rx_match fuel r1 prev s k with
    | Some x => Some x
    | None => rx_match fuel r2 prev s k
    end.
Proof. by destruct fuel. Qed.

Lemma rx_match_Star_O {A} r prev s (k : option ascii → string → option A) :
  rx_match 0 (Star r) prev s k = None.
Proof. done. Qed.

Lemma rx_match_Star_S {A} fuel r prev s (k : option ascii → string → option A) :
  rx_match (S fuel) (Star r) prev s k
  = match rx_match (S fuel) r prev s
            (λ prev' s',
               if (String.length s' <? String.length s)%nat
               then rx_match fuel (Star r) prev' s' k
               else None) with
    | Some x => Some x
    | None => k prev s
    end.
Proof. done. Qed.

Lemma rx_match_Bound {A} fuel prev s (k : option ascii → string → option A) :
  rx_match fuel Bound prev s k
  = if boundary prev (head_char s) then k prev s else None.
Proof. by destruct fuel. Qed.

Lemma last_of_app w1 : ∀ c w2,
  last_of c (w1 +:+ w2)
  = match w2 with
    | "" => last_of c w1
    | String d w2' => last_of d w2'
    end.
Proof.
  induction w1 as [|a w1 IH]; intros c w2; cbn.
  - by destruct w2.
  - by rewrite IH.
Qed.

Lemma last_opt_app prev w1 w2 :
  last_opt (last_opt prev w1) w2 = last_opt prev (w1 +:+ w2).
Proof.
  destruct w1 as [|c w1]; [done|]. cbn. rewrite last_of_app.
  by destruct w2.
Qed.

Lemma last_opt_cons prev c w : last_opt prev (String c w) = last_opt (Some c) w.
Proof. by destruct w. Qed.

Lemma rx_match_sound {A} fuel : ∀ r prev s (k : option ascii → string → option A) x,
  rx_match fuel r prev s k = Some x →
  ∃ w rest, s = w +:+ rest ∧ matches r prev w rest
            ∧ k (last_opt prev w) rest = Some x.
Proof.
  induction (lt_wf fuel) as [fuel _ IHf]. intros r.
  induction r as [cls|r1 IH1 r2 IH2|r1 IH1 r2 IH2|r1 IH1|]; intros prev s k x Hm.
  - rewrite rx_match_Cset in Hm. destruct s as [|c s]; [done|].
    destruct (cls c) eqn:Hc; [|done].
    exists (String c ""), s. split; [done|]. split; [by constructor|done].
  - rewrite rx_match_Seq in Hm.
    apply IH1 in Hm as (w1 & rest1 & -> & M1 & Hk).
    apply IH2 in Hk as (w2 & rest & -> & M2 & Hk).
    exists (w1 +:+ w2), rest. split; [by rewrite append_assoc|].
    split; [by constructor|]. by rewrite <- last_opt_app.
  - rewrite rx_match_Alt in Hm.
    destruct (rx_match fuel r1 prev s k) as [y|] eqn:E1.
    + inversion Hm; subst y. apply IH1 in E1 as (w & rest & -> & M & Hk).
      exists w, rest. split; [done|]. split; [by apply matches_alt_l|done].
    + apply IH2 in Hm as (w & rest & -> & M & Hk).
      exists w, rest. split; [done|]. split; [by apply matches_alt_r|done].
  - destruct fuel as [|f]; [done|]. rewrite rx_match_Star_S in Hm.
    destruct (rx_match (S f) r1 prev s _) as [y|] eqn:E1.
    + inversion Hm; subst y. apply IH1 in E1 as (w1 & rest1 & -> & M1 & Hk).
      destruct (_ <? _)%nat; [|done].
      apply IHf in Hk as (w2 & rest & -> & M2 & Hk); [|lia].
      exists (w1 +:+ w2), rest. split; [by rewrite append_assoc|].
      split; [by apply matches_star_cons|]. by rewrite <- last_opt_app.
    + exists "", s. split; [done|]. split; [constructor|done].
  - rewrite rx_match_Bound in Hm.
    destruct (boundary prev (head_char s)) eqn:Hb; [|done].
    exists "", s. split; [done|]. split; [by constructor|done].
Qed.

(** Fuel above the length of the text is never used up: the result does
    not depend on it. *)
Lemma rx_match_fuel {A} fuel1 : ∀ fuel2 r prev s
    (k1 k2 : option ascii → string → option A),
  (String.length s < fuel1)%nat → (String.length s < fuel2)%nat →
  (∀ p s', (String.length s' ≤ String.length s)%nat → k1 p s' = k2 p s') →
  rx_match fuel1 r prev s k1 = rx_match fuel2 r prev s k2.
Proof.
  induction (lt_wf fuel1) as [fuel1 _ IHf]. intros fuel2 r.
  induction r as [cls|r1 IH1 r2 IH2|r1 IH1 r2 IH2|r1 IH1|];
    intros prev s k1 k2 H1 H2 Hk.
  - rewrite !rx_match_Cset. destruct s as [|c s]; [done|].
    destruct (cls c); [|done]. apply Hk. cbn. lia.
  - rewrite !rx_match_Seq. apply IH1; [done..|].
    intros p s' Hs'. apply IH2; [lia..|]. intros p' s'' Hs''. apply Hk. lia.
  - rewrite !rx_match_Alt. rewrite (IH1 prev s k1 k2) by done.
    destruct (rx_match fuel2 r1 prev s k2); [done|]. by apply IH2.
  - destruct fuel1 as [|f1]; [lia|]. destruct fuel2 as [|f2]; [lia|].
    rewrite !rx_match_Star_S.
    rewrite (IH1 prev s _
               (λ prev' s', if (String.length s' <? String.length s)%nat
                            then rx_match f2 (Star r1) prev' s' k2 else None));
      [|done..|].
    + destruct (rx_match (S f2) r1 prev s _); [done|]. by apply Hk.
    + intros p s' Hs'. destruct (Nat.ltb_spec (String.length s') (String.length s));
        [|done].
      apply IHf; [lia..|]. intros p' s'' Hs''. apply Hk. lia.
  - rewrite !rx_match_Bound. destruct (boundary _ _); [|done]. by apply Hk.
Qed.

Lemma rx_match_here_sound r prev s n :
  rx_match_here r prev s = Some n →
  ∃ w rest, s = w +:+ rest ∧ matches r prev w rest ∧ n = String.length w.
Proof.
  unfold rx_match_here. intros Hm.
  apply rx_match_sound in Hm as (w & rest & Hs & M & Hn).
  exists w, rest. split; [done|]. split; [done|].
  inversion Hn. rewrite Hs, length_append. lia.
Qed.

Lemma substring_prefix w : ∀ rest,
  substring 0 (String.length w) (w +:+ rest) = w.
Proof.
  induction w as [|c w IH]; intros rest; cbn.
  - by destruct rest.
  - by rewrite IH.
Qed.

Lemma length_0_empty (w : string) : String.length w = 0%nat → w = "".
Proof. by destruct w. Qed.

Lemma findall_from_sound r : ∀ s prev skip w,
  w ∈ findall_from r prev skip s →
  ∃ pre post, s = pre +:+ w +:+ post ∧ matches r (last_opt prev pre) w post.
Proof.
  induction s as [|c s IH]; intros prev skip w Hin.
  - cbn [findall_from] in Hin. destruct skip; [|by apply elem_of_nil in Hin].
    destruct (rx_match_here r prev "") as [n|] eqn:Hm;
      [|by apply elem_of_nil in Hin].
    apply list_elem_of_singleton in Hin as ->.
    apply rx_match_here_sound in Hm as (w & rest & Hs & M & _).
    destruct w; [|done]. destruct rest; [|done].
    by exists "", "".
  - assert (∀ skip', w ∈ findall_from r (Some c) skip' s →
      ∃ pre post, String c s = pre +:+ w +:+ post
                  ∧ matches r (last_opt prev pre) w post) as Htail.
    { intros skip' Hw. apply IH in Hw as (pre & post & -> & M).
      exists (String c pre), post. split; [done|]. by rewrite last_opt_cons. }
    cbn [findall_from] in Hin. destruct skip as [|k]; [|by eapply Htail].
    destruct (rx_match_here r prev (String c s)) as [[|k]|] eqn:Hm;
      [| |by eapply Htail].
    + apply elem_of_cons in Hin as [->|Hin]; [|by eapply Htail].
      apply rx_match_here_sound in Hm as (w & rest & Hs & M & Hn).
      symmetry in Hn. apply length_0_empty in Hn as ->.
      exists "", rest. by rewrite Hs.
    + apply elem_of_cons in Hin as [->|Hin]; [|by eapply Htail].
      apply rx_match_here_sound in Hm as (w & rest & Hs & M & Hn).
      rewrite Hs, Hn, substring_prefix. by exists "", rest.
Qed.

(** *** What a match of the pattern looks like *)

Lemma matches_Cset_inv cls prev w rest :
  matches (Cset cls) prev w rest → ∃ c, w = String c "" ∧ cls c = true.
Proof. inversion 1; subst. by eexists. Qed.

Lemma matches_Seq_inv r1 r2 prev w rest :
  matches (Seq r1 r2) prev w rest →
  ∃ w1 w2, w = w1 +:+ w2 ∧ matches r1 prev w1 (w2 +:+ rest)
           ∧ matches r2 (last_opt prev w1) w2 rest.
Proof. inversion 1; subst. by eexists _, _. Qed.

Lemma matches_Alt_inv r1 r2 prev w rest :
  matches (Alt r1 r2) prev w rest →
  matches r1 prev w rest ∨ matches r2 prev w rest.
Proof. inversion 1; subst; [by left|by right]. Qed.

Lemma matches_Bound_inv prev w rest :
  matches Bound prev w rest → w = "" ∧ boundary prev (head_char rest) = true.
Proof. by inversion 1; subst. Qed.

Lemma all_chars_app P a b :
  all_chars P (a +:+ b) = all_chars P a && all_chars P b.
Proof.
  induction a as [|c a IH]; [done|]. cbn. by rewrite IH, andb_assoc.
Qed.

Lemma matches_Star_all P r :
  (∀ prev w rest, matches r prev w rest → all_chars P w = true) →
  ∀ prev w rest, matches (Star r) prev w rest → all_chars P w = true.
Proof.
  intros Hr prev w rest M. remember (Star r) as sr eqn:E.
  induction M as [| | | | |r' prev w1 w2 rest M1 _ M2 IH2|]; try done.
  inversion E; subst r'. rewrite all_chars_app.
  rewrite (Hr _ _ _ M1). by apply IH2.
Qed.

Lemma matches_Plus_Cset cls prev w rest :
  matches (Plus (Cset cls)) prev w rest →
  ∃ c w', w = String c w' ∧ cls c = true ∧ all_chars cls w' = true.
Proof.
  intros M. apply matches_Seq_inv in M as (w1 & w2 & -> & M1 & M2).
  apply matches_Cset_inv in M1 as (c & -> & Hc).
  exists c, w2. split; [done|]. split; [done|].
  eapply matches_Star_all; [|exact M2].
  intros p w r M. apply matches_Cset_inv in M as (d & -> & Hd).
  cbn. by rewrite Hd.
Qed.


Lemma is_upper_acronym_char c : is_upper c = true → acronym_char c = true.
Proof. unfold acronym_char. by intros ->. Qed.

Lemma is_digit_acronym_char c : is_digit c = true → acronym_char c = true.
Proof. unfold acronym_char. intros ->. by rewrite orb_true_r. Qed.

Lemma matches_group_chars prev w rest :
  matches (Seq Detect.slash (Plus Detect.upper)) prev w rest →
  all_chars acronym_char w = true.
Proof.
  intros M. apply matches_Seq_inv in M as (w1 & w2 & -> & M1 & M2).
  apply matches_Cset_inv in M1 as (c & -> & Hc).
  apply matches_Plus_Cset in M2 as (d & w' & -> & Hd & Hw').
  cbn. unfold acronym_char at 1. rewrite Hc, orb_true_r.
  rewrite (is_upper_acronym_char d Hd). cbn.
  exact (all_chars_impl is_upper acronym_char w' is_upper_acronym_char Hw').
Qed.

(** A match is a capital followed by capitals, digits and slashes, and
    when it is a single character no other alternative has been at work. *)
Lemma matches_alternatives prev w rest :
  matches (Alt (Seq (Plus Detect.upper)
                    (Star (Seq Detect.slash (Plus Detect.upper))))
               (Seq (Plus Detect.upper)
                    (Seq (Plus Detect.digit) (Star Detect.upper))))
          prev w rest →
  ∃ c w', w = String c w' ∧ is_upper c = true
          ∧ all_chars acronym_char w' = true.
Proof.
  intros M. apply matches_Alt_inv in M as [M|M].
  - apply matches_Seq_inv in M as (w1 & w2 & -> & M1 & M2).
    apply matches_Plus_Cset in M1 as (c & w' & -> & Hc & Hw').
    exists c, (w' +:+ w2). split; [done|]. split; [done|].
    rewrite all_chars_app.
    rewrite (all_chars_impl is_upper acronym_char w' is_upper_acronym_char Hw').
    eapply matches_Star_all; [|exact M2].
    intros p w r. apply matches_group_chars.
  - apply matches_Seq_inv in M as (w1 & w2 & -> & M1 & M2).
    apply matches_Plus_Cset in M1 as (c & w' & -> & Hc & Hw').
    apply matches_Seq_inv in M2 as (w3 & w4 & -> & M3 & M4).
    apply matches_Plus_Cset in M3 as (d & w3' & -> & Hd & Hw3').
    exists c, (w' +:+ String d w3' +:+ w4). split; [done|]. split; [done|].
    rewrite !all_chars_app.
    rewrite (all_chars_impl is_upper acronym_char w' is_upper_acronym_char Hw').
    cbn. rewrite (is_digit_acronym_char d Hd).
    rewrite (all_chars_impl is_digit acronym_char w3' is_digit_acronym_char Hw3').
    cbn. eapply (matches_Star_all acronym_char); [|exact M4].
    intros p w r M. apply matches_Cset_inv in M as (e & -> & He).
    cbn. by rewrite (is_upper_acronym_char e He).
Qed.

Lemma matches_pattern_shape prev w rest :
  matches Detect.pattern prev w rest →
  ∃ c w', w = String c w' ∧ is_upper c = true
          ∧ all_chars acronym_char w' = true
          ∧ boundary prev (Some c) = true
          ∧ boundary (Some (last_of c w')) (head_char rest) = true.
Proof.
  unfold Detect.pattern. intros M.
  apply matches_Seq_inv in M as (w0 & w12 & -> & M0 & M).
  apply matches_Bound_inv in M0 as [-> Hb0].
  apply matches_Seq_inv in M as (w1 & w2 & -> & M1 & M2).
  apply matches_Bound_inv in M2 as [-> Hb2].
  apply matches_alternatives in M1 as (c & w' & -> & Hc & Hw').
  exists c, w'. rewrite JsonFacts.append_nil_r. by cbn in *.
Qed.

Lemma keep_single c : is_upper c = true → Detect.keep (String c "") = false.
Proof.
  intros Hc. destruct c as [[] [] [] [] [] [] [] []];
    vm_compute in Hc; try discriminate Hc; reflexivity.
Qed.

Lemma keep_long (m : string) :
  (1 < String.length m)%nat → Detect.keep m = true.
Proof.
  intros Hl. unfold Detect.keep. by apply Nat.ltb_lt in Hl as ->.
Qed.

Lemma elem_of_keep_fold (l : list string) : ∀ (acc : gset string) w,
  w ∈ foldl (λ acronyms m, if Detect.keep m then acronyms ∪ {[m]} else acronyms)
            acc l
  ↔ w ∈ acc ∨ (w ∈ l ∧ Detect.keep w = true).
Proof.
  induction l as [|m l IH]; intros acc w; cbn [foldl].
  - split; [by left|]. intros [?|[Hin _]]; [done|by apply elem_of_nil in Hin].
  - rewrite IH, elem_of_cons. destruct (Detect.keep m) eqn:Hm.
    + rewrite elem_of_union, elem_of_singleton. split.
      * intros [[?| ->]|[? ?]]; [by left|right; split; [by left|done]|].
        right. split; [by right|done].
      * intros [?|[[->|?] ?]]; [by left; left|by left; right|by right].
    + split.
      * intros [?|[? ?]]; [by left|]. right. split; [by right|done].
      * intros [?|[[->|?] ?]]; [by left|congruence|by right].
Qed.

Lemma elem_of_acronyms_from (col : list cell) : ∀ (acc : gset string) w,
  w ∈ foldl Detect.add_matches acc col
  ↔ w ∈ acc ∨ ∃ s, Str s ∈ col ∧ w ∈ findall Detect.pattern s
                   ∧ Detect.keep w = true.
Proof.
  induction col as [|c col IH]; intros acc w; cbn [foldl].
  - split; [by left|]. intros [?|(s & Hin & _)]; [done|by apply elem_of_nil in Hin].
  - rewrite IH. destruct c as [s|]; cbn [Detect.add_matches].
    + rewrite elem_of_keep_fold. split.
      * intros [[?|[? ?]]|(s' & ? & ? & ?)]; [by left| |].
        -- right. exists s. split; [by left|done].
        -- right. exists s'. split; [by right|done].
      * intros [?|(s' & [[= ->]|?]%elem_of_cons & ? & ?)];
          [by left; left|by left; right|].
        right. by exists s'.
    + split.
      * intros [?|(s' & ? & ? & ?)]; [by left|].
        right. exists s'. split; [by right|done].
      * intros [?|(s' & [[=]|?]%elem_of_cons & ? & ?)]; [by left|].
        right. by exists s'.
Qed.

Lemma elem_of_acronyms (col : list cell) (w : string) :
  w ∈ Detect.acronyms col
  ↔ ∃ s, Str s ∈ col ∧ w ∈ findall Detect.pattern s ∧ Detect.keep w = true.
Proof.
  unfold Detect.acronyms. rewrite elem_of_acronyms_from.
  split; [intros [Hin|?]; [by apply elem_of_empty in Hin|done]|by right].
Qed.


(** *** A keyword found by the detection pattern is found by the
    keyword search *)

Lemma match_literal_self lit : ∀ prev post,
  match_literal lit prev (lit +:+ post) = Some (last_opt prev lit, post).
Proof.
  induction lit as [|a lit IH]; intros prev post; [done|].
  cbn [match_literal String.append]. rewrite bool_decide_eq_true_2 by done.
  by rewrite IH, last_opt_cons.
Qed.

Lemma hit_self lit prev post :
  boundary prev (head_char (lit +:+ post)) = true →
  boundary (last_opt prev lit) (head_char post) = true →
  hit lit prev (lit +:+ post) = true.
Proof.
  intros Hb1 Hb2. unfold hit, mlb. by rewrite Hb1, match_literal_self, Hb2.
Qed.

Lemma search_hit lit prev t : hit lit prev t = true → search_from [lit] prev t = true.
Proof.
  intros Hh. destruct t as [|c t].
  - by rewrite SubFacts.search_nil.
  - by rewrite SubFacts.search_cons, Hh.
Qed.

Lemma search_skip lit pre : ∀ prev t,
  search_from [lit] (last_opt prev pre) t = true →
  search_from [lit] prev (pre +:+ t) = true.
Proof.
  induction pre as [|c pre IH]; intros prev t Hs; [done|].
  cbn [String.append]. rewrite SubFacts.search_cons.
  rewrite (IH (Some c)); [by rewrite orb_true_r|]. by rewrite <- last_opt_cons with (prev := prev).
Qed.

Lemma search_occurrence lit pre post :
  boundary (last_opt None pre) (head_char (lit +:+ post)) = true →
  boundary (last_opt (last_opt None pre) lit) (head_char post) = true →
  re_search [lit] (pre +:+ lit +:+ post) = true.
Proof.
  intros Hb1 Hb2. unfold re_search. apply search_skip, search_hit.
  by apply hit_self.
Qed.

(** *** The longest repetition is tried first *)

Lemma star_cset_all {A} cls w : ∀ fuel prev (k : option ascii → string → option A) x,
  all_chars cls w = true → (String.length w < fuel)%nat →
  k (last_opt prev w) "" = Some x →
  rx_match fuel (Star (Cset cls)) prev w k = Some x.
Proof.
  induction w as [|c w IH]; intros fuel prev k x Hall Hf Hk.
  - destruct fuel as [|f]; [lia|].
    by rewrite rx_match_Star_S, rx_match_Cset.
  - destruct fuel as [|f]; [cbn in Hf; lia|].
    cbn in Hall. apply andb_true_iff in Hall as [Hc Hall].
    rewrite rx_match_Star_S, rx_match_Cset, Hc.
    assert ((String.length w <? String.length (String c w))%nat = true) as ->
      by (apply Nat.ltb_lt; cbn; lia).
    rewrite (IH f (Some c) k x); [done|done|cbn in Hf; lia|].
    by rewrite <- last_opt_cons with (prev := prev).
Qed.

Lemma pattern_at_end prev : rx_match_here Detect.pattern prev "" = None.
Proof. destruct prev as [c|]; cbn; [by destruct (boundary _ _)|done]. Qed.

Lemma findall_from_skip r s : ∀ prev,
  findall_from r prev (String.length s) s
  = findall_from r (last_opt prev s) 0 "".
Proof.
  induction s as [|c s IH]; intros prev; [done|].
  cbn [String.length findall_from]. by rewrite IH, last_opt_cons.
Qed.

Lemma is_upper_is_word c : is_upper c = true → is_word c = true.
Proof. unfold is_word. by intros ->. Qed.

Lemma last_of_all_chars P w : ∀ c,
  P c = true → all_chars P w = true → P (last_of c w) = true.
Proof.
  induction w as [|d w IH]; intros c Hc Hall; [done|].
  cbn in *. apply andb_true_iff in Hall as [Hd Hall]. by apply IH.
Qed.

Lemma capitals_match_whole c w :
  is_upper c = true → all_chars is_upper w = true →
  rx_match_here Detect.pattern None (String c w)
  = Some (S (String.length w)).
Proof.
  intros Hc Hw. unfold rx_match_here, Detect.pattern.
  remember (S (String.length (String c w))) as fuel eqn:Hfuel.
  rewrite rx_match_Seq, rx_match_Bound.
  assert (boundary None (head_char (String c w)) = true) as ->
    by (cbn; by rewrite is_upper_is_word).
  rewrite rx_match_Seq, rx_match_Alt.
  assert (rx_match fuel
            (Seq (Plus Detect.upper)
                 (Star (Seq Detect.slash (Plus Detect.upper))))
            None (String c w)
            (λ prev' s', rx_match fuel Bound prev' s'
               (λ _ rest, Some (String.length (String c w) - String.length rest)%nat))
          = Some (S (String.length w))) as ->; [|done].
  rewrite rx_match_Seq. unfold Plus at 1. rewrite rx_match_Seq.
  unfold Detect.upper at 1. rewrite rx_match_Cset, Hc.
  apply star_cset_all; [done|subst fuel; cbn; lia|].
  subst fuel. rewrite rx_match_Star_S, rx_match_Seq.
  unfold Detect.slash at 1. rewrite rx_match_Cset, rx_match_Bound.
  rewrite <- last_opt_cons with (prev := None).
  cbn [last_opt head_char]. unfold boundary. cbn [word_opt].
  rewrite is_upper_is_word by (by apply last_of_all_chars).
  cbn. f_equal.
Qed.

Lemma findall_capitals c w :
  is_upper c = true → all_chars is_upper w = true →
  findall Detect.pattern (String c w) = [String c w].
Proof.
  intros Hc Hw. unfold findall. cbn [findall_from].
  rewrite capitals_match_whole by done.
  pose proof (substring_prefix (String c w) "") as Hsub.
  rewrite JsonFacts.append_nil_r in Hsub. cbn [String.length] in Hsub.
  rewrite Hsub. f_equal.
  rewrite findall_from_skip. cbn [findall_from].
  by rewrite pattern_at_end.
Qed.

End RxFacts.

(** X22: Whatever the ASCII comments are, every acronym that the detection
    cell collects has at least two characters, starts with a capital,
    consists of capitals, digits and slashes, and stands in one of the
    string comments between two word boundaries. *)
Theorem detected_acronym_shape (comments : list cell) :
  Forall ascii_cell comments →
  set_Forall
    (λ w, (2 ≤ String.length w)%nat
          ∧ (∃ c w', w = String c w' ∧ is_upper c = true
                     ∧ all_chars acronym_char w' = true)
          ∧ ∃ s pre post,
              Str s ∈ comments ∧ s = pre +:+ w +:+ post
              ∧ boundary (last_opt None pre) (head_char w) = true
              ∧ boundary (last_opt None w) (head_char post) = true)
    (Detect.acronyms comments).
Proof.
  intros _ w Hin.
  apply RxFacts.elem_of_acronyms in Hin as (s & Hs & Hw & Hkeep).
  apply RxFacts.findall_from_sound in Hw as (pre & post & -> & M).
  apply RxFacts.matches_pattern_shape in M as (c & w' & -> & Hc & Hw' & Hb1 & Hb2).
  split; [|split].
  - destruct w' as [|d w']; [|cbn; lia].
    by rewrite RxFacts.keep_single in Hkeep.
  - by exists c, w'.
  - by exists (pre +:+ String c w' +:+ post), pre, post.
Qed.

Lemma detected_acronym_shape_witness :
  set_Forall
    (λ w, (2 ≤ String.length w)%nat
          ∧ (∃ c w', w = String c w' ∧ is_upper c = true
                     ∧ all_chars acronym_char w' = true)
          ∧ ∃ s pre post,
              Str s ∈ [Str "WOW, O/G and T2N"; NaN]
              ∧ s = pre +:+ w +:+ post
              ∧ boundary (last_opt None pre) (head_char w) = true
              ∧ boundary (last_opt None w) (head_char post) = true)
    (Detect.acronyms [Str "WOW, O/G and T2N"; NaN]).
Proof.
  apply (detected_acronym_shape [Str "WOW, O/G and T2N"; NaN]).
  repeat constructor.
Defined.

(** X23: The detection cell is case-sensitive: comments without a capital
    letter yield no acronym at all, although the expansion cell, which
    ignores case, expands every key of the map written in lower case. *)
Theorem lower_case_comments_hide_acronyms (comments : list cell) :
  Detect.acronyms (lower_cell <$> comments) = ∅
  ∧ Forall (λ r, Clean.expand_acronyms [Str (lower r.1)] = [Str r.2])
           Clean.acronym_map.
Proof.
  split; [|repeat (constructor; [reflexivity|]); constructor].
  apply elem_of_equiv_empty_L. intros w Hin.
  apply RxFacts.elem_of_acronyms in Hin as (s & Hs & Hw & _).
  apply list_elem_of_fmap in Hs as ([s0|] & Hs0 & _); [|done].
  cbn in Hs0. inversion Hs0; subst s.
  apply RxFacts.findall_from_sound in Hw as (pre & post & Hs & M).
  apply RxFacts.matches_pattern_shape in M as (c & w' & -> & Hc & _).
  pose proof (all_chars_lower s0) as Hall.
  rewrite Hs, RxFacts.all_chars_app in Hall.
  apply andb_true_iff in Hall as [_ Hall].
  cbn [String.append all_chars] in Hall.
  apply andb_true_iff in Hall as [Hall _]. by rewrite Hc in Hall.
Qed.

(** X24: The second and third test of the filter never decide: on a match of
    the pattern the filter is the length test alone, and the matches it
    drops are the single capitals. *)
Theorem detection_filter_is_length_test (s : string) :
  Forall (λ m, Detect.keep m = (1 <? String.length m)%nat
               ∧ (Detect.keep m = false
                  ↔ ∃ c, m = String c "" ∧ is_upper c = true))
         (findall Detect.pattern s).
Proof.
  apply Forall_forall. intros m Hm.
  apply RxFacts.findall_from_sound in Hm as (pre & post & _ & M).
  apply RxFacts.matches_pattern_shape in M as (c & w' & -> & Hc & _).
  destruct w' as [|d w'].
  - rewrite RxFacts.keep_single by done. split; [done|].
    split; [by exists c|done].
  - rewrite RxFacts.keep_long by (cbn; lia). split; [done|].
    split; [done|]. by intros (c' & [=] & _).
Qed.

(** X25: Run again on the column that the expansion cell returns for ASCII
    comments, the detection cell reports none of the acronyms that the map
    expands. *)
Theorem cleaned_column_has_no_mapped_acronym (col : list cell) :
  Forall ascii_cell col →
  match Run.expand_acronyms col with
  | Ok out => Forall (λ k, k ∉ Detect.acronyms out) Clean.acronym_map.*1
  | Raise e => e = AttributeError
  end.
Proof.
  intros _. rewrite run_expand_acronyms.
  pose proof (str_accessor_outcome col) as Hacc.
  destruct (Run.str_accessor col) as [out|e]; [|by destruct Hacc].
  destruct Hacc as [-> _]. cbn [mbind result_bind].
  apply Forall_forall. intros k Hk Hin.
  apply RxFacts.elem_of_acronyms in Hin as (s & Hs & Hw & _).
  rewrite expand_acronyms_map in Hs.
  apply list_elem_of_fmap in Hs as ([s0|] & Hs0 & _); [|done].
  cbn [normalize_cell] in Hs0. inversion Hs0; subst s. clear Hs0.
  apply RxFacts.findall_from_sound in Hw as (pre & post & Hs & M).
  apply RxFacts.matches_pattern_shape in M as (c & w' & -> & Hc & _ & Hb1 & Hb2).
  assert (re_search [String c w'] (normalize_str s0) = false) as Hno.
  { apply normalize_str_no_match. unfold rules. rewrite fmap_app.
    apply elem_of_app. by left. }
  rewrite Hs, RxFacts.search_occurrence in Hno; done.
Qed.

Lemma cleaned_column_has_no_mapped_acronym_witness :
  match Run.expand_acronyms [Str "IPA, GO and WOW"; NaN] with
  | Ok out => Forall (λ k, k ∉ Detect.acronyms out) Clean.acronym_map.*1
  | Raise e => e = AttributeError
  end.
Proof.
  apply (cleaned_column_has_no_mapped_acronym [Str "IPA, GO and WOW"; NaN]).
  repeat constructor.
Defined.

(** X26: A comment that is one word in capitals is reported as an acronym as
    soon as it has two letters, whether it is one or not; a single capital
    is not. *)
Theorem capital_word_is_reported (w : string) :
  all_chars is_upper w = true →
  Detect.acronyms [Str w]
  = if (1 <? String.length w)%nat then {[ w ]} else ∅.
Proof.
  intros Hall. destruct w as [|c w]; [reflexivity|].
  cbn in Hall. apply andb_true_iff in Hall as [Hc Hw].
  unfold Detect.acronyms. cbn [foldl Detect.add_matches].
  rewrite RxFacts.findall_capitals by done. cbn [foldl].
  destruct w as [|d w].
  - by rewrite RxFacts.keep_single.
  - rewrite RxFacts.keep_long by (cbn; lia). cbn. by rewrite (left_id_L ∅ (∪)).
Qed.

Lemma capital_word_is_reported_witness :
  Detect.acronyms [Str "WOW"] = {[ "WOW" ]}.
Proof.
  apply (capital_word_is_reported "WOW"). reflexivity.
Defined.

(** ** From the frame of notebook 1 to the partitions of notebook 2 *)


